(** * WandererRotatorSDK: protocol engine and public API, embedded in Rocq

    The development follows the C++ sources:
    - [WandererRotatorSerialPort.cpp]  (transport: Write, Read, Close)
    - [WandererRotatorProtocol.cpp]    (SendCommand, QueryStatus,
                                        BacklashToCommand, the move listener)
    - [WandererRotatorSDK.cpp]         (the public WRRotator* entry points)

    Single-precision values are IEEE-754 binary32 numbers, built on the
    parameterised specification of [SpecFloat] (24 bits of precision,
    exponent bound 128).  Machine integers are [Z] with the wrap-around
    written out.  The device registry [g_devices] is a finite map from
    handles to device records, and every entry point takes and returns it.

    The far end of the serial line is a script of what the reads and
    writes will meet; the C library's [%f] conversion is a parameter.
    Delays and the flushing of unread input change nothing that is
    modelled.  The background listener is a function that is run once per
    started thread.  Enumeration of the host's devices, the handshake and
    [WRRotatorOpen] are not part of the development. *)

From Stdlib Require Import ZArith QArith Qround Lia Bool String Ascii List.
From Stdlib Require Import Floats.SpecFloat.
From stdpp Require Import base option gmap.

Local Open Scope Z_scope.

(** ** Machine integers *)

Definition INT_MIN : Z := -2147483648.
Definition INT_MAX : Z := 2147483647.

(** Two's-complement reduction of a mathematical integer to [int]. *)
Definition wrap32 (z : Z) : Z := (z + 2147483648) mod 4294967296 - 2147483648.

(** Conversion of an [int] to [unsigned int]. *)
Definition to_unsigned (z : Z) : Z := z mod 4294967296.

(** ** binary32 arithmetic *)

Module F32.

Definition prec : Z := 24.
Definition emax : Z := 128.

Definition float : Type := spec_float.

Definition valid (x : float) : bool := valid_binary prec emax x.

Definition is_finite (x : float) : bool :=
  match x with
  | S754_zero _ | S754_finite _ _ _ => true
  | _ => false
  end.

Definition add : float -> float -> float := SFadd prec emax.
Definition sub : float -> float -> float := SFsub prec emax.
Definition mul : float -> float -> float := SFmul prec emax.
Definition div : float -> float -> float := SFdiv prec emax.
Definition opp : float -> float := SFopp.
Definition ltb : float -> float -> bool := SFltb.
Definition leb : float -> float -> bool := SFleb.
Definition eqb : float -> float -> bool := SFeqb.

(** [(float) z] for an [int] [z]: rounded to nearest, ties to even. *)
Definition of_int (z : Z) : float := binary_normalize prec emax z 0 false.

(** The integer part of a finite number, rounded toward zero. *)
Definition trunc (x : float) : Z :=
  match x with
  | S754_finite s m e =>
      cond_Zopp s
        (match e with
         | Z0 => Zpos m
         | Zpos _ => Z.shiftl (Zpos m) e
         | Zneg p => Z.shiftr (Zpos m) (Zpos p)
         end)
  | _ => 0
  end.

(** [(int) x]: the fractional part is discarded.  When the integer part
    does not fit an [int], or [x] is not a number, C leaves the result
    undefined; the model returns [INT_MIN], the value produced by the
    x86-64 conversion instruction. *)
Definition to_int (x : float) : Z :=
  if is_finite x then
    let v := trunc x in
    if (INT_MIN <=? v) && (v <=? INT_MAX) then v else INT_MIN
  else INT_MIN.

(** [fmodf x y] of the C library: the remainder of the division truncated
    toward zero, with the sign of [x]; the result is exact. *)
Definition fmodf (x y : float) : float :=
  match x with
  | S754_nan | S754_infinity _ => S754_nan
  | S754_zero _ =>
      match y with
      | S754_nan | S754_zero _ => S754_nan
      | _ => x
      end
  | S754_finite sx mx ex =>
      match y with
      | S754_nan | S754_zero _ => S754_nan
      | S754_infinity _ => x
      | S754_finite _ my ey =>
          let ez := Z.min ex ey in
          let X := Zpos (fst (shl_align mx ex ez)) in
          let Y := Zpos (fst (shl_align my ey ez)) in
          binary_normalize prec emax (cond_Zopp sx (Z.rem X Y)) ez sx
      end
  end.

(** The constants that appear in the sources. *)
Definition zero : float := S754_zero false.
Definition one : float := of_int 1.
Definition f10 : float := of_int 10.
Definition f180 : float := of_int 180.
Definition f360 : float := of_int 360.
Definition f1000 : float := of_int 1000.

(** The value of a finite number in units of [2^-149], the spacing of the
    smallest binary32 numbers: an integer for every valid number. *)
Definition scaled (x : float) : Z :=
  match x with
  | S754_finite s m e => cond_Zopp s (Zpos m * 2 ^ (e + 149))
  | _ => 0
  end.

(** The value of a finite number as a rational. *)
Definition to_Q (x : float) : Q :=
  match x with
  | S754_finite s m e =>
      match e with
      | Zneg p => Qmake (cond_Zopp s (Zpos m)) (2 ^ p)%positive
      | _ => inject_Z (cond_Zopp s (Zpos m * 2 ^ e))
      end
  | _ => 0%Q
  end.

(** The number [n / 2^k], for building dyadic test values. *)
Definition dyadic (n : Z) (k : Z) : float := binary_normalize prec emax n (- k) false.

End F32.

(** ** C strings and the C library's formatted input and output *)

Local Open Scope string_scope.
Local Open Scope Z_scope.

Definition nl : string := String (ascii_of_nat 10) EmptyString.

(** [s.find(pat) != std::string::npos] *)
Fixpoint contains (pat s : string) : bool :=
  String.prefix pat s ||
  match s with
  | EmptyString => false
  | String _ s' => contains pat s'
  end.

(** The first [n] characters of [s]: what [strncpy] and [snprintf] keep. *)
Fixpoint take_chars (n : nat) (s : string) : string :=
  match n, s with
  | S n', String c s' => String c (take_chars n' s')
  | _, _ => EmptyString
  end.

(** A received buffer read as a C string ends at its first NUL byte. *)
Fixpoint c_str (s : string) : string :=
  match s with
  | EmptyString => EmptyString
  | String c s' => if Ascii.eqb c zero then EmptyString else String c (c_str s')
  end.

(** [snprintf(buf, ..., "%d", z)] *)
Definition digit_char (d : Z) : ascii := ascii_of_nat (48 + Z.to_nat d).

Fixpoint digits_of (fuel : nat) (n : Z) (acc : string) : string :=
  match fuel with
  | O => acc
  | S fuel' =>
      let acc' := String (digit_char (n mod 10)) acc in
      if n <? 10 then acc' else digits_of fuel' (n / 10) acc'
  end.

(** Ten digits render every magnitude up to [2^31]. *)
Definition string_of_int (z : Z) : string :=
  if z <? 0 then String "-"%char (digits_of 10 (- z) EmptyString)
  else digits_of 10 z EmptyString.

(** [snprintf(buf, size, fmt, ...)]: at most [size - 1] characters are stored. *)
Definition snprintf (size : nat) (formatted : string) : string :=
  take_chars (Nat.pred size) formatted.

(** Matching a literal of a [sscanf] format against the input. *)
Fixpoint scan_literal (lit s : string) : option string :=
  match lit, s with
  | EmptyString, _ => Some s
  | String a lit', String b s' => if Ascii.eqb a b then scan_literal lit' s' else None
  | String _ _, EmptyString => None
  end.

(** The conversion [%7[^A]]: the longest run of at most [width] characters
    other than [A]. *)
Fixpoint scan_not_A (width : nat) (s : string) : string :=
  match width, s with
  | S w, String c s' =>
      if Ascii.eqb c "A"%char then EmptyString else String c (scan_not_A w s')
  | _, _ => EmptyString
  end.

(** [sscanf(response, "WandererRotator%7[^A]A", model) == 1] *)
Definition scan_model (response : string) : option string :=
  match scan_literal "WandererRotator" response with
  | None => None
  | Some rest =>
      match scan_not_A 7 rest with
      | EmptyString => None
      | model => Some model
      end
  end.

Definition is_space (c : ascii) : bool :=
  let n := nat_of_ascii c in
  Nat.eqb n 32 || (Nat.leb 9 n && Nat.leb n 13).

Fixpoint skip_space (s : string) : string :=
  match s with
  | String c s' => if is_space c then skip_space s' else s
  | EmptyString => s
  end.

Definition digit_of (c : ascii) : option Z :=
  let n := Z.of_nat (nat_of_ascii c) in
  if (48 <=? n) && (n <=? 57) then Some (n - 48) else None.

Fixpoint scan_digits (s : string) (acc : option Z) : option Z :=
  match s with
  | String c s' =>
      match digit_of c with
      | Some d => scan_digits s' (Some (10 * default 0 acc + d))
      | None => acc
      end
  | EmptyString => acc
  end.

(** [sscanf(response, "%dA", &x) == 1]: white space, an optional sign and at
    least one digit.  A value outside [int] is reduced modulo [2^32]. *)
Definition scan_int (response : string) : option Z :=
  match skip_space response with
  | String "-"%char s' => wrap32 ∘ Z.opp <$> scan_digits s' None
  | String "+"%char s' => wrap32 <$> scan_digits s' None
  | s' => wrap32 <$> scan_digits s' None
  end.

(** ** Transport ([WandererRotatorSerialPort.cpp])

    The far end of the line is the environment.  [line] is what successive
    [select]/[read] calls will observe: a received byte, or [Quiet] when the
    wait ends without one.  [wr_results] gives, for each coming [write], whether
    it will accept every byte (an exhausted list means it does).  [tx] records
    what was handed to [write].  Delays ([usleep]) and [tcflush] leave none of
    these changed: bytes that are discarded were never observed. *)

Inductive line_event : Type :=
  | Rx (c : ascii)
  | Quiet.

Record SerialPort : Type := mkPort {
  fd : Z;
  line : list line_event;
  wr_results : list bool;
  tx : list string
}.

Definition IsOpen (p : SerialPort) : bool := 0 <=? fd p.

Definition Close (p : SerialPort) : SerialPort :=
  if 0 <=? fd p then mkPort (-1) (line p) (wr_results p) (tx p) else p.

Definition Write (p : SerialPort) (data : string) : bool * SerialPort :=
  if fd p <? 0 then (false, p)
  else
    match wr_results p with
    | [] => (true, mkPort (fd p) (line p) [] (tx p ++ [data]))
    | ok :: rest => (ok, mkPort (fd p) (line p) rest (tx p ++ [data]))
    end.

(** The loop of [SerialPort::Read]: [room] is [maxlen - 1 - bytesRead]. *)
Fixpoint read_loop (room : nat) (stop_char : ascii) (l : list line_event)
    (buf : string) : string * list line_event :=
  match room with
  | O => (buf, l)
  | S room' =>
      match l with
      | [] => (buf, [])
      | Quiet :: rest => (buf, rest)
      | Rx c :: rest =>
          let buf' := buf ++ String c EmptyString in
          if Ascii.eqb c stop_char then (buf', rest)
          else read_loop room' stop_char rest buf'
      end
  end.

(** [Read(buf, maxlen, stop_char, timeoutMs)]: the bytes stored in [buf]; the
    return value is their number.  On a closed descriptor [select] fails at
    once. *)
Definition Read (p : SerialPort) (maxlen : nat) (stop_char : ascii)
    : string * SerialPort :=
  if fd p <? 0 then (EmptyString, p)
  else
    let '(buf, l) := read_loop (Nat.pred maxlen) stop_char (line p) EmptyString in
    (buf, mkPort (fd p) l (wr_results p) (tx p)).

(** ** Device state ([WandererRotatorDevice.h]) *)

Record RotatorConfig : Type := mkRotatorConfig {
  rotator_reverseDirection : Z;
  rotator_stepRate : Z
}.

Record RotatorStatus : Type := mkRotatorStatus {
  position : F32.float;
  moving : Z;
  stepsPerRevolution : Z;
  stepSize : F32.float
}.

(** [port] is the shared pointer to the transport, [None] when it is null.
    [overshooting] and [overshootAngle] are the two members that the move
    listener reads and writes. *)
Record Device : Type := mkDevice {
  port : option SerialPort;
  portName : string;
  modelType : string;
  firmwareVersion : Z;
  mechanicalAngle : Z;
  backlash : Z;
  reverseDirection : Z;
  stepsPerDegree : Z;
  targetAngle : F32.float;
  lastRotated : F32.float;
  rotator : RotatorConfig;
  status : RotatorStatus;
  overshooting : Z;
  overshootAngle : F32.float;
  listenerRunning : bool
}.

Definition set_port (v : option SerialPort) (d : Device) : Device :=
  mkDevice v (portName d) (modelType d) (firmwareVersion d) (mechanicalAngle d)
    (backlash d) (reverseDirection d) (stepsPerDegree d) (targetAngle d)
    (lastRotated d) (rotator d) (status d) (overshooting d) (overshootAngle d)
    (listenerRunning d).

Definition set_modelType (v : string) (d : Device) : Device :=
  mkDevice (port d) (portName d) v (firmwareVersion d) (mechanicalAngle d)
    (backlash d) (reverseDirection d) (stepsPerDegree d) (targetAngle d)
    (lastRotated d) (rotator d) (status d) (overshooting d) (overshootAngle d)
    (listenerRunning d).

Definition set_firmwareVersion (v : Z) (d : Device) : Device :=
  mkDevice (port d) (portName d) (modelType d) v (mechanicalAngle d)
    (backlash d) (reverseDirection d) (stepsPerDegree d) (targetAngle d)
    (lastRotated d) (rotator d) (status d) (overshooting d) (overshootAngle d)
    (listenerRunning d).

Definition set_mechanicalAngle (v : Z) (d : Device) : Device :=
  mkDevice (port d) (portName d) (modelType d) (firmwareVersion d) v
    (backlash d) (reverseDirection d) (stepsPerDegree d) (targetAngle d)
    (lastRotated d) (rotator d) (status d) (overshooting d) (overshootAngle d)
    (listenerRunning d).

Definition set_backlash (v : Z) (d : Device) : Device :=
  mkDevice (port d) (portName d) (modelType d) (firmwareVersion d)
    (mechanicalAngle d) v (reverseDirection d) (stepsPerDegree d) (targetAngle d)
    (lastRotated d) (rotator d) (status d) (overshooting d) (overshootAngle d)
    (listenerRunning d).

Definition set_reverseDirection (v : Z) (d : Device) : Device :=
  mkDevice (port d) (portName d) (modelType d) (firmwareVersion d)
    (mechanicalAngle d) (backlash d) v (stepsPerDegree d) (targetAngle d)
    (lastRotated d) (rotator d) (status d) (overshooting d) (overshootAngle d)
    (listenerRunning d).

Definition set_stepsPerDegree (v : Z) (d : Device) : Device :=
  mkDevice (port d) (portName d) (modelType d) (firmwareVersion d)
    (mechanicalAngle d) (backlash d) (reverseDirection d) v (targetAngle d)
    (lastRotated d) (rotator d) (status d) (overshooting d) (overshootAngle d)
    (listenerRunning d).

Definition set_targetAngle (v : F32.float) (d : Device) : Device :=
  mkDevice (port d) (portName d) (modelType d) (firmwareVersion d)
    (mechanicalAngle d) (backlash d) (reverseDirection d) (stepsPerDegree d) v
    (lastRotated d) (rotator d) (status d) (overshooting d) (overshootAngle d)
    (listenerRunning d).

Definition set_lastRotated (v : F32.float) (d : Device) : Device :=
  mkDevice (port d) (portName d) (modelType d) (firmwareVersion d)
    (mechanicalAngle d) (backlash d) (reverseDirection d) (stepsPerDegree d)
    (targetAngle d) v (rotator d) (status d) (overshooting d) (overshootAngle d)
    (listenerRunning d).

Definition set_rotator (v : RotatorConfig) (d : Device) : Device :=
  mkDevice (port d) (portName d) (modelType d) (firmwareVersion d)
    (mechanicalAngle d) (backlash d) (reverseDirection d) (stepsPerDegree d)
    (targetAngle d) (lastRotated d) v (status d) (overshooting d)
    (overshootAngle d) (listenerRunning d).

Definition set_status (v : RotatorStatus) (d : Device) : Device :=
  mkDevice (port d) (portName d) (modelType d) (firmwareVersion d)
    (mechanicalAngle d) (backlash d) (reverseDirection d) (stepsPerDegree d)
    (targetAngle d) (lastRotated d) (rotator d) v (overshooting d)
    (overshootAngle d) (listenerRunning d).

Definition set_overshooting (v : Z) (d : Device) : Device :=
  mkDevice (port d) (portName d) (modelType d) (firmwareVersion d)
    (mechanicalAngle d) (backlash d) (reverseDirection d) (stepsPerDegree d)
    (targetAngle d) (lastRotated d) (rotator d) (status d) v (overshootAngle d)
    (listenerRunning d).

Definition set_listenerRunning (v : bool) (d : Device) : Device :=
  mkDevice (port d) (portName d) (modelType d) (firmwareVersion d)
    (mechanicalAngle d) (backlash d) (reverseDirection d) (stepsPerDegree d)
    (targetAngle d) (lastRotated d) (rotator d) (status d) (overshooting d)
    (overshootAngle d) v.

Definition set_position (v : F32.float) (d : Device) : Device :=
  set_status (mkRotatorStatus v (moving (status d))
                (stepsPerRevolution (status d)) (stepSize (status d))) d.

Definition set_moving (v : Z) (d : Device) : Device :=
  set_status (mkRotatorStatus (position (status d)) v
                (stepsPerRevolution (status d)) (stepSize (status d))) d.

Definition set_stepsPerRevolution (v : Z) (d : Device) : Device :=
  set_status (mkRotatorStatus (position (status d)) (moving (status d)) v
                (stepSize (status d))) d.

Definition set_stepSize (v : F32.float) (d : Device) : Device :=
  set_status (mkRotatorStatus (position (status d)) (moving (status d))
                (stepsPerRevolution (status d)) v) d.

(** A freshly constructed [Device] (the member initialisers of the struct). *)
Definition new_Device (p : option SerialPort) (name : string) : Device :=
  mkDevice p name EmptyString 0 0 0 0 0 F32.zero F32.zero
    (mkRotatorConfig 0 50) (mkRotatorStatus F32.zero 0 0 F32.zero)
    0 F32.zero false.

(** What the device has written so far; nothing when it has no transport. *)
Definition sent (d : Device) : list string :=
  match port d with
  | Some p => tx p
  | None => []
  end.

(** ** Protocol engine ([WandererRotatorProtocol.cpp]) *)

(** A computation on one device that may stop early: the monad in which the
    chains of "write, read, parse, else return false" are written. *)
Definition io (A : Type) : Type := Device -> option A * Device.

Definition io_ret {A : Type} (a : A) : io A := fun d => (Some a, d).

Definition io_bind {A B : Type} (c : io A) (k : A -> io B) : io B :=
  fun d =>
    match c d with
    | (Some a, d') => k a d'
    | (None, d') => (None, d')
    end.

Notation "'let*' x := c 'in' k" := (io_bind c (fun x => k))
  (at level 10, x name, c at level 100, k at level 200, only parsing).

(** [device->field = v] *)
Definition io_set (f : Device -> Device) : io unit := fun d => (Some tt, f d).

(** The result of a [sscanf] conversion; a failed one ends the computation. *)
Definition io_scan {A : Type} (r : option A) : io A := fun d => (r, d).

(** [device->port->Write(data, len)], ending the computation when it fails. *)
Definition port_Write (data : string) : io unit :=
  fun d =>
    match port d with
    | Some p =>
        let '(ok, p') := Write p data in
        (if ok then Some tt else None, set_port (Some p') d)
    | None => (None, d)
    end.

(** [device->port->Read(response, 32, 'A', timeout)], ending the computation
    when no byte was read. *)
Definition port_Read (maxlen : nat) (stop_char : ascii) : io string :=
  fun d =>
    match port d with
    | Some p =>
        let '(buf, p') := Read p maxlen stop_char in
        (match buf with EmptyString => None | _ => Some (c_str buf) end,
         set_port (Some p') d)
    | None => (None, d)
    end.

Definition handshake_probe : string := "1500001" ++ nl.

Definition SendCommand (command : string) (d : Device) : bool * Device :=
  match port d with
  | None => (false, d)
  | Some p =>
      if negb (IsOpen p) then (false, d)
      else
        let '(ok, p') := Write p command in
        (ok, set_port (Some p') d)
  end.

Definition BacklashToCommand (backlash : F32.float) : Z :=
  wrap32 (F32.to_int (F32.mul backlash F32.f10) + 1600000).

Definition ReverseDirectionToCommand (reverse : Z) : string :=
  if reverse =? 0 then "1700000" ++ nl else "1700001" ++ nl.

(** The expression [1000000 + (int)(angle * device->stepsPerDegree)] of
    [WRRotatorMove] and of the listener's return move. *)
Definition move_command_value (angle : F32.float) (stepsPerDegree : Z) : Z :=
  wrap32 (1000000 + F32.to_int (F32.mul angle (F32.of_int stepsPerDegree))).

Definition StartMoveListener (d : Device) : Device :=
  set_listenerRunning true (set_listenerRunning false d).

Definition StopMoveListener (d : Device) : Device :=
  set_listenerRunning false d.

Section Protocol.

(** [sscanf(response, "%fA", &x) == 1] of the C library: the number it
    stores, if the conversion succeeds. *)
Variable scan_float : string -> option F32.float.

(** The part of [QueryStatus] after the port checks. *)
Definition QueryStatus_body : io unit :=
  let* _ := port_Write handshake_probe in
  (* Read handshake tag and model *)
  let* response := port_Read 32 "A" in
  let* model := io_scan (scan_model response) in
  let* _ := io_set (set_modelType model) in
  (* Read firmware *)
  let* response := port_Read 32 "A" in
  let* v := io_scan (scan_int response) in
  let* _ := io_set (set_firmwareVersion v) in
  (* Read mechanical position *)
  let* response := port_Read 32 "A" in
  let* v := io_scan (scan_int response) in
  let* _ := io_set (set_mechanicalAngle v) in
  (* Read backlash *)
  let* response := port_Read 32 "A" in
  let* backlash := io_scan (scan_float response) in
  let* _ := io_set (set_backlash (F32.to_int (F32.mul backlash F32.f10))) in
  (* Read reverse state *)
  let* response := port_Read 32 "A" in
  let* v := io_scan (scan_int response) in
  let* _ := io_set (set_reverseDirection v) in
  (* Set steps per degree based on model type *)
  let* _ := io_set (fun d =>
    if contains "Mini" (modelType d) then set_stepsPerDegree 1142 d
    else if contains "Lite" (modelType d) then
      if contains "V2" (modelType d) then set_stepsPerDegree 1199 d
      else set_stepsPerDegree 1155 d
    else d) in
  let* _ := io_set (fun d => set_stepsPerRevolution (wrap32 (stepsPerDegree d * 360)) d) in
  let* _ := io_set (fun d => set_stepSize (F32.div F32.one (F32.of_int (stepsPerDegree d))) d) in
  (* Set initial position from mechanical angle *)
  io_set (fun d => set_position (F32.div (F32.of_int (mechanicalAngle d)) F32.f1000) d).

Definition QueryStatus (d : Device) : bool * Device :=
  match port d with
  | None => (false, d)
  | Some p =>
      if negb (IsOpen p) then (false, d)
      else
        match QueryStatus_body d with
        | (Some _, d') => (true, d')
        | (None, d') => (false, d')
        end
  end.

(** The overshoot branch of the listener, once both frames are parsed. *)
Definition listener_phase (d : Device) : Device * bool :=
  if overshooting d =? 1 then
    let d := set_overshooting 2 d in
    (* Move back by the overshoot amount to land on the actual target *)
    let returnAngle :=
      if F32.ltb F32.zero (targetAngle d) then F32.opp (overshootAngle d)
      else overshootAngle d in
    let command_value := move_command_value returnAngle (stepsPerDegree d) in
    let cmd := snprintf 16 (string_of_int command_value) in
    let '(ok, d) := SendCommand cmd d in
    if ok then
      let d := set_moving 1 d in
      let d := set_listenerRunning false d in
      (StartMoveListener d, true)
    else
      (set_listenerRunning false (set_moving 0 (set_overshooting 0 d)), false)
  else if overshooting d =? 2 then
    (set_listenerRunning false (set_moving 0 (set_overshooting 0 d)), false)
  else
    (set_listenerRunning false (set_moving 0 d), false).

(** One run of the background listener.  The flag tells whether it started
    a further listener for the return half of an overshoot. *)
Definition MoveListenerThreadFunc (d : Device) : Device * bool :=
  match port d with
  | None => (d, false)
  | Some p =>
      if negb (IsOpen p) then (set_listenerRunning false d, false)
      else
        let frames :=
          (* Read the actual angle moved *)
          let* buffer := port_Read 32 "A" in
          let* rotated := io_scan (scan_float buffer) in
          let* _ := io_set (set_lastRotated rotated) in
          (* Read the new position *)
          let* buffer := port_Read 32 "A" in
          let* v := io_scan (scan_int buffer) in
          let* _ := io_set (set_mechanicalAngle v) in
          io_set (fun d =>
            set_position (F32.div (F32.of_int (mechanicalAngle d)) F32.f1000) d) in
        match frames d with
        | (Some _, d') => listener_phase d'
        | (None, d') => (set_listenerRunning false d', false)
        end
  end.

End Protocol.

(** ** Public API ([WandererRotatorSDK.h], [WandererRotatorSDK.cpp]) *)

Inductive WR_ERROR_TYPE : Type :=
  | WR_SUCCESS
  | WR_ERROR_INVALID_ID
  | WR_ERROR_INVALID_PARAMETER
  | WR_ERROR_INVALID_STATE
  | WR_ERROR_COMMUNICATION
  | WR_ERROR_NULL_POINTER.

Definition MASK_ROTATOR_REVERSE_DIRECTION : Z := 1.
Definition MASK_ROTATOR_BACKLASH : Z := 2.

Module WR_VERSION.
Record t : Type := mk {
  firmware : Z;
  model : string
}.
End WR_VERSION.

Module WR_ROTATOR_CONFIG.
Record t : Type := mk {
  mask : Z;
  reverseDirection : Z;
  backlash : F32.float;
  overshoot : Z;
  overshootAngle : F32.float;
  overshotDirection : Z
}.
End WR_ROTATOR_CONFIG.

Module WR_ROTATOR_STATUS.
Record t : Type := mk {
  position : F32.float;
  moving : Z;
  stepsPerRevolution : Z;
  stepSize : F32.float
}.
End WR_ROTATOR_STATUS.

(** [mask & BIT] as a condition *)
Definition has_bit (mask bit : Z) : bool := negb (Z.land mask bit =? 0).

(** A device whose transport is present and open. *)
Definition port_open (d : Device) : bool :=
  match port d with
  | Some p => IsOpen p
  | None => false
  end.

(** The entry points take the registry [g_devices] and return it as they
    leave it.  An output pointer is [None] when null, else the pointed-to
    struct as it was before the call. *)

Definition WRRotatorClose (g : gmap Z Device) (id : Z)
    : WR_ERROR_TYPE * gmap Z Device :=
  match g !! id with
  | None => (WR_ERROR_INVALID_ID, g)
  | Some device =>
      (* Stop any running listener thread first *)
      let device := StopMoveListener device in
      let device :=
        match port device with
        | Some p => set_port (Some (Close p)) device
        | None => device
        end in
      (WR_SUCCESS, <[id := device]> g)
  end.

Definition WRRotatorGetConfig (g : gmap Z Device) (id : Z)
    (config : option WR_ROTATOR_CONFIG.t)
    : WR_ERROR_TYPE * option WR_ROTATOR_CONFIG.t * gmap Z Device :=
  match config with
  | None => (WR_ERROR_NULL_POINTER, config, g)
  | Some c =>
      match g !! id with
      | None => (WR_ERROR_INVALID_ID, config, g)
      | Some device =>
          let c :=
            WR_ROTATOR_CONFIG.mk (WR_ROTATOR_CONFIG.mask c)
              (rotator_reverseDirection (rotator device))
              (F32.div (F32.of_int (backlash device)) F32.f10)
              (WR_ROTATOR_CONFIG.overshoot c)
              (WR_ROTATOR_CONFIG.overshootAngle c)
              (WR_ROTATOR_CONFIG.overshotDirection c) in
          (WR_SUCCESS, Some c, g)
      end
  end.

Definition WRRotatorSetConfig (g : gmap Z Device) (id : Z)
    (config : option WR_ROTATOR_CONFIG.t) : WR_ERROR_TYPE * gmap Z Device :=
  match config with
  | None => (WR_ERROR_NULL_POINTER, g)
  | Some c =>
      match g !! id with
      | None => (WR_ERROR_INVALID_ID, g)
      | Some device =>
          let reverse_part : WR_ERROR_TYPE * Device :=
            if has_bit (WR_ROTATOR_CONFIG.mask c) MASK_ROTATOR_REVERSE_DIRECTION then
              (* Send reverse direction command: 1700000 or 1700001 *)
              let cmd := ReverseDirectionToCommand (WR_ROTATOR_CONFIG.reverseDirection c) in
              let '(ok, device) := SendCommand cmd device in
              if ok then
                let device :=
                  set_rotator
                    (mkRotatorConfig (WR_ROTATOR_CONFIG.reverseDirection c)
                       (rotator_stepRate (rotator device))) device in
                (WR_SUCCESS, set_reverseDirection (WR_ROTATOR_CONFIG.reverseDirection c) device)
              else (WR_ERROR_COMMUNICATION, device)
            else (WR_SUCCESS, device) in
          match reverse_part with
          | (WR_SUCCESS, device) =>
              if has_bit (WR_ROTATOR_CONFIG.mask c) MASK_ROTATOR_BACKLASH then
                if F32.ltb (WR_ROTATOR_CONFIG.backlash c) F32.zero then
                  (WR_ERROR_INVALID_PARAMETER, <[id := device]> g)
                else
                  (* Send backlash command: 10*x + 1600000 *)
                  let command_value := BacklashToCommand (WR_ROTATOR_CONFIG.backlash c) in
                  let cmd := snprintf 32 (string_of_int command_value ++ nl) in
                  let '(ok, device) := SendCommand cmd device in
                  if ok then
                    let device :=
                      set_backlash
                        (F32.to_int (F32.mul (WR_ROTATOR_CONFIG.backlash c) F32.f10))
                        device in
                    (WR_SUCCESS, <[id := device]> g)
                  else (WR_ERROR_COMMUNICATION, <[id := device]> g)
              else (WR_SUCCESS, <[id := device]> g)
          | (e, device) => (e, <[id := device]> g)
          end
      end
  end.

Definition WRRotatorGetStatus (g : gmap Z Device) (id : Z)
    (out : option WR_ROTATOR_STATUS.t)
    : WR_ERROR_TYPE * option WR_ROTATOR_STATUS.t * gmap Z Device :=
  match out with
  | None => (WR_ERROR_NULL_POINTER, out, g)
  | Some _ =>
      match g !! id with
      | None => (WR_ERROR_INVALID_ID, out, g)
      | Some device =>
          let s :=
            WR_ROTATOR_STATUS.mk (position (status device))
              (moving (status device))
              (stepsPerRevolution (status device))
              (stepSize (status device)) in
          (WR_SUCCESS, Some s, g)
      end
  end.

Definition WRRotatorGetVersion (g : gmap Z Device) (id : Z)
    (version : option WR_VERSION.t)
    : WR_ERROR_TYPE * option WR_VERSION.t * gmap Z Device :=
  match version with
  | None => (WR_ERROR_NULL_POINTER, version, g)
  | Some _ =>
      match g !! id with
      | None => (WR_ERROR_INVALID_ID, version, g)
      | Some device =>
          let v :=
            WR_VERSION.mk (to_unsigned (firmwareVersion device))
              (take_chars 7 (c_str (modelType device))) in
          (WR_SUCCESS, Some v, g)
      end
  end.

Definition WRRotatorSyncPosition (g : gmap Z Device) (id : Z) (angle : F32.float)
    : WR_ERROR_TYPE * gmap Z Device :=
  match g !! id with
  | None => (WR_ERROR_INVALID_ID, g)
  | Some device =>
      if negb (port_open device) then (WR_ERROR_COMMUNICATION, g)
      else if negb (F32.eqb angle F32.zero) then (WR_ERROR_INVALID_PARAMETER, g)
      else if F32.ltb angle F32.zero || F32.leb F32.f360 angle
      then (WR_ERROR_INVALID_PARAMETER, g)
      else
        let '(ok, device) := SendCommand "1500002" device in
        if ok then (WR_SUCCESS, <[id := set_position angle device]> g)
        else (WR_ERROR_COMMUNICATION, <[id := device]> g)
  end.

Definition WRRotatorMove (g : gmap Z Device) (id : Z) (angle : F32.float)
    : WR_ERROR_TYPE * gmap Z Device :=
  match g !! id with
  | None => (WR_ERROR_INVALID_ID, g)
  | Some device =>
      if negb (port_open device) then (WR_ERROR_COMMUNICATION, g)
      else
        let command_value := move_command_value angle (stepsPerDegree device) in
        let cmd := snprintf 8 (string_of_int command_value) in
        (* Store last target *)
        let device := set_targetAngle angle device in
        let '(ok, device) := SendCommand cmd device in
        if ok then
          (* Mark device as moving - status will be updated when response arrives *)
          let device := set_moving 1 device in
          (* Listener will get the rotation feedback *)
          (WR_SUCCESS, <[id := StartMoveListener device]> g)
        else (WR_ERROR_COMMUNICATION, <[id := device]> g)
  end.

Definition WRRotatorStopMove (g : gmap Z Device) (id : Z)
    : WR_ERROR_TYPE * gmap Z Device :=
  match g !! id with
  | None => (WR_ERROR_INVALID_ID, g)
  | Some device =>
      if negb (port_open device) then (WR_ERROR_COMMUNICATION, g)
      else
        (* Send stop command *)
        let '(ok, device) := SendCommand "stop" device in
        if ok then (WR_SUCCESS, <[id := set_moving 0 device]> g)
        else (WR_ERROR_COMMUNICATION, <[id := device]> g)
  end.

(** The normalisation of [WRRotatorMoveTo]:
    [delta = angle - currentAngle; delta = fmodf(delta + 180, 360);
     delta = (delta < 0) ? delta + 180 : delta - 180]. *)
Definition shortest_delta (angle currentAngle : F32.float) : F32.float :=
  let delta := F32.sub angle currentAngle in
  (* Normalize delta to shortest path *)
  let delta := F32.fmodf (F32.add delta F32.f180) F32.f360 in
  if F32.ltb delta F32.zero then F32.add delta F32.f180 else F32.sub delta F32.f180.

Section API.

Variable scan_float : string -> option F32.float.

Definition WRRotatorMoveTo (g : gmap Z Device) (id : Z) (angle : F32.float)
    : WR_ERROR_TYPE * gmap Z Device :=
  match g !! id with
  | None => (WR_ERROR_INVALID_ID, g)
  | Some device =>
      if negb (port_open device) then (WR_ERROR_COMMUNICATION, g)
      else if F32.ltb angle F32.zero || F32.leb F32.f360 angle
      then (WR_ERROR_INVALID_PARAMETER, g)
      else
        (* Fetch current position *)
        let '(ok, device) := QueryStatus scan_float device in
        let g := <[id := device]> g in
        if negb ok then (WR_ERROR_COMMUNICATION, g)
        else
          let currentAngle := F32.div (F32.of_int (mechanicalAngle device)) F32.f1000 in
          let delta := shortest_delta angle currentAngle in
          (* Skip 0 delta *)
          if F32.eqb delta F32.zero then (WR_SUCCESS, g)
          else WRRotatorMove g id delta
  end.

Definition WRRotatorFindHome (g : gmap Z Device) (id : Z)
    : WR_ERROR_TYPE * gmap Z Device :=
  WRRotatorMoveTo g id F32.zero.

End API.

(** ** Handshake and opening ([QueryHandshake], [SerialPort::Open], [WRRotatorOpen]) *)

(** The loop [while (retries++ < 5)] of [QueryHandshake], with [attempts]
    iterations left: write the probe, read one frame, look for the tag. *)
Fixpoint handshake_loop (attempts : nat) (p : SerialPort) : bool * SerialPort :=
  match attempts with
  | O => (false, p)
  | S attempts' =>
      let '(ok, p) := Write p handshake_probe in
      if negb ok then (false, p)
      else
        let '(response, p) := Read p 32 "A" in
        match response with
        | EmptyString => handshake_loop attempts' p
        | _ =>
            if contains "WandererRotator" (c_str response) then (true, p)
            else handshake_loop attempts' p
        end
  end.

Definition QueryHandshake (d : Device) : bool * Device :=
  match port d with
  | None => (false, d)
  | Some p =>
      if negb (IsOpen p) then (false, d)
      else
        let '(ok, p') := handshake_loop 5 p in
        (ok, set_port (Some p') d)
  end.

Section Opening.

(** The operating system: the descriptor that [open] returns for a path
    (negative when it fails), and whether [tcgetattr] and [tcsetattr]
    succeed on a descriptor. *)
Variable os_open : string -> Z.

Variable os_tcgetattr : Z -> bool.

Variable os_tcsetattr : Z -> bool.

(** What the line behind a path holds for a transport object made for it. *)
Variable line_at : string -> list line_event.

Variable writes_at : string -> list bool.

Variable scan_float : string -> option F32.float.

(** [SerialPort::Open] *)
Definition Open (p : SerialPort) (portName : string) : bool * SerialPort :=
  let fd' := os_open portName in
  if fd' <? 0 then (false, mkPort fd' (line p) (wr_results p) (tx p))
  else if negb (os_tcgetattr fd') then (false, mkPort (-1) (line p) (wr_results p) (tx p))
  else if negb (os_tcsetattr fd') then (false, mkPort (-1) (line p) (wr_results p) (tx p))
  else (true, mkPort fd' (line p) (wr_results p) (tx p)).

Definition WRRotatorOpen (g : gmap Z Device) (id : Z) : WR_ERROR_TYPE * gmap Z Device :=
  match g !! id with
  | None => (WR_ERROR_INVALID_ID, g)
  | Some device =>
      (* Create a new SerialPort instance and open it *)
      let p :=
        match port device with
        | Some p => p
        | None => mkPort (-1) (line_at (portName device)) (writes_at (portName device)) []
        end in
      let '(ok, p) := Open p (portName device) in
      let device := set_port (Some p) device in
      if negb ok then (WR_ERROR_COMMUNICATION, <[id := device]> g)
      else
        (* Perform handshake *)
        let '(ok, device) := QueryHandshake device in
        if negb ok then
          (WR_ERROR_COMMUNICATION,
           <[id := set_port (Close <$> port device) device]> g)
        else
          let '(ok, device) := QueryStatus scan_float device in
          if negb ok then
            (WR_ERROR_COMMUNICATION,
             <[id := set_port (Close <$> port device) device]> g)
          else (WR_SUCCESS, <[id := device]> g)
  end.

End Opening.

(** ** Scanning ([WRRotatorScan]) *)

Definition WR_MAX_NUM : Z := 32.

(** What [libudev] reports for a tty device: the vendor and product
    attributes of its USB parent, when it has one, and its device node.
    Each is absent when the library returns a null pointer. *)
Record usb_device : Type := mkUsb {
  idVendor : option string;
  idProduct : option string
}.

Record udev_device : Type := mkUdev {
  usb_parent : option usb_device;
  devnode : option string
}.

(** The outcome of the enumeration: no context, no enumerator, or the
    entries of the tty subsystem in order, [None] where
    [udev_device_new_from_syspath] gives no device. *)
Inductive udev_scan : Type :=
  | udev_new_failed
  | udev_enumerate_new_failed
  | udev_entries (l : list (option udev_device)).

Section Scanning.

Variable os_open : string -> Z.

Variable os_tcgetattr : Z -> bool.

Variable os_tcsetattr : Z -> bool.

Variable line_at : string -> list line_event.

Variable writes_at : string -> list bool.

(** One pass of the loop body on [count], [g_devices] and the caller's
    array [ids]; every [continue] leaves the three as they are. *)
Definition scan_entry (entry : option udev_device) (st : Z * gmap Z Device * list Z)
    : Z * gmap Z Device * list Z :=
  let '(count, g, ids) := st in
  match entry with
  | None => st
  | Some device =>
      (* Get the parent USB device *)
      match usb_parent device with
      | None => st
      | Some parent =>
          (* Check VID and PID for CH340 (1a86:7523) *)
          match idVendor parent, idProduct parent with
          | Some vid, Some pid =>
              if negb (String.eqb vid "1a86") || negb (String.eqb pid "7523") then st
              else
                (* Get the device node (e.g., /dev/ttyUSB0) *)
                match devnode device with
                | None => st
                | Some deviceNode =>
                    (* Try to open the port *)
                    let p := mkPort (-1) (line_at deviceNode) (writes_at deviceNode) [] in
                    let '(ok, p) := Open os_open os_tcgetattr os_tcsetattr p deviceNode in
                    if ok then
                      let tempDevice := new_Device (Some p) deviceNode in
                      let '(found, tempDevice) := QueryHandshake tempDevice in
                      (* close port, will be reopened in WRRotatorOpen *)
                      let tempDevice := set_port (Close <$> port tempDevice) tempDevice in
                      if found then
                        let id := count in
                        (wrap32 (count + 1), <[id := tempDevice]> g,
                         <[Z.to_nat count := id]> ids)
                      else st
                    else st
                end
          | _, _ => st
          end
      end
  end.

(** [udev_list_entry_foreach], left by [break] once [count] reaches
    [WR_MAX_NUM]. *)
Fixpoint scan_loop (entries : list (option udev_device))
    (st : Z * gmap Z Device * list Z) : Z * gmap Z Device * list Z :=
  match entries with
  | [] => st
  | entry :: rest =>
      if WR_MAX_NUM <=? fst (fst st) then st
      else scan_loop rest (scan_entry entry st)
  end.

(** [number] and [ids] are [None] when null; [ids] is the caller's array.
    A store past its end, which C leaves undefined, is dropped here; an
    array of [WR_MAX_NUM] entries is never overrun. *)
Definition WRRotatorScan (udev : udev_scan) (g : gmap Z Device)
    (number : option Z) (ids : option (list Z))
    : WR_ERROR_TYPE * option Z * option (list Z) * gmap Z Device :=
  match number, ids with
  | Some _, Some a =>
      match udev with
      | udev_new_failed => (WR_ERROR_COMMUNICATION, number, ids, g)
      | udev_enumerate_new_failed => (WR_ERROR_COMMUNICATION, number, ids, g)
      | udev_entries l =>
          let '(count, g', a') := scan_loop l (0, g, a) in
          (WR_SUCCESS, Some count, Some a', g')
      end
  | _, _ => (WR_ERROR_NULL_POINTER, number, ids, g)
  end.

End Scanning.

(** ** Auxiliary definitions for the statements *)

(** The integer part of a rational: its fraction is discarded, toward zero. *)
Definition Qtrunc (q : Q) : Z :=
  if Qnum q <? 0 then Qceiling q else Qfloor q.

(** The nearest integer to a rational, halves upward. *)
Definition Qround_nearest (q : Q) : Z := Qfloor (q + (1 # 2))%Q.

(** The model-to-steps table of [QueryStatus], as a function of the model
    name and of the value [stepsPerDegree] had before. *)
Definition steps_for (model : string) (previous : Z) : Z :=
  if contains "Mini" model then 1142
  else if contains "Lite" model then
    if contains "V2" model then 1199 else 1155
  else previous.

(** The digits after the decimal point: numerator and power of ten. *)
Fixpoint scan_fraction (s : string) (num den : Z) : Z * Z :=
  match s with
  | String c s' =>
      match digit_of c with
      | Some d => scan_fraction s' (10 * num + d) (10 * den)
      | None => (num, den)
      end
  | EmptyString => (num, den)
  end.

(** An unsigned decimal, as a numerator and a power of ten. *)
Fixpoint scan_decimal (s : string) (acc : option Z) : option (Z * Z) :=
  match s with
  | String c s' =>
      match digit_of c with
      | Some d => scan_decimal s' (Some (10 * default 0 acc + d))
      | None =>
          match acc with
          | None => None
          | Some n =>
              if Ascii.eqb c "."%char then Some (scan_fraction s' n 1)
              else Some (n, 1)
          end
      end
  | EmptyString => (fun n => (n, 1)) <$> acc
  end.

(** A reader of plain decimals such as [-2.5], used as the C library's [%f]
    conversion in the concrete runs.  Numerator and power of ten are both
    represented exactly on short inputs, so their quotient is rounded once,
    as [strtof] rounds. *)
Definition scan_float_dec (response : string) : option F32.float :=
  let quotient (nd : Z * Z) := F32.div (F32.dyadic (fst nd) 0) (F32.dyadic (snd nd) 0) in
  match skip_space response with
  | String "-"%char s' => F32.opp ∘ quotient <$> scan_decimal s' None
  | s' => quotient <$> scan_decimal s' None
  end.

(** The bytes of the given frames, arriving back to back. *)
Definition frames (l : list string) : list line_event :=
  flat_map (fun s => map Rx (list_ascii_of_string s)) l.

(** An open transport with the given future. *)
Definition open_port (script : list line_event) (writes : list bool) : SerialPort :=
  mkPort 3 script writes [].

(** The five frames with which a rotator answers the status probe. *)
Definition status_reply (model firmware angle backlash reverse : string) : list line_event :=
  frames ["WandererRotator" ++ model ++ "A"; firmware ++ "A"; angle ++ "A";
          backlash ++ "A"; reverse ++ "A"].

(** Devices for the concrete runs: just constructed, on an open transport
    on which a rotator of the given model answers one status probe. *)
Definition rotator_replying (model angle : string) : Device :=
  new_Device (Some (open_port (status_reply model "20240101" angle "0.5" "0") []))
    "/dev/ttyUSB0".

(** A rotator that has answered one status query and is at rest. *)
Definition opened_rotator (model angle : string) (writes : list bool) : Device :=
  let d := snd (QueryStatus scan_float_dec (rotator_replying model angle)) in
  set_port (Some (open_port [] writes)) d.

(** A configuration request for a backlash of -1 degree and reversed direction. *)
Definition negative_backlash_request (mask : Z) : WR_ROTATOR_CONFIG.t :=
  WR_ROTATOR_CONFIG.mk mask 1 (F32.of_int (-1)) 0 F32.zero 0.

(** ** Auxiliary definitions for the rounding of binary32 numbers *)

(** The state of the right shift: the mantissa, and whether anything but
    zeros was shifted out. *)
Definition shr_exact (r : shr_record) : bool := negb (shr_r r || shr_s r).

(** [b] is [a] shifted right by [k] bits: the mantissa is divided, and the
    shift is still exact if it was and only zeros went out. *)
Definition shr_rel (k : Z) (a b : shr_record) : Prop :=
  0 <= shr_m a ->
  shr_m b = shr_m a / 2 ^ k /\
  (shr_exact a = true -> shr_m a mod 2 ^ k = 0 -> shr_exact b = true).

(** The outcome of rounding the positive number [m * 2^e]: its magnitude in
    units of [2^-149] and its sign. *)
Definition rounds_to (r : spec_float) (sx : bool) (R : Z) : Prop :=
  (R = 0 /\ r = S754_zero sx) \/
  (exists m' e', r = S754_finite sx m' e' /\ bounded F32.prec F32.emax m' e' = true /\
                 -149 <= e' /\ R = Zpos m' * 2 ^ (e' + 149)).

(** The spacing of the binary32 numbers around the magnitude [V], both in
    units of [2^-149]. *)
Definition spacing (V : Z) : Z := 2 ^ Z.max (Zdigits2 V - 24) 0.

(** [R] is [V] rounded to a neighbouring binary32 number. *)
Definition rounding_of (V R : Z) : Prop :=
  R mod spacing V = 0 /\ V - spacing V < R < V + spacing V /\
  (V mod spacing V = 0 -> R = V).

(** A magnitude is representable when it is a multiple of the spacing at
    its own size. *)
Definition representable (V : Z) : Prop := (spacing V | V).

(** [s] is the value [v] rounded, both signed and in units of [2^-149]. *)
Definition rounded (v s : Z) : Prop :=
  (v = 0 /\ s = 0) \/ (0 < v /\ rounding_of v s) \/ (v < 0 /\ rounding_of (- v) (- s)).

(** A Mini in the outbound phase of an overshoot of 2.5 degrees past a
    positive target, as its two completion frames arrive. *)
Definition overshooting_rotator : Device :=
  let d := opened_rotator "Mini" "0" [] in
  mkDevice (Some (open_port (frames ["12.5A"; "12500A"]) [])) (portName d) (modelType d)
    (firmwareVersion d) (mechanicalAngle d) (backlash d) (reverseDirection d)
    (stepsPerDegree d) (F32.of_int 10) (lastRotated d) (rotator d)
    (mkRotatorStatus (position (status d)) 1 (stepsPerRevolution (status d))
       (stepSize (status d)))
    1 (F32.dyadic 5 1) true.

(** The registry [g'] is [g], or [g] with the device of the known handle
    [id] replaced. *)
Definition touches_only (id : Z) (g g' : gmap Z Device) : Prop :=
  g' = g \/ exists d', is_Some (g !! id) /\ g' = <[id := d']> g.

(** What a scan leaves in the registry for the device node [node]: a
    device in its initial state apart from its transport, which is closed
    and has carried between one and five probes. *)
Definition freshly_scanned (node : string) (d : Device) : Prop :=
  port_open d = false /\
  set_port None d = new_Device None node /\
  exists k, (1 <= k <= 5)%nat /\ sent d = repeat handshake_probe k.

(** The entry [dev] is a CH340 adapter with the device node [node]. *)
Definition is_ch340 (dev : udev_device) (node : string) : Prop :=
  exists usb, usb_parent dev = Some usb /\
    idVendor usb = Some "1a86" /\ idProduct usb = Some "7523" /\
    devnode dev = Some node.

(** The entry point left the registry as it was, or replaced the device of
    the known handle [id] by one with the same port name, overshoot phase
    and overshoot angle. *)
Definition keeps_overshoot (id : Z) (g g' : gmap Z Device) : Prop :=
  g' = g \/
  exists d0 d1, g !! id = Some d0 /\ g' = <[id := d1]> g /\
    portName d1 = portName d0 /\ overshooting d1 = overshooting d0 /\
    overshootAngle d1 = overshootAngle d0.

(** * Properties *)

(** ** Sanity checks of the models on concrete values *)

Example of_int_180 : F32.f180 = S754_finite false 11796480 (-16).
Proof. reflexivity. Qed.

Example fmodf_540_360 : F32.fmodf (F32.of_int 540) F32.f360 = F32.f180.
Proof. reflexivity. Qed.

Example fmodf_neg : F32.fmodf (F32.of_int (-400)) F32.f360 = F32.of_int (-40).
Proof. reflexivity. Qed.

Example to_int_trunc : F32.to_int (F32.dyadic (-15) 2) = -3.
Proof. reflexivity. Qed.

Example scan_model_lite_v2 : scan_model "WandererRotatorLite V2A" = Some "Lite V2".
Proof. reflexivity. Qed.

Example scan_model_empty : scan_model "WandererRotatorA" = None.
Proof. reflexivity. Qed.

Example scan_int_ex : scan_int " -1500A" = Some (-1500).
Proof. reflexivity. Qed.

Example string_of_int_ex : string_of_int (-948610) = "-948610" /\ string_of_int 0 = "0".
Proof. split; reflexivity. Qed.

Example snprintf_cut : snprintf 8 (string_of_int 12345678) = "1234567".
Proof. reflexivity. Qed.

Example scan_float_dec_ex :
  scan_float_dec "2.5A" = Some (F32.dyadic 5 1) /\
  scan_float_dec "-0.375A" = Some (F32.dyadic (-3) 3) /\
  scan_float_dec "A" = None.
Proof. repeat split; reflexivity. Qed.

(** ** The transport *)

Lemma Write_tx p data ok p' :
  Write p data = (ok, p') -> IsOpen p = true ->
  tx p' = (tx p ++ [data])%list /\ fd p' = fd p.
Proof.
  unfold Write, IsOpen. intros H Ho.
  destruct (fd p <? 0) eqn:Hfd; [lia|].
  destruct (wr_results p); inversion H; subst; simpl; auto.
Qed.

Lemma Read_tx p n c buf p' :
  Read p n c = (buf, p') -> tx p' = tx p /\ fd p' = fd p.
Proof.
  unfold Read. destruct (fd p <? 0); [intros [= <- <-]; auto|].
  destruct (read_loop _ _ _ _). intros [= <- <-]; auto.
Qed.

Lemma port_Write_inv data d d1 :
  port_Write data d = (Some tt, d1) ->
  exists p p', port d = Some p /\ Write p data = (true, p') /\ d1 = set_port (Some p') d.
Proof.
  unfold port_Write. destruct (port d) as [p|]; [|discriminate].
  destruct (Write p data) as [[] p'] eqn:Hw; [|discriminate].
  intros [= <-]. eauto.
Qed.

Lemma port_Read_inv n c d r d1 :
  port_Read n c d = (Some r, d1) ->
  exists p buf p', port d = Some p /\ Read p n c = (buf, p') /\ r = c_str buf
     /\ d1 = set_port (Some p') d.
Proof.
  unfold port_Read. destruct (port d) as [p|]; [|discriminate].
  destruct (Read p n c) as [buf p'] eqn:Hr.
  destruct buf; [discriminate|]. intros [= <- <-]. eauto 8.
Qed.

(** ** What a successful status query establishes *)

Ltac io_step H :=
  match goal with
  | |- context [port_Write ?c ?d] =>
      let d1 := fresh "d" in
      destruct (port_Write c d) as [[[]|] d1] eqn:H; [|discriminate]
  | |- context [port_Read ?n ?c ?d] =>
      let d1 := fresh "d" in let r := fresh "r" in
      destruct (port_Read n c d) as [[r|] d1] eqn:H; [|discriminate]
  end.

Lemma QueryStatus_inv sf d d' :
  QueryStatus sf d = (true, d') ->
  (exists response, scan_model (c_str response) = Some (modelType d')) /\
  stepsPerDegree d' = steps_for (modelType d') (stepsPerDegree d) /\
  stepsPerRevolution (status d') = wrap32 (stepsPerDegree d' * 360) /\
  stepSize (status d') = F32.div F32.one (F32.of_int (stepsPerDegree d')) /\
  position (status d') = F32.div (F32.of_int (mechanicalAngle d')) F32.f1000 /\
  moving (status d') = moving (status d) /\
  sent d' = (sent d ++ [handshake_probe])%list /\
  port_open d' = true.
Proof.
  unfold QueryStatus. destruct (port d) as [p|] eqn:Hp; [|discriminate].
  destruct (negb (IsOpen p)) eqn:Ho; [discriminate|].
  apply negb_false_iff in Ho.
  unfold QueryStatus_body, io_bind.
  io_step H1. io_step H2. unfold io_scan at 1.
  destruct (scan_model r) as [model|] eqn:Hm; [|discriminate].
  unfold io_set at 1. io_step H3. unfold io_scan at 1.
  destruct (scan_int r0) as [fw|] eqn:Hfw; [|discriminate].
  unfold io_set at 1. io_step H4. unfold io_scan at 1.
  destruct (scan_int r1) as [mech|] eqn:Hmech; [|discriminate].
  unfold io_set at 1. io_step H5. unfold io_scan at 1.
  destruct (sf r2) as [b|] eqn:Hb; [|discriminate].
  unfold io_set at 1. io_step H6. unfold io_scan at 1.
  destruct (scan_int r3) as [rev|] eqn:Hrev; [|discriminate].
  unfold io_set. intros [= <-].
  apply port_Write_inv in H1 as (p0 & p1 & Hp0 & Hw & ->).
  rewrite Hp in Hp0. injection Hp0 as <-.
  apply port_Read_inv in H2 as (q2 & b2 & p2 & Hq2 & Hr2 & -> & ->).
  apply port_Read_inv in H3 as (q3 & b3 & p3 & Hq3 & Hr3 & -> & ->).
  apply port_Read_inv in H4 as (q4 & b4 & p4 & Hq4 & Hr4 & -> & ->).
  apply port_Read_inv in H5 as (q5 & b5 & p5 & Hq5 & Hr5 & -> & ->).
  apply port_Read_inv in H6 as (q6 & b6 & p6 & Hq6 & Hr6 & -> & ->).
  simpl in Hq2, Hq3, Hq4, Hq5, Hq6.
  injection Hq2 as <-. injection Hq3 as <-. injection Hq4 as <-.
  injection Hq5 as <-. injection Hq6 as <-.
  apply Write_tx in Hw as [Ht1 Hf1]; [|assumption].
  apply Read_tx in Hr2 as [Ht2 Hf2]. apply Read_tx in Hr3 as [Ht3 Hf3].
  apply Read_tx in Hr4 as [Ht4 Hf4]. apply Read_tx in Hr5 as [Ht5 Hf5].
  apply Read_tx in Hr6 as [Ht6 Hf6].
  assert (Hsent : tx p6 = (tx p ++ [handshake_probe])%list) by congruence.
  assert (Hopen : IsOpen p6 = true) by (unfold IsOpen in *; congruence).
  unfold steps_for.
  destruct (contains "Mini" model) eqn:HM;
    [|destruct (contains "Lite" model) eqn:HL;
      [destruct (contains "V2" model) eqn:HV|]];
    cbn; rewrite ?HM, ?HL, ?HV; unfold sent, port_open; cbn; rewrite ?Hp;
    repeat split; eauto; rewrite ?HM, ?HL, ?HV; reflexivity.
Qed.
(** ** Model names *)

Lemma prefix_app pat s : String.prefix pat s = true -> exists b, s = pat ++ b.
Proof.
  revert s. induction pat as [|c pat IH]; intros s H.
  - exists s. reflexivity.
  - destruct s as [|c' s]; [discriminate|]. simpl in H.
    destruct (ascii_dec c c') as [->|]; [|discriminate].
    destruct (IH _ H) as [b ->]. exists b. reflexivity.
Qed.

Lemma contains_app pat s :
  contains pat s = true -> exists a b, s = a ++ pat ++ b.
Proof.
  induction s as [|c s IH]; cbn [contains]; intros H.
  - destruct pat; [|discriminate]. exists EmptyString, EmptyString. reflexivity.
  - apply orb_true_iff in H as [H|H].
    + apply prefix_app in H as [b Hb]. exists EmptyString, b. assumption.
    + destruct (IH H) as (a & b & ->). exists (String c a), b. reflexivity.
Qed.

Lemma length_append a b :
  String.length (a ++ b) = (String.length a + String.length b)%nat.
Proof. induction a as [|c a IH]; simpl; [reflexivity|]. rewrite IH. reflexivity. Qed.

Lemma scan_not_A_length w s : (String.length (scan_not_A w s) <= w)%nat.
Proof.
  revert s. induction w as [|w IH]; intros [|c s]; simpl; try lia.
  destruct (Ascii.eqb c "A"); simpl; [lia|]. specialize (IH s). lia.
Qed.

Lemma scan_model_length response model :
  scan_model response = Some model -> (String.length model <= 7)%nat.
Proof.
  unfold scan_model. destruct (scan_literal _ response) as [rest|]; [|discriminate].
  pose proof (scan_not_A_length 7 rest) as Hl.
  destruct (scan_not_A 7 rest); [discriminate|]. intros [= <-]. exact Hl.
Qed.

(** A name of at most seven characters has no room for both [Mini] and
    [Lite]: the order in which [QueryStatus] tests them does not matter. *)
Lemma Mini_excludes_Lite model :
  (String.length model <= 7)%nat ->
  contains "Mini" model = true -> contains "Lite" model = false.
Proof.
  intros Hlen HM. destruct (contains "Lite" model) eqn:HL; [exfalso|reflexivity].
  apply contains_app in HM as (a & b & Ha).
  apply contains_app in HL as (c & e & Hc).
  assert (Hla : (String.length a <= 3)%nat).
  { rewrite Ha in Hlen. rewrite !length_append in Hlen. simpl in Hlen. lia. }
  assert (Hlc : (String.length c <= 3)%nat).
  { rewrite Hc in Hlen. rewrite !length_append in Hlen. simpl in Hlen. lia. }
  rewrite Ha in Hc. clear Ha Hlen.
  destruct a as [|a0 [|a1 [|a2 [|a3 a]]]]; simpl in Hla; try lia;
  destruct c as [|c0 [|c1 [|c2 [|c3 c]]]]; simpl in Hlc; try lia;
  cbv [String.append] in Hc; congruence.
Qed.

(** ** Steps per degree after a status query (C7, C2) *)

(** C7: after a successful status query, [stepsPerDegree] is 1142 when the
    model name contains "Mini", 1199 when it contains "Lite" and "V2", 1155
    when it contains "Lite" without "V2"; in these cases
    [stepsPerRevolution] is [stepsPerDegree * 360], and [stepSize] is the
    single-precision quotient [1 / stepsPerDegree]. *)
Theorem QueryStatus_model_table sf d d' :
  QueryStatus sf d = (true, d') ->
  (contains "Mini" (modelType d') = true -> stepsPerDegree d' = 1142) /\
  (contains "Lite" (modelType d') = true -> contains "V2" (modelType d') = true ->
   stepsPerDegree d' = 1199) /\
  (contains "Lite" (modelType d') = true -> contains "V2" (modelType d') = false ->
   stepsPerDegree d' = 1155) /\
  ((contains "Mini" (modelType d') || contains "Lite" (modelType d')) = true ->
   stepsPerRevolution (status d') = stepsPerDegree d' * 360) /\
  stepSize (status d') = F32.div F32.one (F32.of_int (stepsPerDegree d')).
Proof.
  intros H. apply QueryStatus_inv in H
    as ([response Hm] & Hs & Hrev & Hsize & _).
  apply scan_model_length in Hm.
  pose proof (Mini_excludes_Lite _ Hm) as Hex.
  rewrite Hrev, Hsize, Hs. unfold steps_for.
  destruct (contains "Mini" (modelType d')) eqn:HM.
  - rewrite (Hex eq_refl). repeat split; try discriminate; reflexivity.
  - destruct (contains "Lite" (modelType d')) eqn:HL;
      [destruct (contains "V2" (modelType d')) eqn:HV|];
      repeat split; try discriminate; reflexivity.
Qed.

Lemma QueryStatus_model_table_witness :
  let d' := snd (QueryStatus scan_float_dec (rotator_replying "Lite V2" "90000")) in
  modelType d' = "Lite V2" /\ stepsPerDegree d' = 1199 /\
  stepsPerRevolution (status d') = 431640.
Proof.
  intros d'.
  assert (Hq : QueryStatus scan_float_dec (rotator_replying "Lite V2" "90000")
               = (true, d')) by (vm_compute; reflexivity).
  assert (Hm : modelType d' = "Lite V2") by (vm_compute; reflexivity).
  destruct (QueryStatus_model_table _ _ _ Hq) as (_ & H1199 & _ & Hrev & _).
  rewrite Hm in H1199, Hrev.
  split; [exact Hm|]. split.
  - apply H1199; reflexivity.
  - rewrite (Hrev eq_refl), (H1199 eq_refl eq_refl). reflexivity.
Defined.

(** C2, as the code has it: a successful status query leaves
    [stepsPerDegree] strictly positive when the model name contains "Mini"
    or "Lite"; for any other name it leaves [stepsPerDegree] at the value it
    had, so a device that had 0 still has 0. *)
Theorem QueryStatus_steps_positive_if_recognised sf d d' :
  QueryStatus sf d = (true, d') ->
  ((contains "Mini" (modelType d') || contains "Lite" (modelType d')) = true ->
   0 < stepsPerDegree d') /\
  ((contains "Mini" (modelType d') || contains "Lite" (modelType d')) = false ->
   stepsPerDegree d' = stepsPerDegree d).
Proof.
  intros H. apply QueryStatus_inv in H as (_ & Hs & _).
  rewrite Hs. unfold steps_for.
  destruct (contains "Mini" (modelType d'));
    [|destruct (contains "Lite" (modelType d'));
      [destruct (contains "V2" (modelType d'))|]];
    split; intros; try discriminate; try reflexivity; lia.
Qed.

Lemma QueryStatus_steps_positive_if_recognised_witness :
  0 < stepsPerDegree (snd (QueryStatus scan_float_dec (rotator_replying "Mini" "0"))).
Proof.
  assert (Hq : QueryStatus scan_float_dec (rotator_replying "Mini" "0")
               = (true, snd (QueryStatus scan_float_dec (rotator_replying "Mini" "0"))))
    by (vm_compute; reflexivity).
  apply (QueryStatus_steps_positive_if_recognised _ _ _ Hq).
  vm_compute; reflexivity.
Defined.

(** C2 as stated fails: a rotator that names itself "Pro" answers the
    probe with five well-formed frames, the query succeeds, and
    [stepsPerDegree] is still 0. *)
Lemma QueryStatus_unrecognised_model_leaves_zero :
  let r := QueryStatus scan_float_dec (rotator_replying "Pro" "0") in
  fst r = true /\ modelType (snd r) = "Pro" /\ stepsPerDegree (snd r) = 0.
Proof. vm_compute. repeat split; reflexivity. Qed.

(** ** C strings *)

Lemma c_str_tail c s : c_str (String c s) = String c s -> c_str s = s.
Proof. simpl. destruct (Ascii.eqb c zero); [discriminate|]. intros [= H]. exact H. Qed.

Lemma c_str_idem s : c_str (c_str s) = c_str s.
Proof.
  induction s as [|c s IH]; simpl; [reflexivity|].
  destruct (Ascii.eqb c zero) eqn:E; simpl; [reflexivity|]. rewrite E, IH. reflexivity.
Qed.

Lemma scan_literal_c_str lit s rest :
  scan_literal lit s = Some rest -> c_str s = s -> c_str rest = rest.
Proof.
  revert s. induction lit as [|a lit IH]; intros [|b s]; simpl; try discriminate.
  - intros [= <-] _. reflexivity.
  - intros [= <-] H. exact H.
  - destruct (Ascii.eqb a b); [|discriminate]. intros H Hs.
    apply (IH s H). destruct (Ascii.eqb b zero); [discriminate|].
    injection Hs as Hs. exact Hs.
Qed.

Lemma scan_not_A_c_str w s :
  c_str s = s -> c_str (scan_not_A w s) = scan_not_A w s.
Proof.
  revert s. induction w as [|w IH]; intros [|c s]; simpl; try reflexivity.
  destruct (Ascii.eqb c "A"); [reflexivity|].
  destruct (Ascii.eqb c zero) eqn:E; [discriminate|]. intros [= Hs].
  simpl. rewrite E, (IH s Hs). reflexivity.
Qed.

Lemma take_chars_all n s : (String.length s <= n)%nat -> take_chars n s = s.
Proof.
  revert s. induction n as [|n IH]; intros [|c s]; simpl; try reflexivity; try lia.
  intros H. rewrite IH by lia. reflexivity.
Qed.

(** A model name stored by [QueryStatus] fits the [model] member of
    [WR_VERSION]: [strncpy] copies the whole of it. *)
Lemma scan_model_fits response model :
  scan_model (c_str response) = Some model ->
  take_chars 7 (c_str model) = model.
Proof.
  intros H. assert (Hc : c_str model = model).
  { unfold scan_model in H.
    destruct (scan_literal _ (c_str response)) as [rest|] eqn:Hl; [|discriminate].
    apply scan_literal_c_str in Hl; [|apply c_str_idem].
    pose proof (scan_not_A_c_str 7 rest Hl) as Hn.
    destruct (scan_not_A 7 rest); [discriminate|]. injection H as <-. exact Hn. }
  rewrite Hc. apply take_chars_all. eapply scan_model_length, H.
Qed.

(** ** The read-only entry points (C10) *)

(** C10: for a valid handle, [WRRotatorGetStatus], [WRRotatorGetConfig] and
    [WRRotatorGetVersion] return the registry as they found it, every device
    and its transport included, so nothing is written or read on a line
    and no field changes.  GetStatus copies position, moving,
    stepsPerRevolution and stepSize; GetConfig copies the reverse-direction
    flag and the stored backlash divided by 10, leaving the other members of
    the caller's struct alone; GetVersion copies the firmware version and the
    model string, which is the whole name whenever a status query stored it. *)
Theorem read_only_operations_frame (g : gmap Z Device) (id : Z) (device : Device)
    (st : WR_ROTATOR_STATUS.t) (cfg : WR_ROTATOR_CONFIG.t) (ver : WR_VERSION.t) :
  g !! id = Some device ->
  WRRotatorGetStatus g id (Some st) =
    (WR_SUCCESS,
     Some (WR_ROTATOR_STATUS.mk (position (status device)) (moving (status device))
             (stepsPerRevolution (status device)) (stepSize (status device))),
     g) /\
  WRRotatorGetConfig g id (Some cfg) =
    (WR_SUCCESS,
     Some (WR_ROTATOR_CONFIG.mk (WR_ROTATOR_CONFIG.mask cfg)
             (rotator_reverseDirection (rotator device))
             (F32.div (F32.of_int (backlash device)) F32.f10)
             (WR_ROTATOR_CONFIG.overshoot cfg)
             (WR_ROTATOR_CONFIG.overshootAngle cfg)
             (WR_ROTATOR_CONFIG.overshotDirection cfg)),
     g) /\
  (exists copied,
     WRRotatorGetVersion g id (Some ver) =
       (WR_SUCCESS, Some (WR_VERSION.mk (to_unsigned (firmwareVersion device)) copied), g) /\
     (0 <= firmwareVersion device <= INT_MAX ->
      to_unsigned (firmwareVersion device) = firmwareVersion device) /\
     copied = take_chars 7 (c_str (modelType device)) /\
     (forall sf d0, QueryStatus sf d0 = (true, device) -> copied = modelType device)) /\
  snd (WRRotatorGetStatus g id None) = g /\
  snd (WRRotatorGetConfig g id None) = g /\
  snd (WRRotatorGetVersion g id None) = g.
Proof.
  intros Hg. unfold WRRotatorGetStatus, WRRotatorGetConfig, WRRotatorGetVersion.
  rewrite Hg. repeat split.
  eexists. repeat split.
  - unfold to_unsigned, INT_MAX. intros H. apply Z.mod_small. lia.
  - intros sf d0 Hq. apply QueryStatus_inv in Hq as ([response Hm] & _).
    eapply scan_model_fits, Hm.
Qed.

Lemma read_only_operations_frame_witness :
  let d := opened_rotator "Lite V2" "90000" [] in
  let g : gmap Z Device := {[ 0 := d ]} in
  WRRotatorGetVersion g 0 (Some (WR_VERSION.mk 0 EmptyString)) =
    (WR_SUCCESS, Some (WR_VERSION.mk 20240101 "Lite V2"), g).
Proof.
  intros d g.
  assert (Hg : g !! 0 = Some d) by (apply lookup_singleton_eq).
  destruct (read_only_operations_frame g 0 d
              (WR_ROTATOR_STATUS.mk F32.zero 0 0 F32.zero)
              (WR_ROTATOR_CONFIG.mk 0 0 F32.zero 0 F32.zero 0)
              (WR_VERSION.mk 0 EmptyString) Hg)
    as (_ & _ & (copied & Hv & _ & Hc & _) & _).
  rewrite Hv, Hc. vm_compute. reflexivity.
Defined.

(** ** Sending a command *)

Lemma SendCommand_open command d :
  port_open d = true ->
  exists p p' ok,
    port d = Some p /\ Write p command = (ok, p') /\
    SendCommand command d = (ok, set_port (Some p') d) /\
    tx p' = (tx p ++ [command])%list /\ IsOpen p' = true /\
    ok = hd true (wr_results p).
Proof.
  unfold port_open, SendCommand. destruct (port d) as [p|]; [|discriminate].
  intros Ho. rewrite Ho. simpl.
  destruct (Write p command) as [ok p'] eqn:Hw.
  exists p, p', ok. destruct (Write_tx _ _ _ _ Hw Ho) as [Ht Hf].
  repeat split; auto.
  - unfold IsOpen in *. rewrite Hf. exact Ho.
  - unfold Write, IsOpen in *. destruct (fd p <? 0) eqn:E; [lia|].
    destruct (wr_results p); injection Hw as <- _; reflexivity.
Qed.

Lemma SendCommand_closed command d :
  port_open d = false -> SendCommand command d = (false, d).
Proof.
  unfold port_open, SendCommand. destruct (port d) as [p|]; [|reflexivity].
  intros ->. reflexivity.
Qed.

(** ** Stop (C6) *)

(** C6, as the code has it: on a valid handle with an open transport,
    [WRRotatorStopMove] hands the literal "stop" to the transport; when
    that write succeeds it returns success and [status.moving] is 0; when
    the write fails it returns the communication error and leaves the
    device's status, [moving] included, as it was. *)
Theorem WRRotatorStopMove_effect (g : gmap Z Device) (id : Z) (device : Device) :
  g !! id = Some device ->
  port_open device = true ->
  exists p device',
    port device = Some p /\
    snd (WRRotatorStopMove g id) = <[id := device']> g /\
    sent device' = (sent device ++ ["stop"])%list /\
    (hd true (wr_results p) = true ->
     fst (WRRotatorStopMove g id) = WR_SUCCESS /\ moving (status device') = 0) /\
    (hd true (wr_results p) = false ->
     fst (WRRotatorStopMove g id) = WR_ERROR_COMMUNICATION /\
     status device' = status device).
Proof.
  intros Hg Ho. unfold WRRotatorStopMove. rewrite Hg, Ho. simpl.
  destruct (SendCommand_open "stop" device Ho)
    as (p & p' & ok & Hp & Hw & Hs & Ht & _ & Hok).
  rewrite Hs. exists p. destruct ok.
  - eexists. split; [exact Hp|]. split; [reflexivity|].
    unfold sent. simpl. rewrite Hp, Ht. repeat split; auto; congruence.
  - eexists. split; [exact Hp|]. split; [reflexivity|].
    unfold sent. simpl. rewrite Hp, Ht. repeat split; auto; congruence.
Qed.

Lemma WRRotatorStopMove_effect_witness :
  let g : gmap Z Device := {[ 0 := set_moving 1 (opened_rotator "Mini" "0" []) ]} in
  fst (WRRotatorStopMove g 0) = WR_SUCCESS /\
  exists device', snd (WRRotatorStopMove g 0) = <[0 := device']> g /\
                  moving (status device') = 0 /\ sent device' = ["stop"].
Proof.
  intros g.
  destruct (WRRotatorStopMove_effect g 0 (set_moving 1 (opened_rotator "Mini" "0" [])))
    as (p & device' & Hp & Hsnd & Hsent & Hok & _).
  - apply lookup_singleton_eq.
  - vm_compute; reflexivity.
  - assert (Hw : hd true (wr_results p) = true).
    { vm_compute in Hp. injection Hp as <-. reflexivity. }
    destruct (Hok Hw) as [Hf Hm]. split; [exact Hf|].
    exists device'. repeat split; assumption.
Defined.

(** C6 as stated fails: when the transport does not accept the whole of
    "stop", the call returns the communication error and [moving] is still 1. *)
Lemma WRRotatorStopMove_write_failure_keeps_moving :
  let g : gmap Z Device := {[ 0 := set_moving 1 (opened_rotator "Mini" "0" [false]) ]} in
  fst (WRRotatorStopMove g 0) = WR_ERROR_COMMUNICATION /\
  (moving ∘ status <$> snd (WRRotatorStopMove g 0) !! 0) = Some 1 /\
  (sent <$> snd (WRRotatorStopMove g 0) !! 0) = Some ["stop"].
Proof. vm_compute. repeat split; reflexivity. Qed.

(** ** Negative backlash (C5) *)

(** C5, as the code has it: for a valid handle and a request whose mask has
    the backlash bit but not the reverse-direction bit, a negative backlash
    makes [WRRotatorSetConfig] return the invalid-parameter error with the
    registry, and so the device and what it has written, unchanged.  When
    the reverse-direction bit is set as well, that field is handled first:
    on an open transport the reverse-direction command is written before
    the backlash is looked at.  If that write is accepted, both
    reverse-direction fields of the device take the requested value and the
    call then returns the invalid-parameter error; if it is not, the call
    returns the communication error and the fields stay.  The stored
    backlash is kept either way. *)
Theorem WRRotatorSetConfig_negative_backlash (g : gmap Z Device) (id : Z)
    (device : Device) (cfg : WR_ROTATOR_CONFIG.t) :
  g !! id = Some device ->
  has_bit (WR_ROTATOR_CONFIG.mask cfg) MASK_ROTATOR_BACKLASH = true ->
  F32.ltb (WR_ROTATOR_CONFIG.backlash cfg) F32.zero = true ->
  (has_bit (WR_ROTATOR_CONFIG.mask cfg) MASK_ROTATOR_REVERSE_DIRECTION = false ->
   WRRotatorSetConfig g id (Some cfg) = (WR_ERROR_INVALID_PARAMETER, g)) /\
  (has_bit (WR_ROTATOR_CONFIG.mask cfg) MASK_ROTATOR_REVERSE_DIRECTION = true ->
   port_open device = true ->
   exists device',
     snd (WRRotatorSetConfig g id (Some cfg)) = <[id := device']> g /\
     sent device' =
       (sent device ++ [ReverseDirectionToCommand (WR_ROTATOR_CONFIG.reverseDirection cfg)])%list /\
     backlash device' = backlash device /\
     exists p, port device = Some p /\
       (hd true (wr_results p) = true ->
        fst (WRRotatorSetConfig g id (Some cfg)) = WR_ERROR_INVALID_PARAMETER /\
        rotator_reverseDirection (rotator device') = WR_ROTATOR_CONFIG.reverseDirection cfg /\
        reverseDirection device' = WR_ROTATOR_CONFIG.reverseDirection cfg) /\
       (hd true (wr_results p) = false ->
        fst (WRRotatorSetConfig g id (Some cfg)) = WR_ERROR_COMMUNICATION /\
        rotator device' = rotator device /\
        reverseDirection device' = reverseDirection device)).
Proof.
  intros Hg Hb Hneg. unfold WRRotatorSetConfig. rewrite Hg, Hb, Hneg. split.
  - intros ->. rewrite insert_id by exact Hg. reflexivity.
  - intros -> Ho.
    destruct (SendCommand_open
                (ReverseDirectionToCommand (WR_ROTATOR_CONFIG.reverseDirection cfg))
                device Ho)
      as (p & p' & ok & Hp & Hw & Hs & Ht & _ & Hok).
    rewrite Hs. destruct ok; eexists; (split; [reflexivity|]);
      (split; [unfold sent; simpl; rewrite Hp, Ht; reflexivity|]);
      (split; [reflexivity|]); exists p; (split; [exact Hp|]);
      rewrite <- Hok; split; intros E; try discriminate E; repeat split.
Qed.

Lemma WRRotatorSetConfig_negative_backlash_witness :
  let g : gmap Z Device := {[ 0 := opened_rotator "Mini" "0" [] ]} in
  WRRotatorSetConfig g 0 (Some (negative_backlash_request 2)) =
    (WR_ERROR_INVALID_PARAMETER, g).
Proof.
  intros g.
  apply (WRRotatorSetConfig_negative_backlash g 0 (opened_rotator "Mini" "0" [])
           (negative_backlash_request 2)).
  - apply lookup_singleton_eq.
  - reflexivity.
  - reflexivity.
  - reflexivity.
Defined.

(** C5 as stated fails: with both mask bits set the call still returns the
    invalid-parameter error, but only after the reverse-direction command
    was written and the device's reverse-direction fields were changed. *)
Lemma WRRotatorSetConfig_writes_before_rejecting :
  let d := opened_rotator "Mini" "0" [] in
  let g : gmap Z Device := {[ 0 := d ]} in
  let r := WRRotatorSetConfig g 0 (Some (negative_backlash_request 3)) in
  fst r = WR_ERROR_INVALID_PARAMETER /\
  sent d = [] /\
  (sent <$> snd r !! 0) = Some ["1700001" ++ nl] /\
  rotator_reverseDirection (rotator d) = 0 /\
  (rotator_reverseDirection ∘ rotator <$> snd r !! 0) = Some 1.
Proof. vm_compute. repeat split; reflexivity. Qed.

(** ** Close (C4) *)

(** C4, as the code has it: [WRRotatorClose] on a known handle returns
    success, clears the listener flag and closes the transport, and keeps
    the device's entry in the registry.  Afterwards the same handle is still
    valid: the motion entry points fail with the communication error, not
    with the invalid-handle error, and the read-only ones succeed. *)
Theorem WRRotatorClose_keeps_entry (g : gmap Z Device) (id : Z) (device : Device) :
  g !! id = Some device ->
  exists device',
    WRRotatorClose g id = (WR_SUCCESS, <[id := device']> g) /\
    device' = set_port (Close <$> port device) (set_listenerRunning false device) /\
    port_open device' = false /\
    (<[id := device']> g) !! id = Some device' /\
    (forall angle, fst (WRRotatorMove (<[id := device']> g) id angle) = WR_ERROR_COMMUNICATION) /\
    (forall sf angle,
       fst (WRRotatorMoveTo sf (<[id := device']> g) id angle) = WR_ERROR_COMMUNICATION) /\
    fst (WRRotatorStopMove (<[id := device']> g) id) = WR_ERROR_COMMUNICATION /\
    (forall angle,
       fst (WRRotatorSyncPosition (<[id := device']> g) id angle) = WR_ERROR_COMMUNICATION) /\
    (forall st, fst (fst (WRRotatorGetStatus (<[id := device']> g) id (Some st))) = WR_SUCCESS).
Proof.
  intros Hg. exists (set_port (Close <$> port device) (set_listenerRunning false device)).
  assert (Hclosed : port_open (set_port (Close <$> port device)
                                 (set_listenerRunning false device)) = false).
  { unfold port_open. simpl. destruct (port device) as [p|]; [|reflexivity].
    simpl. unfold Close, IsOpen. destruct (0 <=? fd p) eqn:E; simpl; [reflexivity|exact E]. }
  split.
  { unfold WRRotatorClose. rewrite Hg. unfold StopMoveListener.
    destruct device as [[p|] ? ? ? ? ? ? ? ? ? ? ? ? ? ?]; reflexivity. }
  split; [reflexivity|]. split; [exact Hclosed|].
  split; [apply lookup_insert_eq|].
  unfold WRRotatorMove, WRRotatorMoveTo, WRRotatorStopMove, WRRotatorSyncPosition,
    WRRotatorGetStatus.
  rewrite lookup_insert_eq, Hclosed. repeat split.
Qed.

Lemma WRRotatorClose_keeps_entry_witness :
  let g : gmap Z Device := {[ 0 := opened_rotator "Mini" "0" [] ]} in
  exists device',
    WRRotatorClose g 0 = (WR_SUCCESS, <[0 := device']> g) /\
    fst (WRRotatorStopMove (<[0 := device']> g) 0) = WR_ERROR_COMMUNICATION.
Proof.
  intros g.
  destruct (WRRotatorClose_keeps_entry g 0 (opened_rotator "Mini" "0" []))
    as (device' & Hc & _ & _ & _ & _ & _ & Hstop & _).
  - apply lookup_singleton_eq.
  - exists device'. split; assumption.
Defined.

(** C4 as stated fails: after a successful close the handle is still in the
    registry; [WRRotatorGetStatus] succeeds on it and [WRRotatorMove] reports a
    communication error, where the claim expects the invalid-handle error. *)
Lemma WRRotatorClose_does_not_erase :
  let g : gmap Z Device := {[ 0 := opened_rotator "Mini" "0" [] ]} in
  let g' := snd (WRRotatorClose g 0) in
  fst (WRRotatorClose g 0) = WR_SUCCESS /\
  is_Some (g' !! 0) /\
  fst (fst (WRRotatorGetStatus g' 0 (Some (WR_ROTATOR_STATUS.mk F32.zero 0 0 F32.zero))))
    = WR_SUCCESS /\
  fst (WRRotatorMove g' 0 (F32.of_int 10)) = WR_ERROR_COMMUNICATION.
Proof. vm_compute. repeat split; try reflexivity. eexists; reflexivity. Qed.

(** ** A target equal to the current angle (C9) *)

Lemma F32_eqb_finite s1 m1 e1 s2 m2 e2 :
  F32.eqb (S754_finite s1 m1 e1) (S754_finite s2 m2 e2) = true ->
  s1 = s2 /\ m1 = m2 /\ e1 = e2.
Proof.
  unfold F32.eqb, SFeqb, SFcompare.
  destruct s1, s2; try discriminate;
    destruct (Z.compare e1 e2) eqn:He; try discriminate;
    destruct (Pos.compare_cont Eq m1 m2) eqn:Hm; try discriminate; intros _;
    apply Z.compare_eq in He; apply Pos.compare_eq in Hm; auto.
Qed.

Lemma F32_sub_diag s m e :
  F32.sub (S754_finite s m e) (S754_finite s m e) = F32.zero.
Proof.
  unfold F32.sub, SFsub. rewrite Z.min_id. unfold shl_align.
  rewrite !Z.sub_diag. reflexivity.
Qed.

(** When the target equals the current angle the normalised delta is zero. *)
Lemma shortest_delta_same angle currentAngle :
  F32.ltb angle F32.zero || F32.leb F32.f360 angle = false ->
  F32.eqb angle currentAngle = true ->
  F32.eqb (shortest_delta angle currentAngle) F32.zero = true.
Proof.
  intros Hrange Heq. unfold shortest_delta.
  assert (Hd : F32.add (F32.sub angle currentAngle) F32.f180 = F32.f180).
  { destruct angle as [s|s| |s m e], currentAngle as [s'|s'| |s' m' e'];
      try discriminate Heq;
      try (destruct s; discriminate Heq); try (destruct s'; discriminate Heq).
    - destruct s, s'; reflexivity.
    - destruct s; discriminate Hrange.
    - apply F32_eqb_finite in Heq as (<- & <- & <-).
      rewrite F32_sub_diag. reflexivity. }
  rewrite Hd. reflexivity.
Qed.

(** C9, as the code has it: for a valid handle with an open transport and a
    target in [0, 360) equal to the current angle that the status query
    reports, [WRRotatorMoveTo] returns success without sending a move
    command; the one thing it writes is the status probe "1500001\n" with
    which it fetches the current angle. *)
Theorem WRRotatorMoveTo_same_angle sf (g : gmap Z Device) (id : Z)
    (device device' : Device) (angle : F32.float) :
  g !! id = Some device ->
  port_open device = true ->
  F32.ltb angle F32.zero || F32.leb F32.f360 angle = false ->
  QueryStatus sf device = (true, device') ->
  F32.eqb angle (F32.div (F32.of_int (mechanicalAngle device')) F32.f1000) = true ->
  WRRotatorMoveTo sf g id angle = (WR_SUCCESS, <[id := device']> g) /\
  sent device' = (sent device ++ [handshake_probe])%list /\
  moving (status device') = moving (status device).
Proof.
  intros Hg Ho Hrange Hq Heq. unfold WRRotatorMoveTo.
  rewrite Hg, Ho, Hrange, Hq. simpl.
  rewrite (shortest_delta_same _ _ Hrange Heq).
  apply QueryStatus_inv in Hq as (_ & _ & _ & _ & _ & Hm & Hs & _).
  auto.
Qed.

Lemma WRRotatorMoveTo_same_angle_witness :
  let d := rotator_replying "Mini" "90000" in
  let g : gmap Z Device := {[ 0 := d ]} in
  fst (WRRotatorMoveTo scan_float_dec g 0 (F32.of_int 90)) = WR_SUCCESS.
Proof.
  intros d g.
  assert (Hq : QueryStatus scan_float_dec d = (true, snd (QueryStatus scan_float_dec d)))
    by (vm_compute; reflexivity).
  destruct (WRRotatorMoveTo_same_angle scan_float_dec g 0 d _ (F32.of_int 90)
              (lookup_singleton_eq _ _) eq_refl eq_refl Hq) as (H & _).
  - vm_compute; reflexivity.
  - rewrite H. reflexivity.
Defined.

(** C9 as stated fails: a move to the current angle succeeds, and no move
    command is sent, but the status probe is written to the transport. *)
Lemma WRRotatorMoveTo_same_angle_writes_probe :
  let d := rotator_replying "Mini" "90000" in
  let g : gmap Z Device := {[ 0 := d ]} in
  let r := WRRotatorMoveTo scan_float_dec g 0 (F32.of_int 90) in
  fst r = WR_SUCCESS /\ sent d = [] /\ (sent <$> snd r !! 0) = Some ["1500001" ++ nl].
Proof. vm_compute. repeat split; reflexivity. Qed.

(** ** binary32: digits and shifts *)

Lemma digits2_pos_bounds m :
  2 ^ (Zpos (digits2_pos m) - 1) <= Zpos m < 2 ^ Zpos (digits2_pos m).
Proof.
  induction m as [m IH|m IH|]; cbn [digits2_pos]; [| |simpl; lia];
    rewrite Pos2Z.inj_succ;
    [change (Zpos m~1) with (2 * Zpos m + 1) | change (Zpos m~0) with (2 * Zpos m)];
    assert (Hd : 1 <= Zpos (digits2_pos m)) by lia;
    generalize dependent (Zpos (digits2_pos m)); intros d IH Hd;
    replace (Z.succ d - 1) with (Z.succ (d - 1)) by lia;
    rewrite !Z.pow_succ_r by lia; lia.
Qed.

Lemma digits2_pos_unique m d :
  2 ^ (d - 1) <= Zpos m < 2 ^ d -> Zpos (digits2_pos m) = d.
Proof.
  intros [Hlo Hhi]. pose proof (digits2_pos_bounds m) as [Blo Bhi].
  destruct (Z.lt_trichotomy (Zpos (digits2_pos m)) d) as [H|[H|H]]; [exfalso| exact H |exfalso].
  - assert (2 ^ Zpos (digits2_pos m) <= 2 ^ (d - 1)) by (apply Z.pow_le_mono_r; lia). lia.
  - assert (0 <= d).
    { destruct (Z.le_gt_cases 0 d) as [?|Hn]; [assumption|].
      rewrite (Z.pow_neg_r 2 d) in Hhi by lia. lia. }
    assert (2 ^ d <= 2 ^ (Zpos (digits2_pos m) - 1)) by (apply Z.pow_le_mono_r; lia). lia.
Qed.

Lemma iter_xO_mul m d : Zpos (Pos.iter xO m d) = Zpos m * 2 ^ Zpos d.
Proof.
  induction d as [|d IH] using Pos.peano_ind.
  - simpl. lia.
  - rewrite Pos.iter_succ.
    change (Zpos (Pos.iter xO m d)~0) with (2 * Zpos (Pos.iter xO m d)).
    rewrite IH, Pos2Z.inj_succ, Z.pow_succ_r by lia. lia.
Qed.

(** [shl_align] keeps the value and reaches the smaller of the exponents. *)
Lemma shl_align_spec m e e' :
  snd (shl_align m e e') = Z.min e e' /\
  Zpos (fst (shl_align m e e')) = Zpos m * 2 ^ (e - Z.min e e').
Proof.
  unfold shl_align. destruct (e' - e) as [|p|p] eqn:Hd; cbn [fst snd].
  - replace (Z.min e e') with e by lia. rewrite Z.sub_diag. simpl. lia.
  - replace (Z.min e e') with e by lia. rewrite Z.sub_diag. simpl. lia.
  - replace (Z.min e e') with e' by lia. rewrite iter_xO_mul.
    replace (e - e') with (Zpos p) by lia. split; reflexivity.
Qed.

Lemma shr_rel_1 a : shr_rel 1 a (shr_1 a).
Proof.
  destruct a as [m r s]. unfold shr_rel, shr_exact. simpl shr_m. intros Hm.
  change (2 ^ 1) with 2.
  destruct m as [|[p|p|]|p]; try lia; cbn [shr_1 shr_m shr_r shr_s].
  - split; [reflexivity|]. intros H _. destruct r, s; auto.
  - split; [change (Zpos p~1) with (2 * Zpos p + 1);
            apply Z.div_unique with 1; lia|].
    intros _ H. change (Zpos p~1) with (2 * Zpos p + 1) in H.
    rewrite Z.add_comm, Z.mul_comm, Z.mod_add in H by lia. discriminate H.
  - split; [change (Zpos p~0) with (2 * Zpos p);
            apply Z.div_unique with 0; lia|].
    intros H _. destruct r, s; auto.
  - split; [reflexivity|]. intros _ H. discriminate H.
Qed.

Lemma shr_rel_trans j k a b c :
  0 <= j -> 0 <= k -> shr_rel j a b -> shr_rel k b c -> shr_rel (j + k) a c.
Proof.
  intros Hj Hk Hab Hbc Ha. destruct (Hab Ha) as [Hb Eb].
  assert (H2j : 0 < 2 ^ j) by (apply Z.pow_pos_nonneg; lia).
  assert (H2k : 0 < 2 ^ k) by (apply Z.pow_pos_nonneg; lia).
  assert (Hb0 : 0 <= shr_m b) by (rewrite Hb; apply Z.div_pos; lia).
  destruct (Hbc Hb0) as [Hc Ec]. split.
  - rewrite Hc, Hb, Z.pow_add_r, Z.div_div by lia. reflexivity.
  - intros Hex Hmod. rewrite Z.pow_add_r in Hmod by lia.
    assert (Hdiv : shr_m a = 2 ^ j * 2 ^ k * (shr_m a / (2 ^ j * 2 ^ k)))
      by (apply Z.div_exact; [lia | exact Hmod]).
    apply Ec.
    + apply Eb; [exact Hex|]. rewrite Hdiv.
      rewrite <- Z.mul_assoc, Z.mul_comm. apply Z.mod_mul. lia.
    + rewrite Hb. rewrite Hdiv at 1.
      rewrite <- Z.mul_assoc, Z.mul_comm, Z.div_mul by lia.
      rewrite Z.mul_comm. apply Z.mod_mul. lia.
Qed.

Lemma iter_shr_rel p a : shr_rel (Zpos p) a (SpecFloat.iter_pos shr_1 p a).
Proof.
  revert a. induction p as [p IH|p IH|]; intros a; cbn [SpecFloat.iter_pos].
  - rewrite Pos2Z.inj_xI. replace (2 * Zpos p + 1) with (1 + Zpos p + Zpos p) by lia.
    eapply shr_rel_trans; [lia | lia | | apply IH].
    eapply shr_rel_trans; [lia | lia | apply shr_rel_1 | apply IH].
  - rewrite Pos2Z.inj_xO. replace (2 * Zpos p) with (Zpos p + Zpos p) by lia.
    eapply shr_rel_trans; [lia | lia | apply IH | apply IH].
  - apply shr_rel_1.
Qed.

(** ** binary32: rounding *)

Lemma fexp32 x : fexp F32.prec F32.emax x = Z.max (x - 24) (-149).
Proof. reflexivity. Qed.

Lemma shr_spec a e n :
  exists b, shr a e n = (b, e + Z.max n 0) /\ shr_rel (Z.max n 0) a b.
Proof.
  unfold shr. destruct n as [|p|p].
  - exists a. rewrite Z.add_0_r. split; [reflexivity|]. intros Ha. simpl.
    rewrite Z.div_1_r. split; [reflexivity|]. auto.
  - exists (SpecFloat.iter_pos shr_1 p a). replace (Z.max (Zpos p) 0) with (Zpos p) by lia.
    split; [reflexivity | apply iter_shr_rel].
  - exists a. replace (Z.max (Zneg p) 0) with 0 by lia. rewrite Z.add_0_r.
    split; [reflexivity|]. intros Ha. simpl.
    rewrite Z.div_1_r. split; [reflexivity|]. auto.
Qed.

Lemma round_nearest_even_spec b :
  0 <= shr_m b ->
  shr_m b <= round_nearest_even (shr_m b) (loc_of_shr_record b) <= shr_m b + 1 /\
  (shr_exact b = true ->
   round_nearest_even (shr_m b) (loc_of_shr_record b) = shr_m b).
Proof.
  destruct b as [m [] []]; unfold shr_exact; simpl; intros Hm;
    try destruct (Z.even m); split; try lia; try discriminate; reflexivity.
Qed.

Lemma Zdigits2_pos m : 0 < m ->
  2 ^ (Zdigits2 m - 1) <= m < 2 ^ Zdigits2 m /\ 1 <= Zdigits2 m.
Proof.
  destruct m as [|p|p]; try lia. intros _. simpl.
  split; [apply digits2_pos_bounds | lia].
Qed.

Lemma Zdigits2_unique m d : 2 ^ (d - 1) <= m < 2 ^ d -> 0 < m -> Zdigits2 m = d.
Proof.
  destruct m as [|p|p]; try lia. intros H _. simpl. apply digits2_pos_unique, H.
Qed.

Ltac shr_step c Hc :=
  rewrite ?fexp32;
  match goal with
  | |- context [shr ?a ?e ?n] =>
      let Hs := fresh "Hs" in
      destruct (shr_spec a e n) as (c & Hs & Hc); rewrite Hs; clear Hs
  end.

Lemma binary_round_aux_spec sx m e :
  -149 <= e ->
  let D := Zpos (digits2_pos m) + e in
  let E := Z.max (D - 24) (-149) in
  e <= E -> D <= 127 ->
  exists q,
    rounds_to (binary_round_aux F32.prec F32.emax sx (Zpos m) e loc_Exact) sx (q * 2 ^ (E + 149)) /\
    Zpos m / 2 ^ (E - e) <= q <= Zpos m / 2 ^ (E - e) + 1 /\
    (Zpos m mod 2 ^ (E - e) = 0 -> q = Zpos m / 2 ^ (E - e)).
Proof.
  intros He D E HeE HD.
  assert (HE149 : -149 <= E) by (unfold E; lia).
  assert (HED : D - 24 <= E) by (unfold E; lia).
  unfold binary_round_aux, shr_fexp. rewrite !fexp32.
  change (Zdigits2 (Zpos m)) with (Zpos (digits2_pos m)).
  fold D. fold E.
  destruct (shr_spec (shr_record_of_loc (Zpos m) loc_Exact) e (E - e)) as (b & -> & Hb).
  replace (Z.max (E - e) 0) with (E - e) in * by lia.
  replace (e + (E - e)) with E by lia.
  destruct (Hb ltac:(simpl; lia)) as [Hbm Hbe]. simpl shr_m in Hbm, Hbe.
  assert (H2k : 0 < 2 ^ (E - e)) by (apply Z.pow_pos_nonneg; lia).
  assert (Hb0 : 0 <= shr_m b) by (rewrite Hbm; apply Z.div_pos; lia).
  destruct (round_nearest_even_spec b Hb0) as [Hq Hqe].
  set (q := round_nearest_even (shr_m b) (loc_of_shr_record b)) in *.
  exists q. rewrite <- Hbm.
  split; [|split; [exact Hq | intros Hmod; apply Hqe, Hbe; [reflexivity | exact Hmod]]].
  (* size of the shifted mantissa *)
  pose proof (digits2_pos_bounds m) as [Hlo Hhi].
  assert (Hb24 : shr_m b < 2 ^ (D - E)).
  { rewrite Hbm. apply Z.div_lt_upper_bound; [lia|].
    rewrite <- Z.pow_add_r by lia. replace (E - e + (D - E)) with (Zpos (digits2_pos m)) by lia.
    exact Hhi. }
  assert (HDE : D - E <= 24) by lia.
  assert (H24 : 2 ^ (D - E) <= 2 ^ 24) by (apply Z.pow_le_mono_r; lia).
  assert (Hq24 : q <= 2 ^ 24) by lia.
  destruct (Z.eq_dec q 0) as [Hq0|Hq0].
  { (* everything was shifted out *)
    left. rewrite Hq0. simpl Zdigits2. split; [lia|].
    shr_step c Hc.
    destruct (Hc ltac:(simpl; lia)) as [Hcm _]. simpl shr_m in Hcm.
    rewrite Z.div_0_l in Hcm; [|apply Z.pow_nonzero; lia]. rewrite Hcm. reflexivity. }
  assert (Hqpos : 0 < q) by lia.
  destruct (Zdigits2_pos q Hqpos) as [[Hdlo Hdhi] Hd1].
  destruct (Z.eq_dec q (2 ^ 24)) as [Hcarry|Hcarry].
  { (* the mantissa was rounded up to the next power of two *)
    right. assert (HE : E = D - 24).
    { destruct (Z.eq_dec E (D - 24)); [assumption|exfalso].
      assert (D - E <= 23) by lia.
      assert (2 ^ (D - E) <= 2 ^ 23) by (apply Z.pow_le_mono_r; lia).
      assert (q <= 2 ^ 23) by lia. rewrite Hcarry in *. lia. }
    assert (Hd : Zdigits2 q = 25).
    { apply Zdigits2_unique; [rewrite Hcarry; simpl; lia | lia]. }
    rewrite Hd.
    shr_step c Hc.
    replace (Z.max (Z.max (25 + E - 24) (-149) - E) 0) with 1 in * by lia.
    destruct (Hc ltac:(simpl; lia)) as [Hcm _]. simpl shr_m in Hcm.
    rewrite Hcarry in Hcm. change (2 ^ 24 / 2 ^ 1) with 8388608 in Hcm. rewrite Hcm.
    replace (E + 1 <=? F32.emax - F32.prec) with true
      by (symmetry; apply Z.leb_le; unfold F32.emax, F32.prec; lia).
    exists 8388608%positive, (E + 1). split; [reflexivity|]. split; [|split; [lia|]].
    - unfold bounded, canonical_mantissa. rewrite fexp32. simpl digits2_pos.
      apply andb_true_iff. split; [apply Z.eqb_eq | apply Z.leb_le]; unfold F32.emax, F32.prec; lia.
    - rewrite Hcarry. replace (E + 1 + 149) with (1 + (E + 149)) by lia.
      rewrite (Z.pow_add_r 2 1 (E + 149)) by lia. change (2 ^ 24) with 16777216. change (2 ^ 1) with 2.
      lia. }
  (* the rounded mantissa fits *)
  right. assert (Hd24 : Zdigits2 q <= 24).
  { destruct (Z.le_gt_cases (Zdigits2 q) 24); [assumption|exfalso].
    assert (2 ^ 24 <= 2 ^ (Zdigits2 q - 1)) by (apply Z.pow_le_mono_r; lia). lia. }
  shr_step c Hc.
  replace (Z.max (Z.max (Zdigits2 q + E - 24) (-149) - E) 0) with 0 in * by lia.
  destruct (Hc ltac:(simpl; lia)) as [Hcm _]. simpl shr_m in Hcm.
  rewrite Z.div_1_r in Hcm. rewrite Hcm, Z.add_0_r.
  destruct q as [|qp|qp]; try lia.
  replace (E <=? F32.emax - F32.prec) with true
    by (symmetry; apply Z.leb_le; unfold F32.emax, F32.prec; lia).
  exists qp, E. split; [reflexivity|]. split; [|split; [lia|reflexivity]].
  unfold bounded, canonical_mantissa. rewrite fexp32.
  apply andb_true_iff. split; [apply Z.eqb_eq | apply Z.leb_le; unfold F32.emax, F32.prec; lia].
  simpl Zdigits2 in *.
  destruct (Z.eq_dec E (-149)) as [HE|HE]; [lia|].
  assert (HE' : E = D - 24) by lia.
  (* a normal result has a full mantissa *)
  assert (2 ^ 23 <= Zpos qp).
  { assert (2 ^ 23 <= shr_m b); [|lia]. rewrite Hbm.
    apply Z.div_le_lower_bound; [lia|].
    rewrite <- Z.pow_add_r by lia.
    replace (E - e + 23) with (Zpos (digits2_pos m) - 1) by lia. exact Hlo. }
  assert (24 <= Zpos (digits2_pos qp)); [|lia].
  destruct (Z.le_gt_cases 24 (Zpos (digits2_pos qp))); [assumption|exfalso].
  assert (2 ^ Zpos (digits2_pos qp) <= 2 ^ 23) by (apply Z.pow_le_mono_r; lia). lia.
Qed.

Lemma Zdigits2_shift m j :
  0 <= j -> Zdigits2 (Zpos m * 2 ^ j) = Zpos (digits2_pos m) + j.
Proof.
  intros Hj. pose proof (digits2_pos_bounds m) as [Hlo Hhi].
  assert (H2 : 0 < 2 ^ j) by (apply Z.pow_pos_nonneg; lia).
  apply Zdigits2_unique; [|lia].
  replace (Zpos (digits2_pos m) + j - 1) with (Zpos (digits2_pos m) - 1 + j) by lia.
  rewrite !Z.pow_add_r by lia. split.
  - apply Z.mul_le_mono_nonneg_r; lia.
  - apply Z.mul_lt_mono_pos_r; lia.
Qed.

Lemma spacing_pos V : 0 < spacing V.
Proof. unfold spacing. apply Z.pow_pos_nonneg; lia. Qed.

Lemma binary_round_spec sx m e :
  -149 <= e -> Zpos (digits2_pos m) + e <= 127 ->
  exists R,
    rounds_to (binary_round F32.prec F32.emax sx m e) sx R /\
    rounding_of (Zpos m * 2 ^ (e + 149)) R.
Proof.
  intros He HD. unfold binary_round. rewrite fexp32.
  set (D := Zpos (digits2_pos m) + e) in *.
  set (E := Z.max (D - 24) (-149)).
  destruct (shl_align_spec m e E) as [Hez Hmz].
  destruct (shl_align m e E) as [mz ez]. cbn [fst snd] in Hez, Hmz.
  assert (HE149 : -149 <= E) by (unfold E; lia).
  assert (Hdz : Zpos (digits2_pos mz) + ez = D).
  { change (Zpos (digits2_pos mz)) with (Zdigits2 (Zpos mz)).
    rewrite Hmz, Zdigits2_shift by lia. unfold D. lia. }
  destruct (binary_round_aux_spec sx mz ez) as (q & Hr & Hq & Hqe).
  { lia. } { rewrite Hdz. fold E. lia. } { rewrite Hdz. exact HD. }
  rewrite Hdz in Hr, Hq, Hqe. fold E in Hr, Hq, Hqe.
  exists (q * 2 ^ (E + 149)). split; [exact Hr|].
  (* the value and the spacing, in terms of the aligned mantissa *)
  assert (HV : Zpos m * 2 ^ (e + 149) = Zpos mz * 2 ^ (ez + 149)).
  { rewrite Hmz, <- Z.mul_assoc, <- Z.pow_add_r by lia. f_equal. f_equal. lia. }
  assert (HU : spacing (Zpos m * 2 ^ (e + 149)) = 2 ^ (E + 149)).
  { unfold spacing. rewrite Zdigits2_shift by lia. f_equal. unfold E, D. lia. }
  unfold rounding_of. rewrite HU, HV.
  assert (H2 : 0 < 2 ^ (E - ez)) by (apply Z.pow_pos_nonneg; lia).
  assert (H3 : 0 < 2 ^ (ez + 149)) by (apply Z.pow_pos_nonneg; lia).
  assert (HEz : 2 ^ (E + 149) = 2 ^ (E - ez) * 2 ^ (ez + 149)).
  { rewrite <- Z.pow_add_r by lia. f_equal. lia. }
  rewrite HEz.
  set (a := 2 ^ (E - ez)) in *. set (b := 2 ^ (ez + 149)) in *.
  pose proof (Z.div_mod (Zpos mz) a ltac:(lia)) as Hdm.
  pose proof (Z.mod_pos_bound (Zpos mz) a H2) as Hmb.
  set (k := Zpos mz / a) in *. set (r := Zpos mz mod a) in *.
  split; [apply Z.mod_mul; lia|].
  assert (Hmod : (Zpos mz * b) mod (a * b) = r * b).
  { rewrite Hdm. replace ((a * k + r) * b) with (r * b + k * (a * b)) by ring.
    rewrite Z.mod_add by lia. apply Z.mod_small. nia. }
  split.
  - destruct (Z.eq_dec r 0) as [Hr0|Hr0].
    + rewrite (Hqe Hr0). nia.
    + nia.
  - rewrite Hmod. intros H0. assert (r = 0) by nia. rewrite (Hqe H). nia.
Qed.

(** ** binary32: rounding is monotone across representable bounds *)

Lemma multiple_le u R B :
  0 < u -> (u | R) -> (u | B) -> R < B + u -> R <= B.
Proof.
  intros Hu [a ->] [b ->] H.
  assert (a < b + 1) by (apply (Z.mul_lt_mono_pos_r u); lia).
  apply Z.mul_le_mono_nonneg_r; lia.
Qed.

Lemma Zdigits2_mono V B : 0 < V -> V <= B -> Zdigits2 V <= Zdigits2 B.
Proof.
  intros HV HB. destruct (Zdigits2_pos V HV) as [[Hlo _] Hd].
  destruct (Zdigits2_pos B ltac:(lia)) as [[_ Hhi] Hd'].
  destruct (Z.le_gt_cases (Zdigits2 V) (Zdigits2 B)) as [H|H]; [exact H|exfalso].
  assert (2 ^ Zdigits2 B <= 2 ^ (Zdigits2 V - 1)) by (apply Z.pow_le_mono_r; lia). lia.
Qed.

Lemma spacing_divide V B : 0 < V -> V <= B -> (spacing V | spacing B).
Proof.
  intros HV HB. pose proof (Zdigits2_mono V B HV HB) as Hd. unfold spacing.
  exists (2 ^ (Z.max (Zdigits2 B - 24) 0 - Z.max (Zdigits2 V - 24) 0)).
  rewrite <- Z.pow_add_r by lia. f_equal. lia.
Qed.

Lemma rounding_of_divide V R : rounding_of V R -> (spacing V | R).
Proof.
  intros [H _]. apply Z.mod_divide; [pose proof (spacing_pos V); lia | exact H].
Qed.

Lemma rounding_le V R B :
  rounding_of V R -> 0 < V -> V <= B -> representable B -> R <= B.
Proof.
  intros HR HV HB Hrep. pose proof (spacing_pos V) as Hu.
  apply (multiple_le (spacing V)); [exact Hu | apply rounding_of_divide, HR | |].
  - eapply Z.divide_trans; [apply spacing_divide; eassumption | exact Hrep].
  - destruct HR as (_ & [_ H] & _). lia.
Qed.

Lemma rounding_ge V R B :
  rounding_of V R -> 0 < B -> B <= V -> representable B -> B <= R.
Proof.
  intros HR HB HV Hrep. pose proof (spacing_pos V) as Hu.
  pose proof (rounding_of_divide V R HR) as HdR.
  destruct HR as (_ & [Hlow _] & _).
  pose proof (Zdigits2_mono B V HB HV) as Hd.
  destruct (Zdigits2_pos V ltac:(lia)) as [[HVlo HVhi] HV1].
  destruct (Zdigits2_pos B HB) as [[HBlo HBhi] HB1].
  destruct (Z.eq_dec (Zdigits2 B) (Zdigits2 V)) as [Heq|Hne].
  - (* same binade: [B] is on the grid around [V] *)
    assert (Hs : spacing B = spacing V) by (unfold spacing; rewrite Heq; reflexivity).
    unfold representable in Hrep. rewrite Hs in Hrep.
    assert (- R <= - B); [|lia].
    apply (multiple_le (spacing V)); [exact Hu | | | lia];
      apply Z.divide_opp_r; assumption.
  - (* [V] is in a higher binade, which starts above [B] *)
    set (P := 2 ^ (Zdigits2 V - 1)) in *.
    assert (HBP : B < P).
    { assert (2 ^ Zdigits2 B <= P) by (apply Z.pow_le_mono_r; lia). lia. }
    assert (HdP : (spacing V | P)).
    { unfold spacing, P.
      exists (2 ^ (Zdigits2 V - 1 - Z.max (Zdigits2 V - 24) 0)).
      rewrite <- Z.pow_add_r by lia. f_equal. lia. }
    assert (- R <= - P); [|lia].
    apply (multiple_le (spacing V)); [exact Hu | | | lia];
      apply Z.divide_opp_r; assumption.
Qed.

Lemma rounding_pos V R : rounding_of V R -> 0 < V -> 0 < R.
Proof.
  intros HR HV. assert (1 <= R); [|lia].
  apply (rounding_ge V R 1 HR); [lia | lia |].
  exists 1. reflexivity.
Qed.

(** The numbers that [valid] accepts have representable magnitudes. *)
Lemma bounded_representable m e :
  bounded F32.prec F32.emax m e = true ->
  -149 <= e <= 104 /\
  spacing (Zpos m * 2 ^ (e + 149)) = 2 ^ (e + 149) /\
  representable (Zpos m * 2 ^ (e + 149)) /\
  0 < Zpos m * 2 ^ (e + 149).
Proof.
  unfold bounded, canonical_mantissa. rewrite fexp32. intros H.
  apply andb_true_iff in H as [Hc Hb]. apply Z.eqb_eq in Hc. apply Z.leb_le in Hb.
  unfold F32.emax, F32.prec in Hb.
  assert (He : -149 <= e) by lia.
  assert (Hs : spacing (Zpos m * 2 ^ (e + 149)) = 2 ^ (e + 149)).
  { unfold spacing. rewrite Zdigits2_shift by lia. f_equal. lia. }
  assert (0 < 2 ^ (e + 149)) by (apply Z.pow_pos_nonneg; lia).
  split; [lia|]. split; [exact Hs|]. split.
  - unfold representable. rewrite Hs. exists (Zpos m). reflexivity.
  - apply Z.mul_pos_pos; lia.
Qed.

Lemma rounds_to_scaled r sx R :
  rounds_to r sx R ->
  F32.valid r = true /\ F32.is_finite r = true /\ F32.scaled r = cond_Zopp sx R /\ 0 <= R.
Proof.
  intros [[-> ->]|(m & e & -> & Hb & He & ->)].
  - destruct sx; repeat split; simpl; lia.
  - destruct (bounded_representable m e Hb) as (_ & _ & _ & Hpos).
    repeat split; [exact Hb | lia].
Qed.

(** ** binary32: comparison follows the values *)

Lemma bounded_exponent_lt m1 e1 m2 e2 :
  bounded F32.prec F32.emax m1 e1 = true ->
  bounded F32.prec F32.emax m2 e2 = true ->
  e1 < e2 ->
  Zpos m1 * 2 ^ (e1 + 149) < Zpos m2 * 2 ^ (e2 + 149).
Proof.
  unfold bounded, canonical_mantissa. rewrite !fexp32. intros H1 H2 He.
  apply andb_true_iff in H1 as [H1 _]. apply andb_true_iff in H2 as [H2 _].
  apply Z.eqb_eq in H1, H2.
  pose proof (digits2_pos_bounds m1) as [_ Hhi].
  pose proof (digits2_pos_bounds m2) as [Hlo _].
  assert (Hd1 : Zpos (digits2_pos m1) <= 24) by lia.
  assert (Hd2 : Zpos (digits2_pos m2) = 24) by lia.
  rewrite Hd2 in Hlo. change (2 ^ (24 - 1)) with 8388608 in Hlo.
  assert (Zpos m1 < 16777216).
  { assert (2 ^ Zpos (digits2_pos m1) <= 2 ^ 24) by (apply Z.pow_le_mono_r; lia).
    change (2 ^ 24) with 16777216 in *. lia. }
  assert (Hp : 0 < 2 ^ (e1 + 149)) by (apply Z.pow_pos_nonneg; lia).
  assert (Hq : 2 * 2 ^ (e1 + 149) <= 2 ^ (e2 + 149)).
  { rewrite <- Z.pow_succ_r by lia. apply Z.pow_le_mono_r; lia. }
  nia.
Qed.

Lemma SFcompare_scaled x y :
  F32.valid x = true -> F32.valid y = true ->
  F32.is_finite x = true -> F32.is_finite y = true ->
  SFcompare x y = Some (F32.scaled x ?= F32.scaled y).
Proof.
  destruct x as [sx|sx| |sx mx ex], y as [sy|sy| |sy my ey]; try discriminate;
    unfold F32.valid, valid_binary; intros Hx Hy _ _.
  - reflexivity.
  - destruct (bounded_representable my ey Hy) as (_ & _ & _ & Hp).
    unfold SFcompare, F32.scaled. destruct sy; cbn [cond_Zopp]; f_equal; symmetry;
      [apply Z.compare_gt_iff | apply Z.compare_lt_iff]; lia.
  - destruct (bounded_representable mx ex Hx) as (_ & _ & _ & Hp).
    unfold SFcompare, F32.scaled. destruct sx; cbn [cond_Zopp]; f_equal; symmetry;
      [apply Z.compare_lt_iff | apply Z.compare_gt_iff]; lia.
  - destruct (bounded_representable mx ex Hx) as (_ & _ & _ & Hpx).
    destruct (bounded_representable my ey Hy) as (_ & _ & _ & Hpy).
    assert (Heq : ex = ey -> (Zpos mx * 2 ^ (ex + 149) ?= Zpos my * 2 ^ (ey + 149))
                             = Pos.compare_cont Eq mx my).
    { intros <-. change (Pos.compare_cont Eq mx my) with (Zpos mx ?= Zpos my).
      assert (0 < 2 ^ (ex + 149))
        by (apply Z.pow_pos_nonneg; destruct (bounded_representable mx ex Hx); lia).
      destruct (Z.compare_spec (Zpos mx) (Zpos my)) as [E|E|E];
        [rewrite E; apply Z.compare_refl | apply Z.compare_lt_iff; nia
        | apply Z.compare_gt_iff; nia]. }
    unfold SFcompare, F32.scaled.
    destruct sx, sy; cbn [cond_Zopp]; f_equal; symmetry.
    + rewrite Z.compare_opp. destruct (Z.compare_spec ex ey) as [E|E|E].
      * rewrite Z.compare_antisym, (Heq E). reflexivity.
      * apply Z.compare_gt_iff. apply bounded_exponent_lt; assumption.
      * apply Z.compare_lt_iff. apply bounded_exponent_lt; assumption.
    + apply Z.compare_lt_iff. lia.
    + apply Z.compare_gt_iff. lia.
    + destruct (Z.compare_spec ex ey) as [E|E|E].
      * apply Heq, E.
      * apply Z.compare_lt_iff. apply bounded_exponent_lt; assumption.
      * apply Z.compare_gt_iff. apply bounded_exponent_lt; assumption.
Qed.

Lemma F32_ltb_scaled x y :
  F32.valid x = true -> F32.valid y = true ->
  F32.is_finite x = true -> F32.is_finite y = true ->
  F32.ltb x y = (F32.scaled x <? F32.scaled y).
Proof.
  intros. unfold F32.ltb, SFltb, Z.ltb. rewrite SFcompare_scaled by assumption.
  reflexivity.
Qed.

Lemma F32_leb_scaled x y :
  F32.valid x = true -> F32.valid y = true ->
  F32.is_finite x = true -> F32.is_finite y = true ->
  F32.leb x y = (F32.scaled x <=? F32.scaled y).
Proof.
  intros. unfold F32.leb, SFleb, Z.leb. rewrite SFcompare_scaled by assumption.
  destruct (F32.scaled x ?= F32.scaled y); reflexivity.
Qed.

(** ** binary32: sums and differences *)

Lemma Zdigits2_below V k : 0 < V -> V < 2 ^ k -> Zdigits2 V <= k.
Proof.
  intros HV Hk. destruct (Zdigits2_pos V HV) as [[Hlo _] _].
  destruct (Z.le_gt_cases (Zdigits2 V) k) as [H|H]; [exact H|exfalso].
  assert (2 ^ k <= 2 ^ (Zdigits2 V - 1)) by (apply Z.pow_le_mono_r; lia). lia.
Qed.

Lemma binary_normalize_spec n e sz :
  -149 <= e -> Z.abs n * 2 ^ (e + 149) < 2 ^ 276 ->
  let r := binary_normalize F32.prec F32.emax n e sz in
  F32.valid r = true /\ F32.is_finite r = true /\
  rounded (n * 2 ^ (e + 149)) (F32.scaled r).
Proof.
  intros He Hn r. subst r.
  assert (H2 : 0 < 2 ^ (e + 149)) by (apply Z.pow_pos_nonneg; lia).
  destruct n as [|m|m]; cbn [binary_normalize].
  - repeat split. left. split; reflexivity.
  - assert (HD : Zpos (digits2_pos m) + e <= 127).
    { pose proof (Zdigits2_below (Zpos m * 2 ^ (e + 149)) 276 ltac:(lia) Hn) as Hd.
      rewrite Zdigits2_shift in Hd by lia. lia. }
    destruct (binary_round_spec false m e He HD) as (R & Hr & Hround).
    destruct (rounds_to_scaled _ _ _ Hr) as (Hv & Hf & Hs & HR).
    split; [exact Hv|]. split; [exact Hf|]. right. left.
    split; [lia|]. rewrite Hs. exact Hround.
  - assert (HD : Zpos (digits2_pos m) + e <= 127).
    { pose proof (Zdigits2_below (Zpos m * 2 ^ (e + 149)) 276 ltac:(lia) Hn) as Hd.
      rewrite Zdigits2_shift in Hd by lia. lia. }
    destruct (binary_round_spec true m e He HD) as (R & Hr & Hround).
    destruct (rounds_to_scaled _ _ _ Hr) as (Hv & Hf & Hs & HR).
    split; [exact Hv|]. split; [exact Hf|]. right. right.
    split; [lia|]. rewrite Hs. cbn [cond_Zopp]. rewrite Z.opp_involutive.
    replace (- (Zneg m * 2 ^ (e + 149))) with (Zpos m * 2 ^ (e + 149)) by lia.
    exact Hround.
Qed.

Lemma rounding_of_refl V : representable V -> rounding_of V V.
Proof.
  intros H. pose proof (spacing_pos V). repeat split; try lia.
  apply Z.mod_divide; [lia | exact H].
Qed.

Lemma rounding_of_exact V R : rounding_of V R -> representable V -> R = V.
Proof.
  intros (_ & _ & H) Hr. apply H. pose proof (spacing_pos V).
  apply Z.mod_divide; [lia | exact Hr].
Qed.

Lemma rounded_refl x :
  F32.valid x = true -> F32.is_finite x = true ->
  rounded (F32.scaled x) (F32.scaled x).
Proof.
  destruct x as [s|s| |s m e]; try discriminate; intros Hv _.
  - left. split; reflexivity.
  - destruct (bounded_representable m e Hv) as (_ & _ & Hr & Hp).
    unfold F32.scaled. destruct s; cbn [cond_Zopp].
    + right. right. split; [lia|]. rewrite Z.opp_involutive. apply rounding_of_refl, Hr.
    + right. left. split; [lia|]. apply rounding_of_refl, Hr.
Qed.

Lemma shl_align_scaled m e e' :
  -149 <= e' <= e ->
  Zpos (fst (shl_align m e e')) * 2 ^ (e' + 149) = Zpos m * 2 ^ (e + 149).
Proof.
  intros H. destruct (shl_align_spec m e e') as [_ ->].
  replace (Z.min e e') with e' by lia.
  rewrite <- Z.mul_assoc, <- Z.pow_add_r by lia. f_equal. f_equal. lia.
Qed.

Lemma cond_Zopp_mul s a b : cond_Zopp s a * b = cond_Zopp s (a * b).
Proof. destruct s; simpl; lia. Qed.

Lemma F32_add_spec x y :
  F32.valid x = true -> F32.valid y = true ->
  F32.is_finite x = true -> F32.is_finite y = true ->
  Z.abs (F32.scaled x + F32.scaled y) < 2 ^ 276 ->
  F32.valid (F32.add x y) = true /\ F32.is_finite (F32.add x y) = true /\
  rounded (F32.scaled x + F32.scaled y) (F32.scaled (F32.add x y)).
Proof.
  intros Hx Hy Hfx Hfy Hb.
  destruct x as [sx|sx| |sx mx ex]; try discriminate;
  destruct y as [sy|sy| |sy my ey]; try discriminate.
  - destruct sx, sy; repeat split; left; split; reflexivity.
  - split; [exact Hy|]. split; [reflexivity|]. apply (rounded_refl _ Hy Hfy).
  - split; [exact Hx|]. split; [reflexivity|]. cbn [F32.add SFadd].
    replace (F32.scaled (S754_finite sx mx ex) + F32.scaled (S754_zero sy))
      with (F32.scaled (S754_finite sx mx ex)) by (simpl; lia).
    apply (rounded_refl _ Hx Hfx).
  - destruct (bounded_representable mx ex Hx) as (Hex & _).
    destruct (bounded_representable my ey Hy) as (Hey & _).
    unfold F32.add, SFadd. set (ez := Z.min ex ey).
    assert (Hv : (cond_Zopp sx (Zpos (fst (shl_align mx ex ez))) +
                  cond_Zopp sy (Zpos (fst (shl_align my ey ez)))) * 2 ^ (ez + 149)
                 = F32.scaled (S754_finite sx mx ex) + F32.scaled (S754_finite sy my ey)).
    { rewrite Z.mul_add_distr_r, !cond_Zopp_mul, !shl_align_scaled by (unfold ez; lia).
      reflexivity. }
    rewrite <- Hv. apply binary_normalize_spec; [unfold ez; lia|].
    rewrite <- Hv in Hb. rewrite Z.abs_mul in Hb.
    rewrite (Z.abs_eq (2 ^ (ez + 149))) in Hb by (apply Z.pow_nonneg; lia). exact Hb.
Qed.

Lemma F32_sub_spec x y :
  F32.valid x = true -> F32.valid y = true ->
  F32.is_finite x = true -> F32.is_finite y = true ->
  Z.abs (F32.scaled x - F32.scaled y) < 2 ^ 276 ->
  F32.valid (F32.sub x y) = true /\ F32.is_finite (F32.sub x y) = true /\
  rounded (F32.scaled x - F32.scaled y) (F32.scaled (F32.sub x y)).
Proof.
  intros Hx Hy Hfx Hfy Hb.
  destruct x as [sx|sx| |sx mx ex]; try discriminate;
  destruct y as [sy|sy| |sy my ey]; try discriminate.
  - destruct sx, sy; repeat split; left; split; reflexivity.
  - cbn [F32.sub SFsub].
    assert (Hs : F32.scaled (S754_zero sx) - F32.scaled (S754_finite sy my ey)
                 = F32.scaled (S754_finite (negb sy) my ey))
      by (destruct sy; simpl; lia).
    rewrite Hs. split; [exact Hy|]. split; [reflexivity|].
    apply rounded_refl; [exact Hy | reflexivity].
  - split; [exact Hx|]. split; [reflexivity|]. cbn [F32.sub SFsub].
    replace (F32.scaled (S754_finite sx mx ex) - F32.scaled (S754_zero sy))
      with (F32.scaled (S754_finite sx mx ex)) by (simpl; lia).
    apply (rounded_refl _ Hx Hfx).
  - destruct (bounded_representable mx ex Hx) as (Hex & _).
    destruct (bounded_representable my ey Hy) as (Hey & _).
    unfold F32.sub, SFsub. set (ez := Z.min ex ey).
    assert (Hv : (cond_Zopp sx (Zpos (fst (shl_align mx ex ez))) -
                  cond_Zopp sy (Zpos (fst (shl_align my ey ez)))) * 2 ^ (ez + 149)
                 = F32.scaled (S754_finite sx mx ex) - F32.scaled (S754_finite sy my ey)).
    { rewrite Z.mul_sub_distr_r, !cond_Zopp_mul, !shl_align_scaled by (unfold ez; lia).
      reflexivity. }
    rewrite <- Hv. apply binary_normalize_spec; [unfold ez; lia|].
    rewrite <- Hv in Hb. rewrite Z.abs_mul in Hb.
    rewrite (Z.abs_eq (2 ^ (ez + 149))) in Hb by (apply Z.pow_nonneg; lia). exact Hb.
Qed.

(** ** binary32: the remainder *)

Lemma representable_small k j :
  0 < k < 2 ^ 24 -> 0 <= j -> representable (k * 2 ^ j).
Proof.
  intros [Hk Hk24] Hj. destruct k as [|p|p]; try lia.
  unfold representable, spacing. rewrite Zdigits2_shift by lia.
  pose proof (Zdigits2_below (Zpos p) 24 Hk Hk24) as Hd. simpl Zdigits2 in Hd.
  exists (Zpos p * 2 ^ (j - Z.max (Zpos (digits2_pos p) + j - 24) 0)).
  rewrite <- Z.mul_assoc, <- Z.pow_add_r by lia. f_equal. f_equal. lia.
Qed.

Lemma bounded_mantissa m e :
  bounded F32.prec F32.emax m e = true -> Zpos m < 2 ^ 24.
Proof.
  unfold bounded, canonical_mantissa. rewrite fexp32. intros H.
  apply andb_true_iff in H as [Hc _]. apply Z.eqb_eq in Hc.
  pose proof (digits2_pos_bounds m) as [_ Hhi].
  assert (2 ^ Zpos (digits2_pos m) <= 2 ^ 24) by (apply Z.pow_le_mono_r; lia). lia.
Qed.

Lemma F32_fmodf_spec x y :
  F32.valid x = true -> F32.valid y = true ->
  F32.is_finite x = true -> F32.is_finite y = true ->
  F32.scaled y <> 0 -> Z.abs (F32.scaled x) < 2 ^ 276 ->
  F32.valid (F32.fmodf x y) = true /\ F32.is_finite (F32.fmodf x y) = true /\
  F32.scaled (F32.fmodf x y) = Z.rem (F32.scaled x) (F32.scaled y).
Proof.
  intros Hx Hy Hfx Hfy Hy0 Hb.
  destruct x as [sx|sx| |sx mx ex]; try discriminate;
  destruct y as [sy|sy| |sy my ey]; try discriminate; try (simpl in Hy0; lia).
  - repeat split.
  - destruct (bounded_representable mx ex Hx) as (Hex & _ & _ & Hpx).
    destruct (bounded_representable my ey Hy) as (Hey & _ & _ & Hpy).
    pose proof (bounded_mantissa mx ex Hx) as Hmx.
    pose proof (bounded_mantissa my ey Hy) as Hmy.
    unfold F32.fmodf. set (ez := Z.min ex ey).
    set (X := Zpos (fst (shl_align mx ex ez))).
    set (Y := Zpos (fst (shl_align my ey ez))).
    assert (HX : X * 2 ^ (ez + 149) = Zpos mx * 2 ^ (ex + 149))
      by (apply shl_align_scaled; unfold ez; lia).
    assert (HY : Y * 2 ^ (ez + 149) = Zpos my * 2 ^ (ey + 149))
      by (apply shl_align_scaled; unfold ez; lia).
    assert (Hu : 0 < 2 ^ (ez + 149)) by (apply Z.pow_pos_nonneg; unfold ez; lia).
    assert (HXpos : 0 < X) by (unfold X; lia).
    assert (HYpos : 0 < Y) by (unfold Y; lia).
    pose proof (Z.rem_bound_pos X Y ltac:(lia) HYpos) as [Hr0 HrY].
    assert (HrX : Z.rem X Y <= X) by (apply Z.rem_le; lia).
    (* the remainder has at most 24 bits *)
    assert (Hr24 : Z.rem X Y < 2 ^ 24).
    { destruct (Z.le_ge_cases ex ey) as [Hle|Hge].
      - assert (X = Zpos mx); [|lia].
        unfold X. destruct (shl_align_spec mx ex ez) as [_ ->].
        replace (Z.min ex ez) with ex by (unfold ez; lia).
        rewrite Z.sub_diag. simpl. lia.
      - assert (Y = Zpos my); [|lia].
        unfold Y. destruct (shl_align_spec my ey ez) as [_ ->].
        replace (Z.min ey ez) with ey by (unfold ez; lia).
        rewrite Z.sub_diag. simpl. lia. }
    (* the value of the result *)
    assert (Hval : cond_Zopp sx (Z.rem X Y) * 2 ^ (ez + 149)
                   = Z.rem (F32.scaled (S754_finite sx mx ex))
                           (F32.scaled (S754_finite sy my ey))).
    { unfold F32.scaled. rewrite <- HX, <- HY.
      assert (Hpp : Z.rem (X * 2 ^ (ez + 149)) (Y * 2 ^ (ez + 149))
                    = Z.rem X Y * 2 ^ (ez + 149))
        by (apply Z.mul_rem_distr_r; lia).
      destruct sx, sy; cbn [cond_Zopp];
        rewrite ?Z.rem_opp_l', ?Z.rem_opp_r', Hpp; lia. }
    assert (Hn : Z.abs (cond_Zopp sx (Z.rem X Y)) * 2 ^ (ez + 149) < 2 ^ 276).
    { assert (Z.abs (cond_Zopp sx (Z.rem X Y)) = Z.rem X Y) by (destruct sx; simpl; lia).
      assert (Z.abs (F32.scaled (S754_finite sx mx ex)) = X * 2 ^ (ez + 149))
        by (unfold F32.scaled; destruct sx; cbn [cond_Zopp]; lia).
      nia. }
    destruct (binary_normalize_spec (cond_Zopp sx (Z.rem X Y)) ez sx
                ltac:(unfold ez; lia) Hn) as (Hv & Hf & Hround).
    split; [exact Hv|]. split; [exact Hf|]. rewrite <- Hval.
    destruct Hround as [[Hv0 H0]|[[Hp Hr]|[Hp Hr]]].
    + rewrite H0, Hv0. reflexivity.
    + apply rounding_of_exact in Hr; [exact Hr|].
      assert (0 < cond_Zopp sx (Z.rem X Y)) by nia.
      apply representable_small; [destruct sx; simpl in *; lia | unfold ez; lia].
    + apply rounding_of_exact in Hr; [lia|].
      assert (cond_Zopp sx (Z.rem X Y) < 0) by nia.
      rewrite <- Z.mul_opp_l.
      apply representable_small; [destruct sx; simpl in *; lia | unfold ez; lia].
Qed.

(** ** binary32: bounds on rounded values *)

Lemma rounded_sign v s :
  rounded v s -> (0 < v -> 0 < s) /\ (v < 0 -> s < 0) /\ (v = 0 -> s = 0).
Proof.
  intros [[-> ->]|[[Hp Hr]|[Hp Hr]]]; repeat split; try lia; intros _.
  - apply (rounding_pos _ _ Hr Hp).
  - pose proof (rounding_pos _ _ Hr ltac:(lia)). lia.
Qed.

Lemma rounded_upper v s B :
  rounded v s -> v <= B -> 0 <= B -> representable B -> s <= B.
Proof.
  intros H Hv HB Hrep. destruct (rounded_sign v s H) as (_ & Hn & Hz).
  destruct H as [[-> ->]|[[Hp Hr]|[Hp Hr]]]; [lia | | lia].
  apply (rounding_le v s B Hr Hp Hv Hrep).
Qed.

Lemma rounded_lower v s B :
  rounded v s -> - B <= v -> 0 <= B -> representable B -> - B <= s.
Proof.
  intros H Hv HB Hrep. destruct (rounded_sign v s H) as (Hp' & _ & _).
  destruct H as [[-> ->]|[[Hp Hr]|[Hp Hr]]]; [lia | lia |].
  pose proof (rounding_le (- v) (- s) B Hr ltac:(lia) ltac:(lia) Hrep). lia.
Qed.

Lemma rounded_above v s B :
  rounded v s -> 0 < B -> B <= v -> representable B -> B <= s.
Proof.
  intros H HB Hv Hrep.
  destruct H as [[-> ->]|[[Hp Hr]|[Hp Hr]]]; [lia | | lia].
  apply (rounding_ge v s B Hr HB Hv Hrep).
Qed.

Lemma rounded_below v s B :
  rounded v s -> 0 < B -> v <= - B -> representable B -> s <= - B.
Proof.
  intros H HB Hv Hrep.
  destruct H as [[-> ->]|[[Hp Hr]|[Hp Hr]]]; [lia | lia |].
  pose proof (rounding_ge (- v) (- s) B Hr HB ltac:(lia) Hrep). lia.
Qed.

Lemma valid_representable x :
  F32.valid x = true -> F32.is_finite x = true -> F32.scaled x <> 0 ->
  representable (Z.abs (F32.scaled x)).
Proof.
  destruct x as [s|s| |s m e]; try discriminate; intros Hv _ H0; [simpl in H0; lia|].
  destruct (bounded_representable m e Hv) as (_ & _ & Hr & Hp).
  unfold F32.scaled. destruct s; cbn [cond_Zopp].
  - rewrite Z.abs_opp, Z.abs_eq by lia. exact Hr.
  - rewrite Z.abs_eq by lia. exact Hr.
Qed.

(** A representable magnitude of at least [2^(j+23)] is a multiple of [2^j]. *)
Lemma representable_grid V j :
  representable V -> 0 <= j -> 2 ^ (j + 23) <= V -> (2 ^ j | V).
Proof.
  intros Hr Hj HV. eapply Z.divide_trans; [|exact Hr].
  assert (H2 : 0 < 2 ^ (j + 23)) by (apply Z.pow_pos_nonneg; lia).
  destruct (Zdigits2_pos V ltac:(lia)) as [[_ Hhi] _].
  assert (Hd : j + 24 <= Zdigits2 V).
  { destruct (Z.le_gt_cases (j + 24) (Zdigits2 V)) as [H|H]; [exact H|exfalso].
    assert (2 ^ Zdigits2 V <= 2 ^ (j + 23)) by (apply Z.pow_le_mono_r; lia). lia. }
  unfold spacing. exists (2 ^ (Z.max (Zdigits2 V - 24) 0 - j)).
  rewrite <- Z.pow_add_r by lia. f_equal. lia.
Qed.

(** The largest binary32 number below a representable bound [B] that is a
    multiple of [2^j] and at least [2^(j+24)] is [B - 2^j]. *)
Lemma representable_below V B j :
  representable V -> 0 <= j -> 0 <= V < B -> (2 ^ j | B) -> 2 ^ (j + 23) < B ->
  V <= B - 2 ^ j.
Proof.
  intros Hr Hj HV HB Hbig.
  assert (H2 : 0 < 2 ^ j) by (apply Z.pow_pos_nonneg; lia).
  assert (Hp : 2 ^ (j + 23) = 2 ^ j * 2 ^ 23) by (apply Z.pow_add_r; lia).
  destruct (Z.le_gt_cases (2 ^ (j + 23)) V) as [Hge|Hlt].
  - apply (multiple_le (2 ^ j)); [exact H2 | apply representable_grid; assumption | | lia].
    apply Z.divide_sub_r; [exact HB | apply Z.divide_refl].
  - (* below the binade of [B] there is room for a whole step *)
    destruct HB as [b Hb]. assert (2 ^ 23 < b) by nia. nia.
Qed.

(** ** The shortest delta (C1) *)

Lemma in_range_scaled x hi :
  F32.valid x = true -> F32.valid hi = true -> F32.is_finite hi = true ->
  F32.leb F32.zero x && F32.ltb x hi = true ->
  F32.is_finite x = true /\ 0 <= F32.scaled x < F32.scaled hi.
Proof.
  intros Hv Hvh Hfh H. apply andb_true_iff in H as [Hlo Hhi].
  assert (Hf : F32.is_finite x = true).
  { destruct x as [s|[]| |s m e]; try reflexivity; try discriminate Hlo.
    destruct hi as [?|?| |? ? ?]; discriminate. }
  split; [exact Hf|].
  rewrite F32_leb_scaled in Hlo by auto. rewrite F32_ltb_scaled in Hhi by auto.
  apply Z.leb_le in Hlo. apply Z.ltb_lt in Hhi. simpl F32.scaled in Hlo. lia.
Qed.

(** The delta that [WRRotatorMoveTo] computes lies in [-180, 180), in
    single-precision arithmetic, for every target and every current angle in
    [0, 360). *)
Lemma shortest_delta_in_range angle currentAngle :
  F32.valid angle = true -> F32.valid currentAngle = true ->
  F32.leb F32.zero angle && F32.ltb angle F32.f360 = true ->
  F32.leb F32.zero currentAngle && F32.ltb currentAngle F32.f360 = true ->
  F32.leb (F32.opp F32.f180) (shortest_delta angle currentAngle)
  && F32.ltb (shortest_delta angle currentAngle) F32.f180 = true.
Proof.
  intros Hvt Hvc Hrt Hrc.
  destruct (in_range_scaled angle F32.f360 Hvt eq_refl eq_refl Hrt) as [Hft HT].
  destruct (in_range_scaled currentAngle F32.f360 Hvc eq_refl eq_refl Hrc) as [Hfc HC].
  (* the constants, in units of u = 2^133 above the smallest number *)
  assert (H180 : F32.scaled F32.f180 = 11796480 * 2 ^ 133) by reflexivity.
  assert (H360 : F32.scaled F32.f360 = 23592960 * 2 ^ 133) by reflexivity.
  assert (Hm180 : F32.scaled (F32.opp F32.f180) = - (11796480 * 2 ^ 133)) by reflexivity.
  assert (Hu134 : 2 ^ 134 = 2 * 2 ^ 133) by reflexivity.
  assert (Hu135 : 2 ^ 135 = 4 * 2 ^ 133) by reflexivity.
  assert (Hu156 : 2 ^ (133 + 23) = 8388608 * 2 ^ 133) by reflexivity.
  assert (Hu157 : 2 ^ (134 + 23) = 16777216 * 2 ^ 133) by reflexivity.
  assert (Hbig : 1000000000 * 2 ^ 133 < 2 ^ 276) by reflexivity.
  assert (Hu : 0 < 2 ^ 133) by reflexivity.
  assert (Ra : representable (11796479 * 2 ^ 134))
    by (apply representable_small; [split; reflexivity | lia]).
  assert (Rb : representable (11796478 * 2 ^ 133))
    by (apply representable_small; [split; reflexivity | lia]).
  assert (Rc : representable (11796479 * 2 ^ 133))
    by (apply representable_small; [split; reflexivity | lia]).
  assert (Rd : representable (11796480 * 2 ^ 133))
    by (apply representable_small; [split; reflexivity | lia]).
  assert (Re : representable (8847360 * 2 ^ 135))
    by (apply representable_small; [split; reflexivity | lia]).
  assert (Rf : representable (1 * 2 ^ 133))
    by (apply representable_small; [split; reflexivity | lia]).
  assert (D360 : (2 ^ 134 | 23592960 * 2 ^ 133))
    by (exists 11796480; rewrite Hu134; lia).
  rewrite H360 in HT, HC.
  (* a number below 360 is at most 360 - 2^-15 *)
  assert (G1 : forall x, F32.valid x = true -> F32.is_finite x = true ->
                 0 <= F32.scaled x < 23592960 * 2 ^ 133 ->
                 F32.scaled x <= 11796479 * 2 ^ 134).
  { intros x Hvx Hfx Hx. destruct (Z.eq_dec (F32.scaled x) 0) as [E|E]; [lia|].
    pose proof (valid_representable x Hvx Hfx E) as Hr.
    rewrite Z.abs_eq in Hr by lia.
    pose proof (representable_below _ _ 134 Hr ltac:(lia) Hx D360 ltac:(lia)). lia. }
  pose proof (G1 _ Hvt Hft HT) as HT'. pose proof (G1 _ Hvc Hfc HC) as HC'.
  unfold shortest_delta.
  set (T := F32.scaled angle) in *. set (C := F32.scaled currentAngle) in *.
  (* delta = angle - currentAngle *)
  destruct (F32_sub_spec angle currentAngle Hvt Hvc Hft Hfc) as (Hvd & Hfd & Hrd).
  { fold T C. lia. }
  fold T C in Hrd. set (d := F32.sub angle currentAngle) in *.
  set (Dv := F32.scaled d) in *.
  pose proof (rounded_upper _ _ (11796479 * 2 ^ 134) Hrd ltac:(lia) ltac:(lia) Ra) as HDhi.
  pose proof (rounded_lower _ _ (11796479 * 2 ^ 134) Hrd ltac:(lia) ltac:(lia) Ra) as HDlo.
  (* delta + 180 *)
  destruct (F32_add_spec d F32.f180 Hvd eq_refl Hfd eq_refl) as (Hvx & Hfx & Hrx).
  { fold Dv. rewrite H180. lia. }
  fold Dv in Hrx. rewrite H180 in Hrx. set (x := F32.add d F32.f180) in *.
  set (Xv := F32.scaled x) in *.
  assert (HXbig : Z.abs Xv < 2 ^ 276).
  { pose proof (rounded_upper _ _ (8847360 * 2 ^ 135) Hrx ltac:(lia) ltac:(lia) Re).
    pose proof (rounded_lower _ _ (8847360 * 2 ^ 135) Hrx ltac:(lia) ltac:(lia) Re). lia. }
  (* fmodf(delta + 180, 360) *)
  destruct (F32_fmodf_spec x F32.f360 Hvx eq_refl Hfx eq_refl) as (Hvr & Hfr & Hsr).
  { rewrite H360. lia. } { exact HXbig. }
  fold Xv in Hsr. rewrite H360 in Hsr. set (r := F32.fmodf x F32.f360) in *.
  rewrite (F32_ltb_scaled r F32.zero Hvr eq_refl Hfr eq_refl).
  change (F32.scaled F32.zero) with 0.
  destruct (Z.lt_ge_cases (Dv + 11796480 * 2 ^ 133) 0) as [Hneg|Hpos].
  - (* the sum is negative: the remainder is the sum itself *)
    assert (HDgrid : Dv <= - (11796480 * 2 ^ 133) - 2 ^ 133).
    { assert (E : F32.scaled d <> 0) by (fold Dv; lia).
      pose proof (valid_representable d Hvd Hfd E) as Hr. fold Dv in Hr.
      rewrite Z.abs_neq in Hr by lia.
      pose proof (representable_grid _ 133 Hr ltac:(lia) ltac:(lia)) as Hg.
      assert (- Dv - 2 ^ 133 >= 11796480 * 2 ^ 133); [|lia].
      assert (11796480 * 2 ^ 133 <= - Dv - 2 ^ 133); [|lia].
      apply (multiple_le (2 ^ 133)); [lia | exists 11796480; lia | | lia].
      apply Z.divide_sub_r; [exact Hg | apply Z.divide_refl]. }
    pose proof (rounded_below _ _ (1 * 2 ^ 133) Hrx ltac:(lia) ltac:(lia) Rf) as HXhi.
    pose proof (rounded_lower _ _ (11796478 * 2 ^ 133) Hrx ltac:(lia) ltac:(lia) Rb) as HXlo.
    assert (Hrem : F32.scaled r = Xv).
    { rewrite Hsr. rewrite <- (Z.opp_involutive Xv), Z.rem_opp_l' .
      rewrite Z.rem_small by lia. reflexivity. }
    replace (F32.scaled r <? 0) with true by (symmetry; apply Z.ltb_lt; lia).
    destruct (F32_add_spec r F32.f180 Hvr eq_refl Hfr eq_refl) as (Hvz & Hfz & Hrz).
    { rewrite Hrem, H180. lia. }
    rewrite Hrem, H180 in Hrz.
    pose proof (rounded_upper _ _ (11796479 * 2 ^ 133) Hrz ltac:(lia) ltac:(lia) Rc) as Hzhi.
    destruct (rounded_sign _ _ Hrz) as (Hzpos & _ & _).
    rewrite F32_leb_scaled, F32_ltb_scaled by auto. rewrite Hm180, H180.
    apply andb_true_iff. split; [apply Z.leb_le | apply Z.ltb_lt]; lia.
  - (* the sum is not negative: the remainder lies in [0, 360) *)
    pose proof (rounded_upper _ _ (8847360 * 2 ^ 135) Hrx ltac:(lia) ltac:(lia) Re) as HXhi.
    assert (HX0 : 0 <= Xv).
    { destruct (rounded_sign _ _ Hrx) as (Hp & _ & Hz).
      destruct (Z.eq_dec (Dv + 11796480 * 2 ^ 133) 0); lia. }
    pose proof (Z.rem_bound_pos Xv (23592960 * 2 ^ 133) HX0 ltac:(lia)) as Hrb.
    rewrite <- Hsr in Hrb.
    replace (F32.scaled r <? 0) with false by (symmetry; apply Z.ltb_ge; lia).
    pose proof (G1 r Hvr Hfr Hrb) as Hr'.
    destruct (F32_sub_spec r F32.f180 Hvr eq_refl Hfr eq_refl) as (Hvz & Hfz & Hrz).
    { rewrite H180. lia. }
    rewrite H180 in Hrz.
    pose proof (rounded_upper _ _ (11796478 * 2 ^ 133) Hrz ltac:(lia) ltac:(lia) Rb) as Hzhi.
    pose proof (rounded_lower _ _ (11796480 * 2 ^ 133) Hrz ltac:(lia) ltac:(lia) Rd) as Hzlo.
    rewrite F32_leb_scaled, F32_ltb_scaled by auto. rewrite Hm180, H180.
    apply andb_true_iff. split; [apply Z.leb_le | apply Z.ltb_lt]; lia.
Qed.

Lemma rounded_exact v s k j :
  rounded v s -> v = k * 2 ^ j -> Z.abs k < 2 ^ 24 -> 0 <= j -> s = v.
Proof.
  intros H -> Hk Hj. assert (H2 : 0 < 2 ^ j) by (apply Z.pow_pos_nonneg; lia).
  destruct H as [[-> ->]|[[Hp Hr]|[Hp Hr]]]; [reflexivity | |].
  - apply (rounding_of_exact _ _ Hr). apply representable_small; [nia | lia].
  - assert (- s = - (k * 2 ^ j)); [|lia].
    apply (rounding_of_exact _ _ Hr). rewrite <- Z.mul_opp_l.
    apply representable_small; [nia | lia].
Qed.

(** Angles that are whole multiples of [2^-14] degree: every operation of
    the normalisation is exact on them. *)
Lemma dyadic14_spec a :
  Z.abs a < 2 ^ 24 ->
  F32.valid (F32.dyadic a 14) = true /\ F32.is_finite (F32.dyadic a 14) = true /\
  F32.scaled (F32.dyadic a 14) = a * 2 ^ 135.
Proof.
  intros Ha. unfold F32.dyadic.
  destruct (binary_normalize_spec a (- (14)) false ltac:(lia)) as (Hv & Hf & Hr).
  { change (2 ^ (- (14) + 149)) with (2 ^ 135).
    assert (2 ^ 24 * 2 ^ 135 < 2 ^ 276) by reflexivity.
    assert (0 < 2 ^ 135) by reflexivity. nia. }
  split; [exact Hv|]. split; [exact Hf|].
  change (2 ^ (- (14) + 149)) with (2 ^ 135) in Hr.
  apply (rounded_exact _ _ a 135 Hr); [reflexivity | exact Ha | lia].
Qed.

Lemma shortest_delta_on_grid a b :
  0 <= a < 5898240 -> 0 <= b < 5898240 ->
  F32.scaled (shortest_delta (F32.dyadic a 14) (F32.dyadic b 14))
  = ((a - b + 2949120) mod 5898240 - 2949120) * 2 ^ 135.
Proof.
  intros Ha Hb.
  assert (H24 : 2 ^ 24 = 16777216) by reflexivity.
  destruct (dyadic14_spec a ltac:(lia)) as (Hva & Hfa & Hsa).
  destruct (dyadic14_spec b ltac:(lia)) as (Hvb & Hfb & Hsb).
  assert (Hw : 0 < 2 ^ 135) by reflexivity.
  assert (Hbig : 1000000000 * 2 ^ 135 < 2 ^ 276) by reflexivity.
  assert (H180 : F32.scaled F32.f180 = 2949120 * 2 ^ 135) by reflexivity.
  assert (H360 : F32.scaled F32.f360 = 5898240 * 2 ^ 135) by reflexivity.
  unfold shortest_delta.
  set (t := F32.dyadic a 14) in *. set (c := F32.dyadic b 14) in *.
  destruct (F32_sub_spec t c Hva Hvb Hfa Hfb) as (Hvd & Hfd & Hrd).
  { rewrite Hsa, Hsb. nia. }
  rewrite Hsa, Hsb in Hrd.
  apply (rounded_exact _ _ (a - b) 135) in Hrd; [|lia|lia|lia].
  set (d := F32.sub t c) in *.
  destruct (F32_add_spec d F32.f180 Hvd eq_refl Hfd eq_refl) as (Hvx & Hfx & Hrx).
  { rewrite Hrd, H180. nia. }
  rewrite Hrd, H180 in Hrx.
  apply (rounded_exact _ _ (a - b + 2949120) 135) in Hrx; [|lia|lia|lia].
  set (x := F32.add d F32.f180) in *.
  destruct (F32_fmodf_spec x F32.f360 Hvx eq_refl Hfx eq_refl) as (Hvr & Hfr & Hsr).
  { rewrite H360. lia. } { rewrite Hrx. nia. }
  rewrite Hrx, H360 in Hsr.
  replace (a * 2 ^ 135 - b * 2 ^ 135 + 2949120 * 2 ^ 135)
    with ((a - b + 2949120) * 2 ^ 135) in Hsr by ring.
  rewrite Z.mul_rem_distr_r in Hsr by lia.
  set (r := F32.fmodf x F32.f360) in *.
  rewrite (F32_ltb_scaled r F32.zero Hvr eq_refl Hfr eq_refl), Hsr.
  change (F32.scaled F32.zero) with 0.
  destruct (Z.lt_ge_cases (a - b + 2949120) 0) as [Hneg|Hpos].
  - assert (Hrem : Z.rem (a - b + 2949120) 5898240 = a - b + 2949120).
    { rewrite <- (Z.opp_involutive (a - b + 2949120)), Z.rem_opp_l'.
      rewrite Z.rem_small by lia. reflexivity. }
    assert (Hmod : (a - b + 2949120) mod 5898240 = a - b + 2949120 + 5898240).
    { symmetry. apply (Z.mod_unique _ _ (-1)); lia. }
    rewrite Hrem in *. rewrite Hmod.
    replace ((a - b + 2949120) * 2 ^ 135 <? 0) with true
      by (symmetry; apply Z.ltb_lt; nia).
    destruct (F32_add_spec r F32.f180 Hvr eq_refl Hfr eq_refl) as (_ & _ & Hrz).
    { rewrite Hsr, H180. nia. }
    rewrite Hsr, H180 in Hrz.
    apply (rounded_exact _ _ (a - b + 2949120 + 2949120) 135) in Hrz; [|lia|lia|lia].
    rewrite Hrz. ring.
  - assert (Hrem : Z.rem (a - b + 2949120) 5898240 = (a - b + 2949120) mod 5898240)
      by (apply Z.rem_mod_nonneg; lia).
    pose proof (Z.mod_pos_bound (a - b + 2949120) 5898240 ltac:(lia)) as Hmb.
    rewrite Hrem in *. set (n := (a - b + 2949120) mod 5898240) in *.
    replace (n * 2 ^ 135 <? 0) with false by (symmetry; apply Z.ltb_ge; nia).
    destruct (F32_sub_spec r F32.f180 Hvr eq_refl Hfr eq_refl) as (_ & _ & Hrz).
    { rewrite Hsr, H180. nia. }
    rewrite Hsr, H180 in Hrz.
    apply (rounded_exact _ _ (n - 2949120) 135) in Hrz; [|lia|lia|lia].
    rewrite Hrz. ring.
Qed.

(** A rounding moves a value by less than the spacing at its size: below
    [2^n] units that is [2^(n-24)] units. *)
Lemma rounded_error v s n :
  rounded v s -> Z.abs v < 2 ^ n -> 24 <= n -> Z.abs (s - v) < 2 ^ (n - 24).
Proof.
  intros H Hv Hn.
  assert (Hpos : 0 < 2 ^ (n - 24)) by (apply Z.pow_pos_nonneg; lia).
  assert (Hsp : forall V, 0 < V -> V < 2 ^ n -> spacing V <= 2 ^ (n - 24)).
  { intros V H0 Hlt. unfold spacing. apply Z.pow_le_mono_r; [lia|].
    pose proof (Zdigits2_below V n H0 Hlt). lia. }
  destruct H as [[-> ->]|[[Hp (_ & Hr & _)]|[Hp (_ & Hr & _)]]].
  - simpl. lia.
  - pose proof (Hsp v Hp ltac:(lia)). lia.
  - pose proof (Hsp (- v) ltac:(lia) ltac:(lia)). lia.
Qed.

(** The delta of [WRRotatorMoveTo] is the difference of target and current
    angle up to a whole turn and three roundings: in units of [2^-149]
    degree, less than [2^134 + 2^135 + 2^133]. *)
Lemma shortest_delta_error angle currentAngle :
  F32.valid angle = true -> F32.valid currentAngle = true ->
  F32.leb F32.zero angle && F32.ltb angle F32.f360 = true ->
  F32.leb F32.zero currentAngle && F32.ltb currentAngle F32.f360 = true ->
  exists k, -1 <= k <= 1 /\
    Z.abs (F32.scaled currentAngle + F32.scaled (shortest_delta angle currentAngle)
           - F32.scaled angle - k * F32.scaled F32.f360) < 7 * 2 ^ 133.
Proof.
  intros Hvt Hvc Hrt Hrc.
  destruct (in_range_scaled angle F32.f360 Hvt eq_refl eq_refl Hrt) as [Hft HT].
  destruct (in_range_scaled currentAngle F32.f360 Hvc eq_refl eq_refl Hrc) as [Hfc HC].
  assert (H180 : F32.scaled F32.f180 = 11796480 * 2 ^ 133) by reflexivity.
  assert (H360 : F32.scaled F32.f360 = 23592960 * 2 ^ 133) by reflexivity.
  assert (Hu134 : 2 ^ 134 = 2 * 2 ^ 133) by reflexivity.
  assert (Hu135 : 2 ^ 135 = 4 * 2 ^ 133) by reflexivity.
  assert (Hu157 : 2 ^ 157 = 16777216 * 2 ^ 133) by reflexivity.
  assert (Hu158 : 2 ^ 158 = 33554432 * 2 ^ 133) by reflexivity.
  assert (Hu159 : 2 ^ 159 = 67108864 * 2 ^ 133) by reflexivity.
  assert (Hbig : 1000000000 * 2 ^ 133 < 2 ^ 276) by reflexivity.
  assert (Hu : 0 < 2 ^ 133) by reflexivity.
  rewrite H360 in HT, HC |- *.
  unfold shortest_delta.
  set (T := F32.scaled angle) in *. set (C := F32.scaled currentAngle) in *.
  destruct (F32_sub_spec angle currentAngle Hvt Hvc Hft Hfc) as (Hvd & Hfd & Hrd).
  { fold T C. lia. }
  fold T C in Hrd. set (d := F32.sub angle currentAngle) in *.
  set (Dv := F32.scaled d) in *.
  pose proof (rounded_error _ _ 158 Hrd ltac:(lia) ltac:(lia)) as E1.
  change (2 ^ (158 - 24)) with (2 ^ 134) in E1.
  destruct (F32_add_spec d F32.f180 Hvd eq_refl Hfd eq_refl) as (Hvx & Hfx & Hrx).
  { fold Dv. rewrite H180. lia. }
  fold Dv in Hrx. rewrite H180 in Hrx. set (x := F32.add d F32.f180) in *.
  set (Xv := F32.scaled x) in *.
  pose proof (rounded_error _ _ 159 Hrx ltac:(lia) ltac:(lia)) as E2.
  change (2 ^ (159 - 24)) with (2 ^ 135) in E2.
  destruct (F32_fmodf_spec x F32.f360 Hvx eq_refl Hfx eq_refl) as (Hvr & Hfr & Hsr).
  { rewrite H360. lia. } { lia. }
  fold Xv in Hsr. rewrite H360 in Hsr. set (r := F32.fmodf x F32.f360) in *.
  rewrite (F32_ltb_scaled r F32.zero Hvr eq_refl Hfr eq_refl).
  change (F32.scaled F32.zero) with 0.
  pose proof (Z.rem_bound_abs Xv (23592960 * 2 ^ 133) ltac:(lia)) as Hrabs.
  pose proof (Z.quot_rem' Xv (23592960 * 2 ^ 133)) as Hqr.
  set (q := Z.quot Xv (23592960 * 2 ^ 133)) in *.
  rewrite <- Hsr in Hrabs, Hqr. set (R := F32.scaled r) in *.
  assert (Hsign : (0 <= Xv -> 0 <= R) /\ (Xv <= 0 -> R <= 0)).
  { rewrite Hsr. split; intros H0.
    - apply Z.rem_nonneg; lia.
    - apply Z.rem_nonpos; lia. }
  destruct Hsign as [Hsp Hsn].
  assert (Hq : (R < 0 -> q = 0) /\ (0 <= R -> 0 <= q <= 1)).
  { split.
    - intros Hneg. assert (Xv < 0) by lia.
      assert (- (23592960 * 2 ^ 133) < Xv) by lia. nia.
    - intros Hpos. assert (0 <= Xv) by lia. nia. }
  destruct Hq as [Hq0 Hq1].
  destruct (R <? 0) eqn:ER.
  - apply Z.ltb_lt in ER. specialize (Hq0 ER).
    destruct (F32_add_spec r F32.f180 Hvr eq_refl Hfr eq_refl) as (_ & _ & Hrz).
    { fold R. rewrite H180. lia. }
    fold R in Hrz. rewrite H180 in Hrz.
    pose proof (rounded_error _ _ 157 Hrz ltac:(lia) ltac:(lia)) as E3.
    change (2 ^ (157 - 24)) with (2 ^ 133) in E3.
    exists 1. split; [lia|]. lia.
  - apply Z.ltb_ge in ER. specialize (Hq1 ER).
    destruct (F32_sub_spec r F32.f180 Hvr eq_refl Hfr eq_refl) as (_ & _ & Hrz).
    { fold R. rewrite H180. lia. }
    fold R in Hrz. rewrite H180 in Hrz.
    pose proof (rounded_error _ _ 157 Hrz ltac:(lia) ltac:(lia)) as E3.
    change (2 ^ (157 - 24)) with (2 ^ 133) in E3.
    exists (- q). split; [lia|]. nia.
Qed.

(** C1, as the code has it: for every target and every current angle in
    [0, 360), both binary32 numbers, the delta that [WRRotatorMoveTo]
    computes lies in [-180, 180): -180 is reached and 180 is not.  When
    target and current angle are whole multiples of [2^-14] degree, [a] and
    [b] of them, every step is exact: delta is [n] such multiples with
    [n = ((a - b + 180 * 2^14) mod (360 * 2^14)) - 180 * 2^14], so that
    current + delta is congruent to the target modulo 360 degrees.  For all
    other angles of the range the congruence holds up to the three
    roundings of the subtraction and the two additions: current + delta
    differs from the target plus [k] whole turns, [k] one of -1, 0 and 1,
    by less than [7 * 2^133] units of [2^-149] degree, which is
    [7 * 2^-16] degree. *)
Theorem shortest_delta_range_and_congruence (angle currentAngle : F32.float) :
  F32.valid angle = true -> F32.valid currentAngle = true ->
  F32.leb F32.zero angle && F32.ltb angle F32.f360 = true ->
  F32.leb F32.zero currentAngle && F32.ltb currentAngle F32.f360 = true ->
  F32.leb (F32.opp F32.f180) (shortest_delta angle currentAngle)
  && F32.ltb (shortest_delta angle currentAngle) F32.f180 = true /\
  (forall a b : Z,
     0 <= a < 5898240 -> 0 <= b < 5898240 ->
     angle = F32.dyadic a 14 -> currentAngle = F32.dyadic b 14 ->
     exists n,
       F32.scaled (shortest_delta angle currentAngle) = n * 2 ^ 135 /\
       n = (a - b + 2949120) mod 5898240 - 2949120 /\
       (b + n - a) mod 5898240 = 0) /\
  (exists k : Z,
     -1 <= k <= 1 /\
     Z.abs (F32.scaled currentAngle + F32.scaled (shortest_delta angle currentAngle)
            - F32.scaled angle - k * F32.scaled F32.f360) < 7 * 2 ^ 133).
Proof.
  intros Hvt Hvc Hrt Hrc. split; [|split].
  - apply shortest_delta_in_range; assumption.
  - intros a b Ha Hb -> ->.
    exists ((a - b + 2949120) mod 5898240 - 2949120).
    split; [apply shortest_delta_on_grid; assumption|]. split; [reflexivity|].
    pose proof (Z.div_mod (a - b + 2949120) 5898240 ltac:(lia)) as Hdm.
    replace (b + ((a - b + 2949120) mod 5898240 - 2949120) - a)
      with ((- ((a - b + 2949120) / 5898240)) * 5898240) by lia.
    apply Z.mod_mul. lia.
  - apply shortest_delta_error; assumption.
Qed.

Lemma shortest_delta_range_and_congruence_witness :
  F32.scaled (shortest_delta (F32.of_int 10) (F32.of_int 350))
  = F32.scaled (F32.of_int 20) /\
  F32.ltb (shortest_delta (F32.of_int 10) (F32.of_int 350)) F32.f180 = true.
Proof.
  destruct (shortest_delta_range_and_congruence (F32.of_int 10) (F32.of_int 350))
    as (Hrange & Hgrid & _); try reflexivity.
  apply andb_true_iff in Hrange as [_ Hlt]. split; [|exact Hlt].
  destruct (Hgrid 163840 5734400) as (n & Hs & Hn & _);
    [lia | lia | reflexivity | reflexivity |].
  rewrite Hs, Hn. reflexivity.
Defined.

(** C1 as stated fails: for the target 0 and the current angle 180 the
    computed delta is -180, which is outside (-180, 180]: a Mini at 180000
    millidegrees asked to move to 0 is sent the relative move for -180
    degrees, [1000000 - 180 * 1142].  In single precision the congruence is
    not exact either: for the target 1 and the current angle 0.001 (a
    position of one millidegree), current + delta - target is not a
    multiple of 360. *)
Lemma shortest_delta_reaches_minus_180 :
  shortest_delta F32.zero F32.f180 = F32.opp F32.f180 /\
  F32.ltb (F32.opp F32.f180) (shortest_delta F32.zero F32.f180) = false /\
  (let g : gmap Z Device := {[ 0 := rotator_replying "Mini" "180000" ]} in
   (sent <$> snd (WRRotatorMoveTo scan_float_dec g 0 F32.zero) !! 0)
   = Some [handshake_probe; string_of_int (1000000 - 180 * 1142)]) /\
  (let current := F32.div (F32.of_int 1) F32.f1000 in
   let target := F32.of_int 1 in
   (F32.scaled current + F32.scaled (shortest_delta target current) - F32.scaled target)
     mod F32.scaled F32.f360 <> 0).
Proof. vm_compute. repeat split; try reflexivity. discriminate. Qed.

(** ** The conversion to [int] discards the fraction *)

Lemma Qtrunc_inject_Z z : Qtrunc (inject_Z z) = z.
Proof.
  unfold Qtrunc. destruct (Qnum (inject_Z z) <? 0); [apply Qceiling_Z | apply Qfloor_Z].
Qed.

Lemma F32_trunc_Qtrunc x : F32.trunc x = Qtrunc (F32.to_Q x).
Proof.
  destruct x as [s|s| |s m e]; try reflexivity.
  unfold F32.trunc, F32.to_Q. destruct e as [|p|p].
  - rewrite Qtrunc_inject_Z. f_equal. simpl. lia.
  - rewrite Qtrunc_inject_Z. f_equal. apply Z.shiftl_mul_pow2. lia.
  - rewrite Z.shiftr_div_pow2 by lia.
    unfold Qtrunc, Qceiling, Qfloor, Qopp. cbn [Qnum Qden].
    rewrite Pos2Z.inj_pow. destruct s; cbn [cond_Zopp].
    + replace (Zneg m <? 0) with true by reflexivity.
      rewrite Z.opp_involutive. reflexivity.
    + replace (Zpos m <? 0) with false by reflexivity. reflexivity.
Qed.

Lemma F32_to_int_Qtrunc x :
  F32.is_finite x = true ->
  INT_MIN <= Qtrunc (F32.to_Q x) <= INT_MAX ->
  F32.to_int x = Qtrunc (F32.to_Q x).
Proof.
  intros Hf Hr. unfold F32.to_int. rewrite Hf, F32_trunc_Qtrunc.
  replace (INT_MIN <=? Qtrunc (F32.to_Q x)) with true by (symmetry; apply Z.leb_le; lia).
  replace (Qtrunc (F32.to_Q x) <=? INT_MAX) with true by (symmetry; apply Z.leb_le; lia).
  reflexivity.
Qed.

Lemma wrap32_small z : INT_MIN <= z <= INT_MAX -> wrap32 z = z.
Proof.
  unfold wrap32, INT_MIN, INT_MAX. intros H. rewrite Z.mod_small by lia. lia.
Qed.

Lemma Qtrunc_nonneg q :
  (0 <= q)%Q -> (inject_Z (Qtrunc q) <= q /\ q < inject_Z (Qtrunc q + 1))%Q.
Proof.
  intros H. unfold Qtrunc.
  replace (Qnum q <? 0) with false.
  - split; [apply Qfloor_le | apply Qlt_floor].
  - symmetry. apply Z.ltb_ge. destruct q as [n d]. unfold Qle in H. simpl in *. lia.
Qed.

(** ** The backlash command (C8) *)

(** C8, as the code has it: [BacklashToCommand b] is the integer part of
    the single-precision product [b * 10], its fraction discarded, plus
    1600000, whenever that fits an [int]; for a product that is not
    negative the integer part is the floor.  In particular
    [BacklashToCommand 2.5 = 1600025] and [BacklashToCommand 0.0 = 1600000]. *)
Theorem BacklashToCommand_truncates (b : F32.float) :
  F32.is_finite (F32.mul b F32.f10) = true ->
  INT_MIN <= Qtrunc (F32.to_Q (F32.mul b F32.f10)) ->
  Qtrunc (F32.to_Q (F32.mul b F32.f10)) + 1600000 <= INT_MAX ->
  BacklashToCommand b = Qtrunc (F32.to_Q (F32.mul b F32.f10)) + 1600000 /\
  ((0 <= F32.to_Q (F32.mul b F32.f10))%Q ->
   (inject_Z (BacklashToCommand b - 1600000) <= F32.to_Q (F32.mul b F32.f10) /\
    F32.to_Q (F32.mul b F32.f10) < inject_Z (BacklashToCommand b - 1600000 + 1))%Q) /\
  BacklashToCommand (F32.dyadic 5 1) = 1600025 /\
  BacklashToCommand F32.zero = 1600000.
Proof.
  intros Hf Hlo Hhi.
  assert (Hc : BacklashToCommand b = Qtrunc (F32.to_Q (F32.mul b F32.f10)) + 1600000).
  { unfold BacklashToCommand. unfold INT_MIN, INT_MAX in *.
    rewrite F32_to_int_Qtrunc by (unfold INT_MIN, INT_MAX; auto; lia).
    apply wrap32_small. unfold INT_MIN, INT_MAX. lia. }
  split; [exact Hc|]. split; [|split; reflexivity].
  intros H0. rewrite Hc.
  replace (Qtrunc (F32.to_Q (F32.mul b F32.f10)) + 1600000 - 1600000)
    with (Qtrunc (F32.to_Q (F32.mul b F32.f10))) by lia.
  apply Qtrunc_nonneg, H0.
Qed.

Lemma BacklashToCommand_truncates_witness :
  BacklashToCommand (F32.dyadic 3 3) = 3 + 1600000.
Proof.
  destruct (BacklashToCommand_truncates (F32.dyadic 3 3)) as [H _].
  - reflexivity.
  - vm_compute. discriminate.
  - vm_compute. discriminate.
  - rewrite H. reflexivity.
Defined.

(** C8 as stated fails: for a backlash of 0.375 degree the product with 10
    is 3.75, exactly; rounded to the nearest integer it gives 1600004, and
    the code returns 1600003. *)
Lemma BacklashToCommand_does_not_round :
  F32.to_Q (F32.dyadic 3 3) == 3 # 8 /\
  Qround_nearest (F32.to_Q (F32.dyadic 3 3) * 10) + 1600000 = 1600004 /\
  BacklashToCommand (F32.dyadic 3 3) = 1600003.
Proof. repeat split; reflexivity. Qed.

(** ** The relative move command (C3) *)

Lemma digits_of_length fuel k n acc :
  (1 <= k <= fuel)%nat -> 0 <= n < 10 ^ Z.of_nat k ->
  (String.length (digits_of fuel n acc) <= k + String.length acc)%nat.
Proof.
  revert k n acc. induction fuel as [|fuel IH]; intros k n acc Hk Hn; [lia|].
  cbn [digits_of]. destruct (n <? 10) eqn:E.
  - simpl. lia.
  - apply Z.ltb_ge in E. destruct k as [|[|k]]; [lia | simpl in Hn; lia |].
    etransitivity; [apply (IH (S k)); [lia|]|simpl; lia].
    rewrite Nat2Z.inj_succ, Z.pow_succ_r in Hn by lia.
    split; [apply Z.div_pos; lia | apply Z.div_lt_upper_bound; lia].
Qed.

Lemma string_of_int_length7 v :
  -999999 <= v <= 9999999 -> (String.length (string_of_int v) <= 7)%nat.
Proof.
  intros Hv. unfold string_of_int. destruct (v <? 0) eqn:E.
  - apply Z.ltb_lt in E. simpl.
    pose proof (digits_of_length 10 6 (- v) EmptyString ltac:(lia) ltac:(simpl; lia)).
    simpl in *. lia.
  - apply Z.ltb_ge in E.
    pose proof (digits_of_length 10 7 v EmptyString ltac:(lia) ltac:(simpl; lia)).
    simpl in *. lia.
Qed.

Lemma string_of_int_length11 v : (String.length (string_of_int v) <= 11)%nat.
Proof.
  assert (H : forall fuel n acc,
             (String.length (digits_of fuel n acc) <= fuel + String.length acc)%nat).
  { induction fuel as [|fuel IH]; intros n acc; cbn [digits_of]; [lia|].
    destruct (n <? 10); [simpl; lia|]. etransitivity; [apply IH|simpl; lia]. }
  unfold string_of_int. destruct (v <? 0); cbn [String.length];
    match goal with |- context [digits_of 10 ?n ?a] => pose proof (H 10%nat n a) end;
    cbn [String.length] in *; lia.
Qed.

Lemma snprintf_fits size s :
  (String.length s < size)%nat -> snprintf size s = s.
Proof. intros H. unfold snprintf. apply take_chars_all. lia. Qed.

Lemma move_command_value_Qtrunc angle spd :
  F32.is_finite (F32.mul angle (F32.of_int spd)) = true ->
  INT_MIN <= Qtrunc (F32.to_Q (F32.mul angle (F32.of_int spd))) ->
  1000000 + Qtrunc (F32.to_Q (F32.mul angle (F32.of_int spd))) <= INT_MAX ->
  move_command_value angle spd
  = 1000000 + Qtrunc (F32.to_Q (F32.mul angle (F32.of_int spd))).
Proof.
  intros Hf Hlo Hhi. unfold move_command_value. unfold INT_MIN, INT_MAX in *.
  rewrite F32_to_int_Qtrunc by (unfold INT_MIN, INT_MAX; auto; lia).
  apply wrap32_small. unfold INT_MIN, INT_MAX. lia.
Qed.

(** C3, as the code has it: the relative move command is the decimal
    rendering of [1000000 + n], where [n] is the integer part of the
    single-precision product [angle * stepsPerDegree], its fraction
    discarded.  [WRRotatorMove] writes it whenever it has at most seven
    characters, which covers every angle between -360 and 360 degrees; the
    listener writes it for its return move, whose angle is the overshoot
    angle with the sign opposite to the target's, whenever it fits an [int]. *)
Theorem relative_move_command (g : gmap Z Device) (id : Z) (device : Device)
    (angle : F32.float) :
  g !! id = Some device ->
  port_open device = true ->
  F32.is_finite (F32.mul angle (F32.of_int (stepsPerDegree device))) = true ->
  -1999999 <= Qtrunc (F32.to_Q (F32.mul angle (F32.of_int (stepsPerDegree device))))
           <= 8999999 ->
  (exists device',
     snd (WRRotatorMove g id angle) = <[id := device']> g /\
     sent device' =
       (sent device ++
        [string_of_int
           (1000000 +
            Qtrunc (F32.to_Q (F32.mul angle (F32.of_int (stepsPerDegree device)))))])%list) /\
  (forall returnAngle,
     overshooting device = 1 ->
     returnAngle = (if F32.ltb F32.zero (targetAngle device)
                    then F32.opp (overshootAngle device) else overshootAngle device) ->
     F32.is_finite (F32.mul returnAngle (F32.of_int (stepsPerDegree device))) = true ->
     INT_MIN <= Qtrunc (F32.to_Q (F32.mul returnAngle (F32.of_int (stepsPerDegree device)))) ->
     1000000 + Qtrunc (F32.to_Q (F32.mul returnAngle (F32.of_int (stepsPerDegree device))))
       <= INT_MAX ->
     sent (fst (listener_phase device)) =
       (sent device ++
        [string_of_int
           (1000000 +
            Qtrunc (F32.to_Q (F32.mul returnAngle (F32.of_int (stepsPerDegree device)))))])%list).
Proof.
  intros Hg Ho Hf Hn. split.
  - unfold WRRotatorMove. rewrite Hg, Ho. cbn [negb].
    rewrite move_command_value_Qtrunc by (unfold INT_MIN, INT_MAX; auto; lia).
    rewrite snprintf_fits
      by (apply Nat.lt_succ_r, string_of_int_length7; lia).
    set (cmd := string_of_int _).
    destruct (SendCommand_open cmd (set_targetAngle angle device) Ho)
      as (p & p' & ok & Hp & Hw & Hs & Ht & _ & _).
    cbn [stepsPerDegree set_targetAngle] in *. rewrite Hs.
    assert (Hsent : tx p' = (sent device ++ [cmd])%list)
      by (unfold sent; simpl in Hp; rewrite Hp; exact Ht).
    destruct ok; eexists; (split; [reflexivity|]); unfold sent; simpl; exact Hsent.
  - intros returnAngle Hov -> Hfr Hlo Hhi. unfold listener_phase.
    rewrite Hov. cbn [Z.eqb Pos.eqb set_overshooting targetAngle overshootAngle stepsPerDegree].
    rewrite move_command_value_Qtrunc by assumption.
    rewrite snprintf_fits
      by (pose proof (string_of_int_length11
                        (1000000 + Qtrunc (F32.to_Q (F32.mul
                           (if F32.ltb F32.zero (targetAngle device)
                            then F32.opp (overshootAngle device)
                            else overshootAngle device)
                           (F32.of_int (stepsPerDegree device)))))); lia).
    set (cmd := string_of_int _).
    destruct (SendCommand_open cmd (set_overshooting 2 device) Ho)
      as (p & p' & ok & Hp & Hw & Hs & Ht & _ & _).
    unfold set_overshooting in Hs at 1. cbn [port portName modelType firmwareVersion
      mechanicalAngle backlash reverseDirection stepsPerDegree targetAngle lastRotated
      rotator status overshooting overshootAngle listenerRunning] in Hs.
    unfold set_overshooting. rewrite Hs.
    assert (Hsent : tx p' = (sent device ++ [cmd])%list)
      by (unfold sent; simpl in Hp; rewrite Hp; exact Ht).
    destruct ok; unfold sent; simpl; exact Hsent.
Qed.

Lemma relative_move_command_witness :
  let g : gmap Z Device := {[ 0 := opened_rotator "Mini" "0" [] ]} in
  (sent <$> snd (WRRotatorMove g 0 (F32.dyadic 5 3)) !! 0) = Some ["1000713"].
Proof.
  intros g.
  destruct (relative_move_command g 0 (opened_rotator "Mini" "0" []) (F32.dyadic 5 3))
    as [(device' & Hsnd & Hsent) _].
  - apply lookup_singleton_eq.
  - vm_compute; reflexivity.
  - vm_compute; reflexivity.
  - vm_compute. split; discriminate.
  - rewrite Hsnd, lookup_insert_eq. cbn [fmap option_fmap option_map].
    rewrite Hsent. vm_compute. reflexivity.
Defined.

(** C3 as stated fails: for a relative angle of 0.625 degree on a Mini
    (1142 steps per degree) the product is 713.75, exactly; rounding to the
    nearest integer gives the command 1000714, and [WRRotatorMove] sends
    1000713.  For -0.625 degree it sends 999287, where rounding gives 999286. *)
Lemma WRRotatorMove_does_not_round :
  let g : gmap Z Device := {[ 0 := opened_rotator "Mini" "0" [] ]} in
  (stepsPerDegree <$> g !! 0) = Some 1142 /\
  F32.to_Q (F32.dyadic 5 3) * 1142 == 2855 # 4 /\
  string_of_int (1000000 + Qround_nearest (F32.to_Q (F32.dyadic 5 3) * 1142)) = "1000714" /\
  (sent <$> snd (WRRotatorMove g 0 (F32.dyadic 5 3)) !! 0) = Some ["1000713"] /\
  string_of_int (1000000 + Qround_nearest (F32.to_Q (F32.dyadic (-5) 3) * 1142)) = "999286" /\
  (sent <$> snd (WRRotatorMove g 0 (F32.dyadic (-5) 3)) !! 0) = Some ["999287"].
Proof. vm_compute. repeat split; reflexivity. Qed.

(** ** The decimal rendering denotes the integer *)

Lemma digit_of_digit_char d : 0 <= d <= 9 -> digit_of (digit_char d) = Some d.
Proof.
  intros H. assert (Hd : d = 0 \/ d = 1 \/ d = 2 \/ d = 3 \/ d = 4 \/ d = 5 \/
                         d = 6 \/ d = 7 \/ d = 8 \/ d = 9) by lia.
  repeat (destruct Hd as [->|Hd]; [reflexivity|]). subst. reflexivity.
Qed.

(** Reading back the digits that [digits_of] puts in front of [acc] gives
    the number, whatever was read before and whatever follows. *)
Lemma scan_digits_digits_of fuel n acc a :
  0 <= n < 10 ^ Z.of_nat (S fuel) ->
  exists k, 0 <= k /\
    scan_digits (digits_of (S fuel) n acc) a
    = scan_digits acc (Some (10 ^ k * default 0 a + n)).
Proof.
  revert n acc a. induction fuel as [|fuel IH]; intros n acc a Hn;
    cbn [digits_of]; destruct (n <? 10) eqn:E;
    try (apply Z.ltb_lt in E; exists 1; split; [lia|]; cbn [scan_digits];
         rewrite Z.mod_small by lia; rewrite digit_of_digit_char by lia; reflexivity).
  - apply Z.ltb_ge in E. simpl in Hn. lia.
  - apply Z.ltb_ge in E.
    rewrite Nat2Z.inj_succ, Z.pow_succ_r in Hn by lia.
    destruct (IH (n / 10) (String (digit_char (n mod 10)) acc) a) as (k & Hk & Hs).
    { split; [apply Z.div_pos; lia | apply Z.div_lt_upper_bound; lia]. }
    cbn [digits_of] in Hs. rewrite Hs.
    exists (k + 1). split; [lia|]. cbn [scan_digits].
    pose proof (Z.mod_pos_bound n 10 ltac:(lia)).
    rewrite digit_of_digit_char by lia. cbn [default]. f_equal. f_equal.
    rewrite Z.pow_add_r by lia. change (10 ^ 1) with 10.
    pose proof (Z.div_mod n 10 ltac:(lia)). unfold id. lia.
Qed.

(** Ten digits are enough for every [int]: the rendering of a magnitude
    below [10^10] reads back as that magnitude. *)
Lemma digits_of_denotes n :
  0 <= n < 10000000000 -> scan_digits (digits_of 10 n EmptyString) None = Some n.
Proof.
  intros Hn. destruct (scan_digits_digits_of 9 n EmptyString None) as (k & _ & ->).
  - simpl. lia.
  - simpl. f_equal. lia.
Qed.

Example string_of_int_reads_back :
  scan_int (string_of_int INT_MIN) = Some INT_MIN /\
  scan_int (string_of_int INT_MAX) = Some INT_MAX.
Proof. split; reflexivity. Qed.

(** The listener reads both frames, enters the return phase and sends the
    return move of -2.5 degrees, [1000000 - 2855]; a second run, on the
    frames of the return move, settles the device. *)
Example listener_overshoot_return :
  let '(d1, respawn) := MoveListenerThreadFunc scan_float_dec overshooting_rotator in
  respawn = true /\ overshooting d1 = 2 /\ moving (status d1) = 1 /\
  mechanicalAngle d1 = 12500 /\ sent d1 = ["997145"] /\
  let d2 := set_port (Some (open_port (frames ["-2.5A"; "10000A"]) [])) d1 in
  let '(d3, respawn') := MoveListenerThreadFunc scan_float_dec d2 in
  respawn' = false /\ overshooting d3 = 0 /\ moving (status d3) = 0 /\
  listenerRunning d3 = false /\ mechanicalAngle d3 = 10000.
Proof. vm_compute. repeat split; reflexivity. Qed.

(** ** The transport: what [Read] returns and what it leaves *)

Lemma append_cons x a b : String x a ++ b = String x (a ++ b).
Proof. reflexivity. Qed.

Lemma append_nil b : EmptyString ++ b = b.
Proof. reflexivity. Qed.

Lemma append_assoc_1 a c b : (a ++ String c EmptyString) ++ b = a ++ String c b.
Proof.
  induction a as [|x a IH]; [reflexivity|]. rewrite !append_cons, IH. reflexivity.
Qed.

Lemma append_empty_r a : a ++ EmptyString = a.
Proof.
  induction a as [|x a IH]; [reflexivity|]. rewrite append_cons, IH. reflexivity.
Qed.

Lemma read_loop_bounds room stop l buf :
  exists new,
    fst (read_loop room stop l buf) = buf ++ new /\
    (String.length new <= room)%nat /\
    (forall a b, new = a ++ String stop b -> b = EmptyString).
Proof.
  revert l buf. induction room as [|room IH]; intros l buf; cbn [read_loop].
  - exists EmptyString. rewrite append_empty_r. repeat split; [simpl; lia|].
    intros [|? ?] b H; discriminate H.
  - destruct l as [|[c|] rest].
    + exists EmptyString. rewrite append_empty_r. repeat split; [simpl; lia|].
      intros [|? ?] b H; discriminate H.
    + destruct (Ascii.eqb c stop) eqn:E.
      * exists (String c EmptyString). repeat split; [simpl; lia|].
        intros [|x [|? ?]] b H; rewrite ?append_cons, ?append_nil in H; try discriminate H.
        injection H as _ H. symmetry. exact H.
      * destruct (IH rest (buf ++ String c EmptyString)) as (new & Hf & Hl & Hs).
        exists (String c new). rewrite Hf, append_assoc_1.
        repeat split; [simpl; lia|].
        intros [|x a] b H; rewrite ?append_cons, ?append_nil in H; injection H as Hc H.
        -- subst c. rewrite Ascii.eqb_refl in E. discriminate E.
        -- apply (Hs a b H).
    + exists EmptyString. rewrite append_empty_r. repeat split; [simpl; lia|].
      intros [|? ?] b H; discriminate H.
Qed.

(** X1: [Read] never stores more than [maxlen - 1] bytes, and the stop
    character can only be the last byte of what it returns. *)
Theorem Read_bounded (p : SerialPort) (maxlen : nat) (stop_char : ascii) :
  (String.length (fst (Read p maxlen stop_char)) <= Nat.pred maxlen)%nat /\
  (forall a b, fst (Read p maxlen stop_char) = a ++ String stop_char b -> b = EmptyString).
Proof.
  unfold Read. destruct (fd p <? 0).
  - split; [simpl; lia|]. intros [|? ?] b H; discriminate H.
  - destruct (read_loop_bounds (Nat.pred maxlen) stop_char (line p) EmptyString)
      as (new & Hf & Hl & Hs).
    destruct (read_loop _ _ _ _) as [buf l]. cbn [fst] in *.
    rewrite append_nil in Hf. subst buf. split; assumption.
Qed.

Lemma read_loop_frame room stop frame rest buf :
  ~ In stop (list_ascii_of_string frame) ->
  (String.length frame < room)%nat ->
  read_loop room stop (map Rx (list_ascii_of_string frame) ++ Rx stop :: rest) buf
  = (buf ++ frame ++ String stop EmptyString, rest).
Proof.
  revert room buf. induction frame as [|c frame IH]; intros room buf Hn Hl.
  - destruct room; [simpl in Hl; lia|]. cbn [list_ascii_of_string map app read_loop].
    rewrite Ascii.eqb_refl, append_nil. reflexivity.
  - destruct room; [simpl in Hl; lia|]. cbn [list_ascii_of_string map app read_loop].
    destruct (Ascii.eqb c stop) eqn:E.
    + apply Ascii.eqb_eq in E. subst c. exfalso. apply Hn. left. reflexivity.
    + rewrite IH; [|intros H; apply Hn; right; exact H | simpl in Hl; lia].
      rewrite append_assoc_1, ?append_cons. reflexivity.
Qed.

(** X2: when a whole frame that fits the buffer arrives, [Read] on an open
    transport returns exactly that frame with its stop character, and leaves
    every later byte on the line for the next call. *)
Theorem Read_whole_frame (p : SerialPort) (maxlen : nat) (stop_char : ascii)
    (frame : string) (rest : list line_event) :
  IsOpen p = true ->
  ~ In stop_char (list_ascii_of_string frame) ->
  (String.length frame + 1 < maxlen)%nat ->
  line p = (map Rx (list_ascii_of_string frame) ++ Rx stop_char :: rest)%list ->
  Read p maxlen stop_char
  = (frame ++ String stop_char EmptyString, mkPort (fd p) rest (wr_results p) (tx p)).
Proof.
  intros Ho Hn Hl Hline. unfold Read, IsOpen in *.
  replace (fd p <? 0) with false by (symmetry; apply Z.ltb_ge; lia).
  rewrite Hline, read_loop_frame by (assumption || lia). reflexivity.
Qed.

Lemma Read_whole_frame_witness :
  Read (open_port (frames ["20240101A"; "90000A"]) []) 32 "A"
  = ("20240101A", open_port (frames ["90000A"]) []).
Proof.
  apply (Read_whole_frame (open_port (frames ["20240101A"; "90000A"]) []) 32 "A"
           "20240101" (frames ["90000A"])).
  - reflexivity.
  - vm_compute. intros H. repeat (destruct H as [H|H]; [discriminate H|]). exact H.
  - simpl. lia.
  - reflexivity.
Defined.

Lemma read_loop_quiet room stop bytes rest buf :
  ~ In stop (list_ascii_of_string bytes) ->
  (String.length bytes < room)%nat ->
  read_loop room stop (map Rx (list_ascii_of_string bytes) ++ Quiet :: rest) buf
  = (buf ++ bytes, rest).
Proof.
  revert room buf. induction bytes as [|c bytes IH]; intros room buf Hn Hl.
  - destruct room; [simpl in Hl; lia|]. cbn [list_ascii_of_string map app read_loop].
    rewrite append_empty_r. reflexivity.
  - destruct room; [simpl in Hl; lia|]. cbn [list_ascii_of_string map app read_loop].
    destruct (Ascii.eqb c stop) eqn:E.
    + apply Ascii.eqb_eq in E. subst c. exfalso. apply Hn. left. reflexivity.
    + rewrite IH; [|intros H; apply Hn; right; exact H | simpl in Hl; lia].
      rewrite append_assoc_1, ?append_cons. reflexivity.
Qed.

(** X3: when the line goes quiet before a stop character arrives, [Read]
    returns the bytes that did arrive, so its count is not 0 on such a
    time-out unless nothing arrived at all. *)
Theorem Read_timeout_partial (p : SerialPort) (maxlen : nat) (stop_char : ascii)
    (bytes : string) (rest : list line_event) :
  IsOpen p = true ->
  ~ In stop_char (list_ascii_of_string bytes) ->
  (String.length bytes + 1 < maxlen)%nat ->
  line p = (map Rx (list_ascii_of_string bytes) ++ Quiet :: rest)%list ->
  Read p maxlen stop_char = (bytes, mkPort (fd p) rest (wr_results p) (tx p)).
Proof.
  intros Ho Hn Hl Hline. unfold Read, IsOpen in *.
  replace (fd p <? 0) with false by (symmetry; apply Z.ltb_ge; lia).
  rewrite Hline, read_loop_quiet by (assumption || lia). reflexivity.
Qed.

Lemma Read_timeout_partial_witness :
  Read (open_port (map Rx (list_ascii_of_string "900") ++ [Quiet]) []) 32 "A"
  = ("900", open_port [] []).
Proof.
  apply (Read_timeout_partial
           (open_port (map Rx (list_ascii_of_string "900") ++ [Quiet]) []) 32 "A" "900" []).
  - reflexivity.
  - vm_compute. intros H. repeat (destruct H as [H|H]; [discriminate H|]). exact H.
  - simpl. lia.
  - reflexivity.
Defined.


(** ** The registry: unknown handles, closed transports, other devices *)

(** X5: on a handle that is not in the registry every entry point returns
    the invalid-handle error and leaves the registry as it was; the null
    check of an output pointer comes first. *)
Theorem unknown_handle_is_rejected (g : gmap Z Device) (id : Z)
    (os_open : string -> Z) (os_tcgetattr os_tcsetattr : Z -> bool)
    (line_at : string -> list line_event) (writes_at : string -> list bool)
    (sf : string -> option F32.float)
    (cfg : WR_ROTATOR_CONFIG.t) (st : WR_ROTATOR_STATUS.t) (ver : WR_VERSION.t)
    (angle : F32.float) :
  g !! id = None ->
  WRRotatorOpen os_open os_tcgetattr os_tcsetattr line_at writes_at sf g id = (WR_ERROR_INVALID_ID, g) /\
  WRRotatorClose g id = (WR_ERROR_INVALID_ID, g) /\
  WRRotatorGetConfig g id (Some cfg) = (WR_ERROR_INVALID_ID, Some cfg, g) /\
  WRRotatorSetConfig g id (Some cfg) = (WR_ERROR_INVALID_ID, g) /\
  WRRotatorGetStatus g id (Some st) = (WR_ERROR_INVALID_ID, Some st, g) /\
  WRRotatorGetVersion g id (Some ver) = (WR_ERROR_INVALID_ID, Some ver, g) /\
  WRRotatorFindHome sf g id = (WR_ERROR_INVALID_ID, g) /\
  WRRotatorSyncPosition g id angle = (WR_ERROR_INVALID_ID, g) /\
  WRRotatorMove g id angle = (WR_ERROR_INVALID_ID, g) /\
  WRRotatorMoveTo sf g id angle = (WR_ERROR_INVALID_ID, g) /\
  WRRotatorStopMove g id = (WR_ERROR_INVALID_ID, g) /\
  WRRotatorGetConfig g id None = (WR_ERROR_NULL_POINTER, None, g) /\
  WRRotatorSetConfig g id None = (WR_ERROR_NULL_POINTER, g) /\
  WRRotatorGetStatus g id None = (WR_ERROR_NULL_POINTER, None, g) /\
  WRRotatorGetVersion g id None = (WR_ERROR_NULL_POINTER, None, g).
Proof.
  intros H.
  unfold WRRotatorOpen, WRRotatorClose, WRRotatorGetConfig, WRRotatorSetConfig,
    WRRotatorGetStatus, WRRotatorGetVersion, WRRotatorFindHome, WRRotatorSyncPosition,
    WRRotatorMove, WRRotatorMoveTo, WRRotatorStopMove.
  rewrite H. repeat split.
Qed.

Lemma unknown_handle_is_rejected_witness :
  WRRotatorMove (∅ : gmap Z Device) 7 (F32.of_int 10) = (WR_ERROR_INVALID_ID, ∅).
Proof.
  apply (unknown_handle_is_rejected ∅ 7 (fun _ => 3) (fun _ => true) (fun _ => true) (fun _ => [])
           (fun _ => []) scan_float_dec
           (WR_ROTATOR_CONFIG.mk 0 0 F32.zero 0 F32.zero 0)
           (WR_ROTATOR_STATUS.mk F32.zero 0 0 F32.zero)
           (WR_VERSION.mk 0 EmptyString) (F32.of_int 10)).
  apply lookup_empty.
Defined.

(** X6: on a device whose transport is missing or closed, the motion entry
    points and a reverse-direction request return the communication error
    and change nothing; [WRRotatorMoveTo] does so before it looks at the
    angle. *)
Theorem closed_transport_is_reported (g : gmap Z Device) (id : Z) (device : Device)
    (sf : string -> option F32.float) (cfg : WR_ROTATOR_CONFIG.t) (angle : F32.float) :
  g !! id = Some device ->
  port_open device = false ->
  WRRotatorMove g id angle = (WR_ERROR_COMMUNICATION, g) /\
  WRRotatorMoveTo sf g id angle = (WR_ERROR_COMMUNICATION, g) /\
  WRRotatorStopMove g id = (WR_ERROR_COMMUNICATION, g) /\
  WRRotatorSyncPosition g id angle = (WR_ERROR_COMMUNICATION, g) /\
  (has_bit (WR_ROTATOR_CONFIG.mask cfg) MASK_ROTATOR_REVERSE_DIRECTION = true ->
   WRRotatorSetConfig g id (Some cfg) = (WR_ERROR_COMMUNICATION, g)).
Proof.
  intros Hg Hc.
  unfold WRRotatorMove, WRRotatorMoveTo, WRRotatorStopMove, WRRotatorSyncPosition,
    WRRotatorSetConfig.
  rewrite Hg, Hc. repeat split. intros ->.
  rewrite SendCommand_closed by exact Hc. rewrite insert_id by exact Hg. reflexivity.
Qed.

Lemma closed_transport_is_reported_witness :
  let d := new_Device None "/dev/ttyUSB0" in
  WRRotatorStopMove {[ 0 := d ]} 0 = (WR_ERROR_COMMUNICATION, {[ 0 := d ]}).
Proof.
  intros d.
  apply (closed_transport_is_reported {[ 0 := d ]} 0 d scan_float_dec
           (WR_ROTATOR_CONFIG.mk 0 0 F32.zero 0 F32.zero 0) F32.zero).
  - apply lookup_singleton_eq.
  - reflexivity.
Defined.

Lemma touches_only_frame id (g g' : gmap Z Device) :
  touches_only id g g' ->
  dom g' = dom g /\ forall id', id' <> id -> g' !! id' = g !! id'.
Proof.
  intros [->|(d' & Hs & ->)]; [split; reflexivity|]. split.
  - apply dom_insert_lookup_L, Hs.
  - intros id' Hne. apply lookup_insert_ne. congruence.
Qed.

Lemma touches_only_insert id (g : gmap Z Device) d d' :
  g !! id = Some d -> touches_only id g (<[id := d']> g).
Proof. intros H. right. exists d'. split; [eexists; exact H | reflexivity]. Qed.

Lemma touches_only_Move g id angle : touches_only id g (snd (WRRotatorMove g id angle)).
Proof.
  unfold WRRotatorMove. destruct (g !! id) as [device|] eqn:Hg; [|left; reflexivity].
  destruct (negb (port_open device)); [left; reflexivity|].
  destruct (SendCommand _ _) as [[] d']; eapply touches_only_insert, Hg.
Qed.

(** ** The status query: what it may change *)

Lemma set_port_same d : set_port (port d) d = d.
Proof. destruct d; reflexivity. Qed.

Lemma port_Write_shape data d r d1 :
  port_Write data d = (r, d1) ->
  exists q, d1 = set_port q d /\
    (port_open d = true -> sent d1 = (sent d ++ [data])%list /\ port_open d1 = true).
Proof.
  unfold port_Write, port_open, sent. destruct (port d) as [p|] eqn:Hp.
  - destruct (Write p data) as [ok p'] eqn:Hw. intros [= <- <-].
    exists (Some p'). split; [reflexivity|]. intros Ho. cbn.
    destruct (Write_tx _ _ _ _ Hw Ho) as [Ht Hf]. split; [exact Ht|].
    unfold IsOpen in *. congruence.
  - intros [= <- <-]. exists None. rewrite <- Hp, set_port_same, Hp. split; [reflexivity|discriminate].
Qed.

Lemma port_Read_shape n c d r d1 :
  port_Read n c d = (r, d1) ->
  exists q, d1 = set_port q d /\ sent d1 = sent d /\ port_open d1 = port_open d.
Proof.
  unfold port_Read, port_open, sent. destruct (port d) as [p|] eqn:Hp.
  - destruct (Read p n c) as [buf p'] eqn:Hr. intros [= <- <-].
    exists (Some p'). split; [reflexivity|]. cbn.
    destruct (Read_tx _ _ _ _ _ Hr) as [Ht Hf]. split; [exact Ht|].
    unfold IsOpen. congruence.
  - intros [= <- <-]. exists None. rewrite <- Hp, set_port_same, Hp. auto.
Qed.

Ltac io_shapes :=
  repeat match goal with
  | H : port_Write _ _ = _ |- _ => apply port_Write_shape in H as (? & -> & H)
  | H : port_Read _ _ _ = _ |- _ => apply port_Read_shape in H as (? & -> & H)
  end.

Ltac io_case H :=
  match goal with
  | |- context [port_Write ?c ?d] =>
      let d1 := fresh "d" in
      destruct (port_Write c d) as [[[]|] d1] eqn:H
  | |- context [port_Read ?n ?c ?d] =>
      let d1 := fresh "d" in let r := fresh "r" in
      destruct (port_Read n c d) as [[r|] d1] eqn:H
  end.

Ltac io_done :=
  intros [= <- <-]; io_shapes; cbn in *;
  repeat match goal with |- context [if ?b then _ else _] => destruct b end;
  cbn in *; unfold sent, port_open in *; cbn in *;
  repeat split; intros; try discriminate; try reflexivity; intuition congruence.

Lemma QueryStatus_body_frame sf d r d' :
  QueryStatus_body sf d = (r, d') ->
  (portName d' = portName d /\ targetAngle d' = targetAngle d /\
   lastRotated d' = lastRotated d /\ rotator d' = rotator d /\
   overshooting d' = overshooting d /\ overshootAngle d' = overshootAngle d /\
   listenerRunning d' = listenerRunning d /\ moving (status d') = moving (status d)) /\
  (port_open d = true -> sent d' = (sent d ++ [handshake_probe])%list /\ port_open d' = true) /\
  (r = None -> status d' = status d /\ stepsPerDegree d' = stepsPerDegree d).
Proof.
  unfold QueryStatus_body, io_bind.
  io_case H1; [|io_done]. io_case H2; [|io_done]. unfold io_scan at 1.
  destruct (scan_model r0) as [model|] eqn:Hm; [|io_done].
  unfold io_set at 1. io_case H3; [|io_done]. unfold io_scan at 1.
  destruct (scan_int r1) as [fw|] eqn:Hfw; [|io_done].
  unfold io_set at 1. io_case H4; [|io_done]. unfold io_scan at 1.
  destruct (scan_int r2) as [mech|] eqn:Hmech; [|io_done].
  unfold io_set at 1. io_case H5; [|io_done]. unfold io_scan at 1.
  destruct (sf r3) as [b|] eqn:Hb; [|io_done].
  unfold io_set at 1. io_case H6; [|io_done]. unfold io_scan at 1.
  destruct (scan_int r4) as [rev|] eqn:Hrev; [|io_done].
  unfold io_set. io_done.
Qed.

Lemma QueryStatus_frame (sf : string -> option F32.float) (d d' : Device) (ok : bool) :
  QueryStatus sf d = (ok, d') ->
  (portName d' = portName d /\ targetAngle d' = targetAngle d /\
   lastRotated d' = lastRotated d /\ rotator d' = rotator d /\
   overshooting d' = overshooting d /\ overshootAngle d' = overshootAngle d /\
   listenerRunning d' = listenerRunning d /\ moving (status d') = moving (status d)) /\
  (port_open d = true -> sent d' = (sent d ++ [handshake_probe])%list /\ port_open d' = true) /\
  (port_open d = false -> ok = false /\ d' = d).
Proof.
  unfold QueryStatus, port_open at 1 3. destruct (port d) as [p|] eqn:Hp.
  - destruct (IsOpen p) eqn:Ho; cbn [negb].
    + destruct (QueryStatus_body sf d) as [r d1] eqn:Hb.
      apply QueryStatus_body_frame in Hb as (Hf & Hs & _).
      unfold port_open in Hs. rewrite Hp in Hs. specialize (Hs Ho).
      destruct r; intros [= <- <-]; (split; [exact Hf|split; [intros _; exact Hs|discriminate]]).
    + intros [= <- <-]. repeat split; discriminate.
  - intros [= <- <-]. repeat split; discriminate.
Qed.

(** X8: whatever a status query returns, it leaves the target angle, the
    last rotation, the rotator configuration, the overshoot state, the
    listener flag and the moving flag alone; on an open transport it writes
    the probe exactly once, also when it fails, and the transport stays
    open; on a missing or closed transport it fails and changes nothing. *)
Theorem QueryStatus_footprint (sf : string -> option F32.float) (d d' : Device) (ok : bool) :
  QueryStatus sf d = (ok, d') ->
  (portName d' = portName d /\ targetAngle d' = targetAngle d /\
   lastRotated d' = lastRotated d /\ rotator d' = rotator d /\
   overshooting d' = overshooting d /\ overshootAngle d' = overshootAngle d /\
   listenerRunning d' = listenerRunning d /\ moving (status d') = moving (status d)) /\
  (port_open d = true -> sent d' = (sent d ++ [handshake_probe])%list /\ port_open d' = true) /\
  (port_open d = false -> ok = false /\ d' = d).
Proof. apply QueryStatus_frame. Qed.

Lemma QueryStatus_footprint_witness :
  let d := rotator_replying "Lite" "90000" in
  sent (snd (QueryStatus scan_float_dec d)) = [handshake_probe].
Proof.
  intros d.
  destruct (QueryStatus scan_float_dec d) as [ok d'] eqn:H.
  destruct (QueryStatus_footprint scan_float_dec d d' ok H) as (_ & Hs & _).
  apply Hs. reflexivity.
Defined.

(** X9: a status query that fails, at whichever frame, leaves the status
    (position, moving flag, steps per revolution, step size) and the steps
    per degree as they were. *)
Theorem QueryStatus_failure_keeps_status (sf : string -> option F32.float) (d d' : Device) :
  QueryStatus sf d = (false, d') ->
  status d' = status d /\ stepsPerDegree d' = stepsPerDegree d.
Proof.
  unfold QueryStatus. destruct (port d) as [p|] eqn:Hp; [|intros [= <-]; auto].
  destruct (negb (IsOpen p)); [intros [= <-]; auto|].
  destruct (QueryStatus_body sf d) as [[[]|] d1] eqn:Hb; [discriminate|].
  intros [= <-]. apply QueryStatus_body_frame in Hb as (_ & _ & Hr). auto.
Qed.

Lemma QueryStatus_failure_keeps_status_witness :
  let d := set_port (Some (open_port (frames ["WandererRotatorMiniA"; "20240101A"]) []))
             (opened_rotator "Lite" "90000" []) in
  let d' := snd (QueryStatus scan_float_dec d) in
  modelType d' = "Mini" /\ status d' = status d /\ stepsPerDegree d' = stepsPerDegree d.
Proof.
  intros d d'. split; [vm_compute; reflexivity|].
  apply (QueryStatus_failure_keeps_status scan_float_dec d d').
  vm_compute; reflexivity.
Defined.

(** ** Commands: what the entry points write and store *)

Lemma SendCommand_shape command d ok d1 :
  SendCommand command d = (ok, d1) ->
  exists q, d1 = set_port q d /\
    (port_open d = true ->
       sent d1 = (sent d ++ [command])%list /\ port_open d1 = true /\
       ok = hd true (match port d with Some p => wr_results p | None => [] end)) /\
    (port_open d = false -> ok = false /\ d1 = d).
Proof.
  intros H. destruct (port_open d) eqn:Ho.
  - destruct (SendCommand_open command d Ho) as (p & p' & ok' & Hp & Hw & Hs & Ht & Hi & Hk).
    rewrite Hs in H. injection H as <- <-. exists (Some p'). split; [reflexivity|].
    split; [|discriminate]. intros _. unfold sent, port_open. cbn. rewrite Hp. auto.
  - rewrite SendCommand_closed in H by exact Ho. injection H as <- <-.
    exists (port d). rewrite set_port_same. split; [reflexivity|]. split; [discriminate|auto].
Qed.

Lemma take_chars_length n s : (String.length (take_chars n s) <= n)%nat.
Proof.
  revert s. induction n as [|n IH]; intros [|c s]; cbn; try lia.
  specialize (IH s). lia.
Qed.

(** X10: a configuration that was accepted reads back.  After a successful
    [WRRotatorSetConfig], [WRRotatorGetConfig] on the same handle succeeds,
    leaves the registry alone and fills in the reverse flag that was
    requested; the backlash comes back cut to whole tenths of a degree, not
    as requested; a field whose mask bit was clear reads as before; the
    mask and the overshoot fields of the caller's struct are not written. *)
Theorem SetConfig_then_GetConfig (g g' : gmap Z Device) (id : Z) (device : Device)
    (c out : WR_ROTATOR_CONFIG.t) :
  g !! id = Some device ->
  WRRotatorSetConfig g id (Some c) = (WR_SUCCESS, g') ->
  exists c',
    WRRotatorGetConfig g' id (Some out) = (WR_SUCCESS, Some c', g') /\
    WR_ROTATOR_CONFIG.reverseDirection c' =
      (if has_bit (WR_ROTATOR_CONFIG.mask c) MASK_ROTATOR_REVERSE_DIRECTION
       then WR_ROTATOR_CONFIG.reverseDirection c
       else rotator_reverseDirection (rotator device)) /\
    WR_ROTATOR_CONFIG.backlash c' =
      (if has_bit (WR_ROTATOR_CONFIG.mask c) MASK_ROTATOR_BACKLASH
       then F32.div (F32.of_int (F32.to_int (F32.mul (WR_ROTATOR_CONFIG.backlash c) F32.f10)))
              F32.f10
       else F32.div (F32.of_int (backlash device)) F32.f10) /\
    WR_ROTATOR_CONFIG.mask c' = WR_ROTATOR_CONFIG.mask out /\
    WR_ROTATOR_CONFIG.overshoot c' = WR_ROTATOR_CONFIG.overshoot out /\
    WR_ROTATOR_CONFIG.overshootAngle c' = WR_ROTATOR_CONFIG.overshootAngle out /\
    WR_ROTATOR_CONFIG.overshotDirection c' = WR_ROTATOR_CONFIG.overshotDirection out.
Proof.
  intros Hg. unfold WRRotatorSetConfig, WRRotatorGetConfig. rewrite Hg.
  destruct (has_bit _ MASK_ROTATOR_REVERSE_DIRECTION).
  - destruct (SendCommand _ device) as [[] d1] eqn:H1; [|discriminate].
    apply SendCommand_shape in H1 as (q1 & -> & _).
    destruct (has_bit _ MASK_ROTATOR_BACKLASH).
    + destruct (F32.ltb _ _); [discriminate|].
      destruct (SendCommand _ _) as [[] d2] eqn:H2; [|discriminate].
      apply SendCommand_shape in H2 as (q2 & -> & _).
      intros [= <-]. rewrite lookup_insert_eq. eexists. split; [reflexivity|].
      cbn. repeat split.
    + intros [= <-]. rewrite lookup_insert_eq. eexists. split; [reflexivity|].
      cbn. repeat split.
  - destruct (has_bit _ MASK_ROTATOR_BACKLASH).
    + destruct (F32.ltb _ _); [discriminate|].
      destruct (SendCommand _ _) as [[] d2] eqn:H2; [|discriminate].
      apply SendCommand_shape in H2 as (q2 & -> & _).
      intros [= <-]. rewrite lookup_insert_eq. eexists. split; [reflexivity|].
      cbn. repeat split.
    + intros [= <-]. rewrite lookup_insert_eq. eexists. split; [reflexivity|].
      cbn. repeat split.
Qed.

Lemma SetConfig_then_GetConfig_witness :
  let d := opened_rotator "Mini" "0" [] in
  let c := WR_ROTATOR_CONFIG.mk 3 1 (F32.dyadic 3 3) 0 F32.zero 0 in
  let g' := snd (WRRotatorSetConfig {[ 0 := d ]} 0 (Some c)) in
  exists c',
    WRRotatorGetConfig g' 0 (Some c) = (WR_SUCCESS, Some c', g') /\
    WR_ROTATOR_CONFIG.reverseDirection c' = 1 /\
    WR_ROTATOR_CONFIG.backlash c' = F32.div (F32.of_int 3) F32.f10.
Proof.
  intros d c g'.
  assert (Hs : WRRotatorSetConfig {[ 0 := d ]} 0 (Some c) = (WR_SUCCESS, g'))
    by (vm_compute; reflexivity).
  destruct (SetConfig_then_GetConfig {[ 0 := d ]} g' 0 d c c (lookup_singleton_eq _ _) Hs)
    as (c' & Hget & Hr & Hb & _).
  exists c'. split; [exact Hget|]. split; [exact Hr|exact Hb].
Defined.

(** X11: a backlash request that passes the sign check writes one command,
    the decimal of [BacklashToCommand] followed by a newline and never cut
    by the buffer.  The call succeeds exactly when that write is accepted,
    and only then is the stored backlash replaced; when the write is not
    accepted the call returns the communication error and the stored
    backlash is kept. *)
Theorem SetConfig_backlash_command (g : gmap Z Device) (id : Z) (device : Device)
    (c : WR_ROTATOR_CONFIG.t) :
  g !! id = Some device ->
  port_open device = true ->
  has_bit (WR_ROTATOR_CONFIG.mask c) MASK_ROTATOR_REVERSE_DIRECTION = false ->
  has_bit (WR_ROTATOR_CONFIG.mask c) MASK_ROTATOR_BACKLASH = true ->
  F32.ltb (WR_ROTATOR_CONFIG.backlash c) F32.zero = false ->
  exists d',
    snd (WRRotatorSetConfig g id (Some c)) = <[id := d']> g /\
    sent d' = (sent device ++
               [String.append (string_of_int (BacklashToCommand (WR_ROTATOR_CONFIG.backlash c)))
                  nl])%list /\
    (exists p, port device = Some p /\
       (hd true (wr_results p) = true ->
        fst (WRRotatorSetConfig g id (Some c)) = WR_SUCCESS /\
        backlash d' = F32.to_int (F32.mul (WR_ROTATOR_CONFIG.backlash c) F32.f10)) /\
       (hd true (wr_results p) = false ->
        fst (WRRotatorSetConfig g id (Some c)) = WR_ERROR_COMMUNICATION /\
        backlash d' = backlash device)) /\
    rotator d' = rotator device /\ reverseDirection d' = reverseDirection device.
Proof.
  intros Hg Ho Hr Hb Hlt. unfold WRRotatorSetConfig. rewrite Hg, Hr, Hb, Hlt.
  rewrite snprintf_fits.
  2:{ rewrite length_append. pose proof (string_of_int_length11
        (BacklashToCommand (WR_ROTATOR_CONFIG.backlash c))). cbn. lia. }
  match goal with |- context [SendCommand ?cmd device] =>
    destruct (SendCommand_open cmd device Ho)
      as (p & p' & ok & Hp & Hw & Hs & Ht & _ & Hok) end.
  rewrite Hs. destruct ok; eexists; (split; [reflexivity|]);
    (split; [unfold sent; simpl; rewrite Hp, Ht; reflexivity|]);
    (split; [|split; reflexivity]); exists p; (split; [exact Hp|]);
    rewrite <- Hok; split; intros E; try discriminate E; split; reflexivity.
Qed.

Lemma SetConfig_backlash_command_witness :
  let d := opened_rotator "Mini" "0" [] in
  let c := WR_ROTATOR_CONFIG.mk 2 0 (F32.dyadic 3 3) 0 F32.zero 0 in
  exists d', snd (WRRotatorSetConfig {[ 0 := d ]} 0 (Some c)) = <[0 := d']> {[ 0 := d ]} /\
             sent d' = ["1600003" ++ nl].
Proof.
  intros d c.
  destruct (SetConfig_backlash_command {[ 0 := d ]} 0 d c (lookup_singleton_eq _ _))
    as (d' & Hg & Hs & _); try (vm_compute; reflexivity).
  exists d'. split; [exact Hg|]. exact Hs.
Defined.

Lemma F32_eqb_zero_in_range angle :
  F32.eqb angle F32.zero = true ->
  F32.ltb angle F32.zero || F32.leb F32.f360 angle = false.
Proof. destruct angle as [[]|[]| |[] m e]; try discriminate; intros _; reflexivity. Qed.

(** X12: on an open transport [WRRotatorSyncPosition] accepts the angle
    zero only.  Any other angle, a NaN included, is rejected with nothing
    written and nothing changed; for zero the range test that follows never
    fires, the command [1500002] is written without a newline, and the
    position is set to the angle if the write succeeds. *)
Theorem WRRotatorSyncPosition_zero_only (g : gmap Z Device) (id : Z) (device : Device)
    (angle : F32.float) :
  g !! id = Some device ->
  port_open device = true ->
  (F32.eqb angle F32.zero = false ->
     WRRotatorSyncPosition g id angle = (WR_ERROR_INVALID_PARAMETER, g)) /\
  (F32.eqb angle F32.zero = true ->
     exists ok d1,
       SendCommand "1500002" device = (ok, d1) /\
       sent d1 = (sent device ++ ["1500002"])%list /\
       WRRotatorSyncPosition g id angle =
         if ok then (WR_SUCCESS, <[id := set_position angle d1]> g)
         else (WR_ERROR_COMMUNICATION, <[id := d1]> g)).
Proof.
  intros Hg Ho. unfold WRRotatorSyncPosition. rewrite Hg, Ho. cbn [negb]. split.
  - intros ->. reflexivity.
  - intros He. rewrite He, (F32_eqb_zero_in_range _ He). cbn [negb].
    destruct (SendCommand _ device) as [ok d1] eqn:H1. exists ok, d1.
    split; [reflexivity|]. split; [|reflexivity].
    apply SendCommand_shape in H1 as (q & -> & Hs & _). apply (Hs Ho).
Qed.

Lemma WRRotatorSyncPosition_zero_only_witness :
  let d := opened_rotator "Mini" "90000" [] in
  WRRotatorSyncPosition {[ 0 := d ]} 0 (F32.of_int 90) = (WR_ERROR_INVALID_PARAMETER, {[ 0 := d ]}) /\
  WRRotatorSyncPosition {[ 0 := d ]} 0 (S754_nan) = (WR_ERROR_INVALID_PARAMETER, {[ 0 := d ]}).
Proof.
  intros d. split.
  - apply (WRRotatorSyncPosition_zero_only {[ 0 := d ]} 0 d (F32.of_int 90)
             (lookup_singleton_eq _ _)); vm_compute; reflexivity.
  - apply (WRRotatorSyncPosition_zero_only {[ 0 := d ]} 0 d S754_nan
             (lookup_singleton_eq _ _)); vm_compute; reflexivity.
Defined.

Lemma WRRotatorMove_errors g id angle :
  In (fst (WRRotatorMove g id angle))
     [WR_SUCCESS; WR_ERROR_INVALID_ID; WR_ERROR_COMMUNICATION].
Proof.
  unfold WRRotatorMove. destruct (g !! id); [|cbn; auto].
  destruct (negb _); [cbn; auto|].
  destruct (SendCommand _ _) as [[] d']; cbn; auto.
Qed.

(** X13: on a known handle with an open transport, [WRRotatorMoveTo]
    answers with the invalid-parameter error exactly when the comparison
    [angle < 0 || angle >= 360] holds; a NaN passes that test. *)
Theorem WRRotatorMoveTo_range_check (sf : string -> option F32.float)
    (g : gmap Z Device) (id : Z) (device : Device) (angle : F32.float) :
  g !! id = Some device ->
  port_open device = true ->
  (fst (WRRotatorMoveTo sf g id angle) = WR_ERROR_INVALID_PARAMETER
   <-> F32.ltb angle F32.zero || F32.leb F32.f360 angle = true) /\
  F32.ltb S754_nan F32.zero || F32.leb F32.f360 S754_nan = false.
Proof.
  intros Hg Ho. split; [|reflexivity]. unfold WRRotatorMoveTo. rewrite Hg, Ho. cbn [negb].
  destruct (_ || _); [split; reflexivity|].
  split; [|discriminate].
  destruct (QueryStatus sf device) as [[] d1]; cbn [negb fst]; [|discriminate].
  destruct (F32.eqb _ _); [discriminate|].
  match goal with |- fst (WRRotatorMove ?g ?i ?a) = _ -> _ =>
    pose proof (WRRotatorMove_errors g i a) as H end.
  intros E. rewrite E in H. cbn in H. intuition discriminate.
Qed.

Lemma WRRotatorMoveTo_range_check_witness :
  let d := rotator_replying "Mini" "90000" in
  fst (WRRotatorMoveTo scan_float_dec {[ 0 := d ]} 0 (F32.of_int 360)) = WR_ERROR_INVALID_PARAMETER.
Proof.
  intros d.
  apply (WRRotatorMoveTo_range_check scan_float_dec {[ 0 := d ]} 0 d (F32.of_int 360)
           (lookup_singleton_eq _ _)); vm_compute; reflexivity.
Defined.

(** X14: [WRRotatorMove] on an open transport writes exactly one command,
    of at most seven characters and without a newline, and records the
    requested angle as the target whether or not the write is accepted.
    When the write is accepted the call succeeds and the moving flag and
    the listener flag are set; when it is not, the call returns the
    communication error and both flags stay as they were.  The steps per
    degree, the position and the stored configuration are not touched. *)
Theorem WRRotatorMove_footprint (g : gmap Z Device) (id : Z) (device : Device)
    (angle : F32.float) :
  g !! id = Some device ->
  port_open device = true ->
  exists cmd d',
    snd (WRRotatorMove g id angle) = <[id := d']> g /\
    sent d' = (sent device ++ [cmd])%list /\
    cmd = snprintf 8 (string_of_int (move_command_value angle (stepsPerDegree device))) /\
    (String.length cmd <= 7)%nat /\
    targetAngle d' = angle /\
    (exists p, port device = Some p /\
       (hd true (wr_results p) = true ->
        fst (WRRotatorMove g id angle) = WR_SUCCESS /\
        moving (status d') = 1 /\ listenerRunning d' = true) /\
       (hd true (wr_results p) = false ->
        fst (WRRotatorMove g id angle) = WR_ERROR_COMMUNICATION /\
        moving (status d') = moving (status device) /\
        listenerRunning d' = listenerRunning device)) /\
    stepsPerDegree d' = stepsPerDegree device /\
    position (status d') = position (status device) /\
    mechanicalAngle d' = mechanicalAngle device /\
    rotator d' = rotator device /\ backlash d' = backlash device.
Proof.
  intros Hg Ho. unfold WRRotatorMove. rewrite Hg, Ho. cbn [negb].
  match goal with |- context [SendCommand ?cmd ?x] =>
    destruct (SendCommand_open cmd x Ho)
      as (p & p' & ok & Hp & Hw & Hs & Ht & _ & Hok) end.
  cbn [port set_targetAngle] in Hp. rewrite Hs.
  destruct ok; eexists _, _; (split; [reflexivity|]);
    (split; [unfold sent; simpl; rewrite Hp, Ht; reflexivity|]); (split; [reflexivity|]);
    (split; [apply (take_chars_length 7)|]); (split; [reflexivity|]);
    (split; [|repeat split]); exists p; (split; [exact Hp|]);
    rewrite <- Hok; split; intros E; try discriminate E; repeat split.
Qed.

Lemma WRRotatorMove_footprint_witness :
  let d := opened_rotator "Mini" "0" [] in
  exists d', snd (WRRotatorMove {[ 0 := d ]} 0 (F32.of_int 10)) = <[0 := d']> {[ 0 := d ]} /\
             sent d' = ["1011420"] /\ targetAngle d' = F32.of_int 10.
Proof.
  intros d.
  destruct (WRRotatorMove_footprint {[ 0 := d ]} 0 d (F32.of_int 10) (lookup_singleton_eq _ _))
    as (cmd & d' & Hg & Hs & Hc & _ & Ht & _); [vm_compute; reflexivity|].
  exists d'. split; [exact Hg|]. split; [|exact Ht].
  rewrite Hs, Hc. vm_compute. reflexivity.
Defined.


(** ** Handshake, opening and closing *)

Lemma Write_all_accepted p data ok p' :
  Write p data = (ok, p') -> IsOpen p = true -> wr_results p = []%list ->
  ok = true /\ wr_results p' = []%list.
Proof.
  unfold Write, IsOpen. intros H Ho Hw. destruct (fd p <? 0) eqn:E; [lia|].
  rewrite Hw in H. injection H as <- <-. auto.
Qed.

Lemma Read_wr_results p n c buf p' :
  Read p n c = (buf, p') -> wr_results p' = wr_results p.
Proof.
  unfold Read. destruct (fd p <? 0); [intros [= <- <-]; auto|].
  destruct (read_loop _ _ _ _). intros [= <- <-]; auto.
Qed.

Lemma handshake_loop_tx n p ok p' :
  IsOpen p = true -> handshake_loop n p = (ok, p') ->
  fd p' = fd p /\
  exists k, (k <= n)%nat /\ tx p' = (tx p ++ repeat handshake_probe k)%list /\
            ((1 <= n)%nat -> (1 <= k)%nat) /\
            (ok = true -> (1 <= k)%nat) /\
            (ok = false -> wr_results p = []%list -> k = n).
Proof.
  revert p. induction n as [|n IH]; intros p Ho; cbn [handshake_loop].
  - intros [= <- <-]. split; [reflexivity|]. exists 0%nat. cbn [repeat].
    rewrite app_nil_r. repeat split; auto; try lia; discriminate.
  - destruct (Write p handshake_probe) as [okw p1] eqn:Hw.
    destruct (Write_tx _ _ _ _ Hw Ho) as [Ht1 Hf1].
    destruct okw; cbn [negb].
    + destruct (Read p1 32 "A") as [response p2] eqn:Hr.
      destruct (Read_tx _ _ _ _ _ Hr) as [Ht2 Hf2].
      assert (Ho2 : IsOpen p2 = true) by (unfold IsOpen in *; congruence).
      assert (Hrec : handshake_loop n p2 = (ok, p') ->
                fd p' = fd p /\
                exists k, (k <= S n)%nat /\ tx p' = (tx p ++ repeat handshake_probe k)%list /\
                  ((1 <= S n)%nat -> (1 <= k)%nat) /\
                  (ok = true -> (1 <= k)%nat) /\
                  (ok = false -> wr_results p = []%list -> k = S n)).
      { intros H. destruct (IH p2 Ho2 H) as (Hf & k & Hk & Ht & _ & _ & Hall).
        split; [congruence|]. exists (S k). split; [lia|]. split.
        - rewrite Ht, Ht2, Ht1, <- app_assoc. reflexivity.
        - repeat split; try lia. intros He Hwr. f_equal. apply Hall; [exact He|].
          rewrite (Read_wr_results _ _ _ _ _ Hr).
          apply (Write_all_accepted _ _ _ _ Hw Ho Hwr). }
      assert (Hhit : (true, p2) = (ok, p') ->
                fd p' = fd p /\
                exists k, (k <= S n)%nat /\ tx p' = (tx p ++ repeat handshake_probe k)%list /\
                  ((1 <= S n)%nat -> (1 <= k)%nat) /\
                  (ok = true -> (1 <= k)%nat) /\
                  (ok = false -> wr_results p = []%list -> k = S n)).
      { intros [= <- <-]. split; [congruence|]. exists 1%nat. split; [lia|].
        split; [cbn [repeat]; congruence|]. repeat split; try lia; discriminate. }
      destruct response as [|c r]; [exact Hrec|].
      destruct (contains _ _); [exact Hhit|exact Hrec].
    + intros [= <- <-]. split; [congruence|]. exists 1%nat. split; [lia|].
      split; [cbn [repeat]; congruence|]. repeat split; try lia.
      intros _ Hwr. destruct (Write_all_accepted _ _ _ _ Hw Ho Hwr). discriminate.
Qed.

Lemma QueryHandshake_inv (d d' : Device) (ok : bool) :
  QueryHandshake d = (ok, d') ->
  (port_open d = false -> ok = false /\ d' = d) /\
  (port_open d = true ->
     exists k, (1 <= k <= 5)%nat /\
       sent d' = (sent d ++ repeat handshake_probe k)%list /\
       port_open d' = true /\
       set_port (port d) d' = d /\
       (ok = false ->
        match port d with Some p => wr_results p = []%list | None => False end ->
        k = 5%nat)).
Proof.
  unfold QueryHandshake, port_open, sent. destruct (port d) as [p|] eqn:Hp.
  - destruct (IsOpen p) eqn:Ho; cbn [negb].
    + destruct (handshake_loop 5 p) as [ok' p'] eqn:Hl. intros [= <- <-].
      split; [discriminate|]. intros _.
      destruct (handshake_loop_tx _ _ _ _ Ho Hl) as (Hf & k & Hk & Ht & H1 & _ & Hall).
      exists k. split; [lia|]. cbn. split; [exact Ht|].
      split; [unfold IsOpen in *; congruence|]. split; [|exact Hall].
      rewrite <- Hp. destruct d; reflexivity.
    + intros [= <- <-]. split; [auto|discriminate].
  - intros [= <- <-]. split; [auto|discriminate].
Qed.

(** X16: [QueryHandshake] fails at once, writing nothing, on a missing or
    closed transport.  On an open one it writes between one and five
    probes and nothing else, leaves the transport open and changes no other
    field of the device; when it fails although every write was accepted,
    it has written all five. *)
Theorem QueryHandshake_footprint (d d' : Device) (ok : bool) :
  QueryHandshake d = (ok, d') ->
  (port_open d = false -> ok = false /\ d' = d) /\
  (port_open d = true ->
     exists k, (1 <= k <= 5)%nat /\
       sent d' = (sent d ++ repeat handshake_probe k)%list /\
       port_open d' = true /\
       set_port (port d) d' = d /\
       (ok = false ->
        match port d with Some p => wr_results p = []%list | None => False end ->
        k = 5%nat)).
Proof. apply QueryHandshake_inv. Qed.

Lemma QueryHandshake_footprint_witness :
  let d := new_Device (Some (open_port (frames ["xA"; "yA"]) [])) "/dev/ttyUSB0" in
  fst (QueryHandshake d) = false /\
  sent (snd (QueryHandshake d)) = repeat handshake_probe 5.
Proof.
  intros d. split; [vm_compute; reflexivity|].
  destruct (QueryHandshake d) as [ok d'] eqn:H.
  assert (Hok : ok = false) by (revert H; vm_compute; congruence).
  destruct (QueryHandshake_footprint d d' ok H) as (_ & Ho).
  destruct (Ho eq_refl) as (k & _ & Hs & _ & _ & Hall).
  cbn [snd]. rewrite Hs, (Hall Hok eq_refl). reflexivity.
Defined.

(** X17: how [WRRotatorOpen] leaves the transport.  After a communication
    error the device is still registered and its transport is closed; after
    success the transport is open, at least two probes were written and
    nothing else, and the status is the one the query established. *)
Theorem WRRotatorOpen_outcome (os_open : string -> Z) (os_tcgetattr os_tcsetattr : Z -> bool)
    (line_at : string -> list line_event) (writes_at : string -> list bool)
    (sf : string -> option F32.float)
    (g g' : gmap Z Device) (id : Z) (device : Device) (e : WR_ERROR_TYPE) :
  g !! id = Some device ->
  WRRotatorOpen os_open os_tcgetattr os_tcsetattr line_at writes_at sf g id = (e, g') ->
  exists d', g' !! id = Some d' /\
    (e = WR_ERROR_COMMUNICATION /\ port_open d' = false
     \/
     e = WR_SUCCESS /\ port_open d' = true /\
     0 <= os_open (portName device) /\
     (exists k, (1 <= k <= 5)%nat /\
        sent d' = (sent device ++ repeat handshake_probe k ++ [handshake_probe])%list) /\
     stepsPerDegree d' = steps_for (modelType d') (stepsPerDegree device) /\
     position (status d') = F32.div (F32.of_int (mechanicalAngle d')) F32.f1000 /\
     stepsPerRevolution (status d') = wrap32 (stepsPerDegree d' * 360)).
Proof.
  intros Hg. unfold WRRotatorOpen. rewrite Hg.
  set (p0 := match port device with Some p => p | None => _ end).
  assert (Hs0 : tx p0 = sent device).
  { unfold sent, p0. destruct (port device); reflexivity. }
  unfold Open.
  destruct (os_open (portName device) <? 0) eqn:Hfd; cbn [negb].
  { intros [= <- <-]. eexists. rewrite lookup_insert_eq. split; [reflexivity|]. left.
    split; [reflexivity|]. unfold port_open, IsOpen. cbn. apply Z.ltb_lt in Hfd. lia. }
  apply Z.ltb_ge in Hfd.
  destruct (os_tcgetattr _); cbn [negb].
  2:{ intros [= <- <-]. eexists. rewrite lookup_insert_eq. split; [reflexivity|]. left.
      split; reflexivity. }
  destruct (os_tcsetattr _); cbn [negb].
  2:{ intros [= <- <-]. eexists. rewrite lookup_insert_eq. split; [reflexivity|]. left.
      split; reflexivity. }
  match goal with |- context [QueryHandshake ?d] => set (d0 := d) end.
  assert (Ho0 : port_open d0 = true).
  { unfold port_open, IsOpen. cbn. lia. }
  destruct (QueryHandshake d0) as [okh d1] eqn:Hh.
  apply QueryHandshake_inv in Hh as (_ & Hh).
  destruct (Hh Ho0) as (k & Hk & Hs1 & Ho1 & Hsame & _).
  assert (Hclosed : forall d, port_open (set_port (Close <$> port d) d) = false).
  { intros d. unfold port_open. cbn. destruct (port d) as [p|]; [|reflexivity]. cbn.
    unfold Close, IsOpen. destruct (0 <=? fd p) eqn:E; [reflexivity|exact E]. }
  destruct okh; cbn [negb].
  2:{ intros [= <- <-]. eexists. rewrite lookup_insert_eq. split; [reflexivity|]. left.
      split; [reflexivity|apply Hclosed]. }
  destruct (QueryStatus sf d1) as [oks d2] eqn:Hq.
  destruct oks; cbn [negb].
  2:{ intros [= <- <-]. eexists. rewrite lookup_insert_eq. split; [reflexivity|]. left.
      split; [reflexivity|apply Hclosed]. }
  intros [= <- <-]. eexists. rewrite lookup_insert_eq. split; [reflexivity|]. right.
  destruct (QueryStatus_inv _ _ _ Hq) as (_ & Hspd & Hrev & _ & Hpos & _ & Hs2 & Ho2).
  assert (Hd1 : stepsPerDegree d1 = stepsPerDegree device).
  { change (stepsPerDegree (set_port (port d0) d1) = stepsPerDegree d0).
    rewrite Hsame. reflexivity. }
  split; [reflexivity|]. split; [exact Ho2|]. split; [exact Hfd|]. split.
  - exists k. split; [exact Hk|]. rewrite Hs2, Hs1, <- app_assoc. f_equal. exact Hs0.
  - rewrite <- Hd1. auto.
Qed.

Lemma WRRotatorOpen_outcome_witness :
  let d := new_Device None "/dev/ttyUSB0" in
  let reply := (frames ["WandererRotatorMiniA"] ++
                status_reply "Mini" "20240101" "90000" "0.5" "0")%list in
  let r := WRRotatorOpen (fun _ => 3) (fun _ => true) (fun _ => true)
             (fun _ => reply) (fun _ => []) scan_float_dec {[ 0 := d ]} 0 in
  fst r = WR_SUCCESS /\
  exists d', snd r !! 0 = Some d' /\ port_open d' = true /\
             stepsPerDegree d' = steps_for (modelType d') 0.
Proof.
  intros d reply r.
  assert (Hr : fst r = WR_SUCCESS) by (vm_compute; reflexivity).
  split; [exact Hr|].
  destruct (WRRotatorOpen_outcome (fun _ => 3) (fun _ => true) (fun _ => true)
              (fun _ => reply) (fun _ => []) scan_float_dec {[ 0 := d ]} (snd r) 0 d (fst r)
              (lookup_singleton_eq _ _)) as (d' & Hl & [[He _]|(_ & Ho & _ & _ & Hspd & _)]).
  - apply surjective_pairing.
  - rewrite Hr in He. discriminate.
  - exists d'. split; [exact Hl|]. split; [exact Ho|exact Hspd].
Defined.

(** X18: closing is effective and keeps the readings.  After
    [WRRotatorClose] has succeeded, every motion entry point on that handle
    answers with a communication error and writes nothing, while
    [WRRotatorGetStatus] still succeeds and returns what it returned before
    the close. *)
Theorem WRRotatorClose_then_use (sf : string -> option F32.float)
    (g g' : gmap Z Device) (id : Z) (angle : F32.float) (out : WR_ROTATOR_STATUS.t) :
  WRRotatorClose g id = (WR_SUCCESS, g') ->
  WRRotatorMove g' id angle = (WR_ERROR_COMMUNICATION, g') /\
  WRRotatorMoveTo sf g' id angle = (WR_ERROR_COMMUNICATION, g') /\
  WRRotatorStopMove g' id = (WR_ERROR_COMMUNICATION, g') /\
  WRRotatorSyncPosition g' id angle = (WR_ERROR_COMMUNICATION, g') /\
  WRRotatorClose g' id = (WR_SUCCESS, g') /\
  exists s, WRRotatorGetStatus g id (Some out) = (WR_SUCCESS, Some s, g) /\
            WRRotatorGetStatus g' id (Some out) = (WR_SUCCESS, Some s, g').
Proof.
  unfold WRRotatorClose. destruct (g !! id) as [device|] eqn:Hg; [|discriminate].
  intros [= <-].
  match goal with |- context [<[id := ?x]> g] => set (d' := x) end.
  assert (Hc : port_open d' = false).
  { unfold d', port_open. cbn. destruct (port device) as [p|] eqn:Hp; cbn; [|rewrite Hp; reflexivity].
    unfold Close, IsOpen. destruct (0 <=? fd p) eqn:E; [reflexivity|exact E]. }
  assert (Hst : status d' = status device).
  { unfold d'. cbn. destruct (port device); reflexivity. }
  assert (Hidem : <[id := match port (StopMoveListener d') with
                          | Some p => set_port (Some (Close p)) (StopMoveListener d')
                          | None => StopMoveListener d' end]> (<[id := d']> g) = <[id := d']> g).
  { rewrite insert_insert_eq. f_equal. unfold d'. cbn.
    destruct (port device) as [p|] eqn:Hp; cbn; [|rewrite Hp; reflexivity].
    unfold Close at 1. destruct (0 <=? fd (Close p)) eqn:E; [|reflexivity].
    exfalso. unfold Close in E. destruct (0 <=? fd p) eqn:E2; cbn in E; congruence. }
  unfold WRRotatorMove, WRRotatorMoveTo, WRRotatorStopMove, WRRotatorSyncPosition,
    WRRotatorGetStatus. rewrite Hg, lookup_insert_eq, Hc, Hst, Hidem. cbn [negb].
  repeat split. eexists. split; reflexivity.
Qed.

Lemma WRRotatorClose_then_use_witness :
  let d := opened_rotator "Mini" "90000" [] in
  let g' := snd (WRRotatorClose {[ 0 := d ]} 0) in
  WRRotatorMove g' 0 (F32.of_int 10) = (WR_ERROR_COMMUNICATION, g').
Proof.
  intros d g'.
  apply (WRRotatorClose_then_use scan_float_dec {[ 0 := d ]} g' 0 (F32.of_int 10)
           (WR_ROTATOR_STATUS.mk F32.zero 0 0 F32.zero)).
  vm_compute; reflexivity.
Defined.

(** ** Scanning *)

Lemma scan_entry_step os_open os_tcgetattr os_tcsetattr line_at writes_at
    entry count g ids count' g' ids' :
  scan_entry os_open os_tcgetattr os_tcsetattr line_at writes_at entry (count, g, ids)
    = (count', g', ids') ->
  0 <= count < WR_MAX_NUM ->
  (count' = count /\ g' = g /\ ids' = ids) \/
  (count' = count + 1 /\ ids' = <[Z.to_nat count := count]> ids /\
   exists d dev node, g' = <[count := d]> g /\ entry = Some dev /\
     is_ch340 dev node /\ portName d = node /\ freshly_scanned node d).
Proof.
  unfold scan_entry, WR_MAX_NUM. intros H Hc.
  destruct entry as [dev|]; [|injection H as <- <- <-; auto].
  destruct (usb_parent dev) as [usb|] eqn:Hu; [|injection H as <- <- <-; auto].
  destruct (idVendor usb) as [vid|] eqn:Hv; [|injection H as <- <- <-; auto].
  destruct (idProduct usb) as [pid|] eqn:Hp; [|injection H as <- <- <-; auto].
  destruct (String.eqb vid "1a86") eqn:Ev; cbn [negb orb] in H;
    [|injection H as <- <- <-; auto].
  destruct (String.eqb pid "7523") eqn:Ep; cbn [negb] in H;
    [|injection H as <- <- <-; auto].
  apply String.eqb_eq in Ev, Ep. subst vid pid.
  destruct (devnode dev) as [node|] eqn:Hn; [|injection H as <- <- <-; auto].
  destruct (Open _ _ _ _ _) as [ok p] eqn:Ho.
  destruct ok; [|injection H as <- <- <-; auto].
  destruct (QueryHandshake _) as [found d1] eqn:Hh.
  destruct found; [|injection H as <- <- <-; auto].
  injection H as <- <- <-. right.
  split; [apply wrap32_small; unfold INT_MIN, INT_MAX; lia|]. split; [reflexivity|].
  eexists _, dev, node. split; [reflexivity|]. split; [reflexivity|].
  split; [exists usb; auto|].
  assert (Hop : port_open (new_Device (Some p) node) = true).
  { unfold Open in Ho. destruct (os_open node <? 0) eqn:E; [discriminate|].
    destruct (negb (os_tcgetattr _)); [discriminate|].
    destruct (negb (os_tcsetattr _)); [discriminate|].
    injection Ho as <-. unfold port_open, IsOpen. cbn. lia. }
  assert (Htx : sent (new_Device (Some p) node) = []%list).
  { unfold Open in Ho. destruct (os_open node <? 0); [discriminate|].
    destruct (negb (os_tcgetattr _)); [discriminate|].
    destruct (negb (os_tcsetattr _)); [discriminate|].
    injection Ho as <-. reflexivity. }
  apply QueryHandshake_inv in Hh as (_ & Hh).
  destruct (Hh Hop) as (k & Hk & Hs & Ho1 & Hsame & _).
  assert (Hfields : set_port None d1 = new_Device None node).
  { change (set_port None d1) with (set_port None (set_port (Some p) d1)).
    cbn [port new_Device] in Hsame. rewrite Hsame. reflexivity. }
  split; [|split; [|split]].
  - change (portName d1 = node).
    change (portName (set_port None d1) = node). rewrite Hfields. reflexivity.
  - unfold port_open. cbn. unfold port_open in Ho1.
    destruct (port d1) as [q|]; [|reflexivity]. cbn.
    unfold Close, IsOpen. destruct (0 <=? fd q) eqn:E; [reflexivity|exact E].
  - exact Hfields.
  - exists k. split; [exact Hk|]. rewrite Htx in Hs. cbn [app] in Hs. rewrite <- Hs.
    unfold sent. cbn. destruct (port d1) as [q|]; [|reflexivity]. cbn.
    unfold Close. destruct (0 <=? fd q); reflexivity.
Qed.






Lemma scan_loop_keeps_handles os_open os_tcgetattr os_tcsetattr line_at writes_at l :
  forall count g ids count' g' ids',
    scan_loop os_open os_tcgetattr os_tcsetattr line_at writes_at l (count, g, ids)
      = (count', g', ids') ->
    0 <= count ->
    forall id', is_Some (g !! id') -> is_Some (g' !! id').
Proof.
  induction l as [|entry rest IH]; intros count g ids count' g' ids' H Hc id' Hs;
    cbn [scan_loop] in H.
  - injection H as <- <- <-. exact Hs.
  - cbn [fst] in H. destruct (WR_MAX_NUM <=? count) eqn:E.
    + injection H as <- <- <-. exact Hs.
    + apply Z.leb_gt in E.
      destruct (scan_entry _ _ _ _ _ entry (count, g, ids)) as [[c1 g1] ids1] eqn:He.
      apply scan_entry_step in He; [|lia].
      destruct He as [(-> & -> & ->)|(-> & -> & d & dev & node & -> & _)].
      * eapply IH; eauto.
      * eapply IH; [exact H | lia |].
        destruct (Z.eq_dec id' count) as [->|Hne].
        -- rewrite lookup_insert_eq. eauto.
        -- rewrite lookup_insert_ne by congruence. exact Hs.
Qed.

(** X7: the registry under the entry points.  None of the eleven entry
    points that take a handle adds or removes a handle, and none changes
    the device of any handle but its own.  [WRRotatorScan], the one entry
    point that registers devices, removes none: whatever it returns, every
    handle that was registered before it is registered after it. *)
Theorem entry_points_touch_one_device (g : gmap Z Device) (id : Z)
    (os_open : string -> Z) (os_tcgetattr os_tcsetattr : Z -> bool)
    (line_at : string -> list line_event) (writes_at : string -> list bool)
    (sf : string -> option F32.float)
    (cfg : option WR_ROTATOR_CONFIG.t) (st : option WR_ROTATOR_STATUS.t)
    (ver : option WR_VERSION.t) (angle : F32.float)
    (udev : udev_scan) (number : option Z) (ids : option (list Z)) :
  (forall g',
   In g' [snd (WRRotatorOpen os_open os_tcgetattr os_tcsetattr line_at writes_at sf g id);
          snd (WRRotatorClose g id);
          snd (WRRotatorGetConfig g id cfg);
          snd (WRRotatorSetConfig g id cfg);
          snd (WRRotatorGetStatus g id st);
          snd (WRRotatorGetVersion g id ver);
          snd (WRRotatorFindHome sf g id);
          snd (WRRotatorSyncPosition g id angle);
          snd (WRRotatorMove g id angle);
          snd (WRRotatorMoveTo sf g id angle);
          snd (WRRotatorStopMove g id)] ->
   dom g' = dom g /\ forall id', id' <> id -> g' !! id' = g !! id') /\
  (forall id',
   is_Some (g !! id') ->
   is_Some (snd (WRRotatorScan os_open os_tcgetattr os_tcsetattr line_at writes_at
                   udev g number ids) !! id')).
Proof.
  split.
  2:{ intros id' Hs. unfold WRRotatorScan.
      destruct number as [n|]; [|exact Hs]. destruct ids as [a|]; [|exact Hs].
      destruct udev as [| |l]; [exact Hs|exact Hs|].
      destruct (scan_loop _ _ _ _ _ l (0, g, a)) as [[count g1] a1] eqn:H. cbn [snd].
      eapply scan_loop_keeps_handles; [exact H | lia | exact Hs]. }
  intros g'.
  assert (HMoveTo : forall a, touches_only id g (snd (WRRotatorMoveTo sf g id a))).
  { intros a. unfold WRRotatorMoveTo.
    destruct (g !! id) as [device|] eqn:Hg; [|left; reflexivity].
    destruct (negb (port_open device)); [left; reflexivity|].
    destruct (_ || _); [left; reflexivity|].
    destruct (QueryStatus sf device) as [ok d1]. cbn zeta.
    destruct (negb ok); [eapply touches_only_insert, Hg|].
    destruct (F32.eqb _ _); [eapply touches_only_insert, Hg|].
    destruct (touches_only_Move (<[id := d1]> g) id
                (shortest_delta a (F32.div (F32.of_int (mechanicalAngle d1)) F32.f1000)))
      as [->|(d' & _ & ->)].
    - eapply touches_only_insert, Hg.
    - rewrite insert_insert_eq. eapply touches_only_insert, Hg. }
  intros Hin. apply touches_only_frame.
  repeat (destruct Hin as [<-|Hin]); [| | | | | | | | | | |destruct Hin].
  - unfold WRRotatorOpen. destruct (g !! id) as [device|] eqn:Hg; [|left; reflexivity].
    destruct (Open _ _ _ _ _) as [[] p]; cbn [negb]; [|eapply touches_only_insert, Hg].
    destruct (QueryHandshake _) as [[] d1]; cbn [negb]; [|eapply touches_only_insert, Hg].
    destruct (QueryStatus _ _) as [[] d2]; cbn [negb]; eapply touches_only_insert, Hg.
  - unfold WRRotatorClose. destruct (g !! id) as [device|] eqn:Hg; [|left; reflexivity].
    eapply touches_only_insert, Hg.
  - unfold WRRotatorGetConfig. destruct cfg; [|left; reflexivity].
    destruct (g !! id); left; reflexivity.
  - unfold WRRotatorSetConfig. destruct cfg as [c|]; [|left; reflexivity].
    destruct (g !! id) as [device|] eqn:Hg; [|left; reflexivity].
    destruct (has_bit _ MASK_ROTATOR_REVERSE_DIRECTION).
    + destruct (SendCommand _ _) as [[] d1]; [|eapply touches_only_insert, Hg].
      destruct (has_bit _ _); [|eapply touches_only_insert, Hg].
      destruct (F32.ltb _ _); [eapply touches_only_insert, Hg|].
      destruct (SendCommand _ _) as [[] d2]; eapply touches_only_insert, Hg.
    + destruct (has_bit _ _); [|eapply touches_only_insert, Hg].
      destruct (F32.ltb _ _); [eapply touches_only_insert, Hg|].
      destruct (SendCommand _ _) as [[] d2]; eapply touches_only_insert, Hg.
  - unfold WRRotatorGetStatus. destruct st; [|left; reflexivity].
    destruct (g !! id); left; reflexivity.
  - unfold WRRotatorGetVersion. destruct ver; [|left; reflexivity].
    destruct (g !! id); left; reflexivity.
  - apply HMoveTo.
  - unfold WRRotatorSyncPosition. destruct (g !! id) as [device|] eqn:Hg; [|left; reflexivity].
    destruct (negb (port_open device)); [left; reflexivity|].
    destruct (negb (F32.eqb _ _)); [left; reflexivity|].
    destruct (_ || _); [left; reflexivity|].
    destruct (SendCommand _ _) as [[] d']; eapply touches_only_insert, Hg.
  - apply touches_only_Move.
  - apply HMoveTo.
  - unfold WRRotatorStopMove. destruct (g !! id) as [device|] eqn:Hg; [|left; reflexivity].
    destruct (negb (port_open device)); [left; reflexivity|].
    destruct (SendCommand _ _) as [[] d']; eapply touches_only_insert, Hg.
Qed.

Lemma entry_points_touch_one_device_witness :
  let d := opened_rotator "Mini" "0" [] in
  let g : gmap Z Device := <[1 := d]> {[ 0 := d ]} in
  snd (WRRotatorStopMove g 0) !! 1 = Some d.
Proof.
  intros d g.
  destruct (entry_points_touch_one_device g 0 (fun _ => 3) (fun _ => true) (fun _ => true)
              (fun _ => []) (fun _ => []) scan_float_dec None None None F32.zero
              udev_new_failed None None) as [Hall _].
  destruct (Hall (snd (WRRotatorStopMove g 0)) ltac:(cbn [In]; auto 20)) as [_ H].
  rewrite (H 1) by discriminate. apply lookup_insert_eq.
Defined.

(** ** The move listener *)

(** X21: one run of the move listener on an open transport, by what its
    two reads bring.  A read that times out with no byte, or a frame that
    does not parse, ends the run with the listener flag cleared and with
    status, mechanical angle, overshoot phase and written data as before:
    a time-out never clears the moving flag.  When both frames parse, the
    rotated angle, the mechanical angle and the position are recorded.
    Then, unless an overshoot is in its outbound phase, the moving flag and
    the listener flag are cleared, a return phase is ended and nothing is
    written.  In the outbound phase the return move is written, and
    exactly when that write is accepted the listener flag stays raised for
    a further listener, with the moving flag set and the phase advanced;
    when it is not accepted the overshoot is abandoned and both flags are
    cleared.  The target angle, the overshoot angle, the steps per degree,
    the backlash and the configuration are never touched. *)
Theorem MoveListenerThreadFunc_outcome (sf : string -> option F32.float)
    (d d' : Device) (respawn : bool) (p p1 p2 : SerialPort) (b1 b2 : string) :
  port d = Some p -> IsOpen p = true ->
  Read p 32 "A" = (b1, p1) -> Read p1 32 "A" = (b2, p2) ->
  MoveListenerThreadFunc sf d = (d', respawn) ->
  ((b1 = EmptyString \/ sf (c_str b1) = None \/
    b2 = EmptyString \/ scan_int (c_str b2) = None) ->
   respawn = false /\ listenerRunning d' = false /\
   status d' = status d /\ mechanicalAngle d' = mechanicalAngle d /\
   overshooting d' = overshooting d /\ sent d' = sent d) /\
  (forall rotated v,
     b1 <> EmptyString -> sf (c_str b1) = Some rotated ->
     b2 <> EmptyString -> scan_int (c_str b2) = Some v ->
     lastRotated d' = rotated /\ mechanicalAngle d' = v /\
     position (status d') = F32.div (F32.of_int v) F32.f1000 /\
     (overshooting d <> 1 ->
      respawn = false /\ listenerRunning d' = false /\ moving (status d') = 0 /\
      overshooting d' = (if overshooting d =? 2 then 0 else overshooting d) /\
      sent d' = sent d) /\
     (overshooting d = 1 ->
      sent d' = (sent d ++
                 [snprintf 16 (string_of_int
                    (move_command_value
                       (if F32.ltb F32.zero (targetAngle d) then F32.opp (overshootAngle d)
                        else overshootAngle d)
                       (stepsPerDegree d)))])%list /\
      (hd true (wr_results p) = true ->
       respawn = true /\ listenerRunning d' = true /\ moving (status d') = 1 /\
       overshooting d' = 2) /\
      (hd true (wr_results p) = false ->
       respawn = false /\ listenerRunning d' = false /\ moving (status d') = 0 /\
       overshooting d' = 0))) /\
  (portName d' = portName d /\ modelType d' = modelType d /\
   targetAngle d' = targetAngle d /\ overshootAngle d' = overshootAngle d /\
   stepsPerDegree d' = stepsPerDegree d /\ backlash d' = backlash d /\
   rotator d' = rotator d /\ stepsPerRevolution (status d') = stepsPerRevolution (status d) /\
   stepSize (status d') = stepSize (status d)).
Proof.
  intros Hp Ho H1 H2. unfold MoveListenerThreadFunc. rewrite Hp, Ho. cbn [negb].
  destruct (Read_tx _ _ _ _ _ H1) as [Ht1 Hf1].
  destruct (Read_tx _ _ _ _ _ H2) as [Ht2 Hf2].
  pose proof (Read_wr_results _ _ _ _ _ H1) as Hw1.
  pose proof (Read_wr_results _ _ _ _ _ H2) as Hw2.
  assert (Ho2 : IsOpen p2 = true) by (unfold IsOpen in *; congruence).
  assert (Hs0 : sent d = tx p) by (unfold sent; rewrite Hp; reflexivity).
  unfold io_bind, port_Read at 1. rewrite Hp, H1.
  destruct b1 as [|a1 s1].
  { intros [= <- <-]. unfold sent. cbn. rewrite Hp.
    repeat split; try congruence; intros; congruence. }
  unfold io_scan at 1. destruct (sf (c_str (String a1 s1))) as [rotated|] eqn:Hsf.
  2:{ intros [= <- <-]. unfold sent. cbn. rewrite Hp.
      repeat split; try congruence; intros; congruence. }
  unfold io_set at 1, port_Read. cbn [port set_port set_lastRotated]. rewrite H2.
  destruct b2 as [|a2 s2].
  { intros [= <- <-]. unfold sent. cbn. rewrite Hp.
    repeat split; try congruence; intros; congruence. }
  unfold io_scan at 1. destruct (scan_int (c_str (String a2 s2))) as [v|] eqn:Hsi.
  2:{ intros [= <- <-]. unfold sent. cbn. rewrite Hp.
      repeat split; try congruence; intros; congruence. }
  unfold io_set, listener_phase.
  cbn [overshooting set_position set_status set_mechanicalAngle set_port set_lastRotated].
  destruct (overshooting d =? 1) eqn:E1.
  - apply Z.eqb_eq in E1.
    match goal with |- context [SendCommand ?c ?x] =>
      assert (Hox : port_open x = true) by (unfold port_open; cbn; exact Ho2);
      destruct (SendCommand_open c x Hox)
        as (q & q' & ok & Hq & Hwq & Hs & Htq & _ & Hok) end.
    cbn in Hq. injection Hq as <-. rewrite Hs. rewrite Hw2, Hw1 in Hok.
    cbn [targetAngle overshootAngle stepsPerDegree set_overshooting set_position set_status
         set_mechanicalAngle set_port set_lastRotated] in Htq |- *.
    assert (Hsent : tx q' =
              (sent d ++ [snprintf 16 (string_of_int
                 (move_command_value
                    (if F32.ltb F32.zero (targetAngle d) then F32.opp (overshootAngle d)
                     else overshootAngle d) (stepsPerDegree d)))])%list).
    { rewrite Htq, Ht2, Ht1, Hs0. reflexivity. }
    destruct ok; intros [= <- <-]; unfold sent; cbn; rewrite <- Hok;
      (split; [intros [E|[E|[E|E]]]; congruence|]);
      (split; [|repeat split]); intros rotated' v' _ Hsf' _ Hsi';
      assert (rotated' = rotated) by congruence; assert (v' = v) by congruence;
      subst rotated' v'; repeat split; try (intros; congruence); try exact Hsent.
  - apply Z.eqb_neq in E1.
    destruct (overshooting d =? 2) eqn:E2; intros [= <- <-]; unfold sent; cbn;
      (split; [intros [E|[E|[E|E]]]; congruence|]);
      (split; [|repeat split]); intros rotated' v' _ Hsf' _ Hsi';
      assert (rotated' = rotated) by congruence; assert (v' = v) by congruence;
      subst rotated' v'; repeat split; try (intros; congruence);
      rewrite Hp; congruence.
Qed.

Lemma MoveListenerThreadFunc_outcome_witness :
  let r := MoveListenerThreadFunc scan_float_dec overshooting_rotator in
  snd r = true /\ overshooting (fst r) = 2 /\ moving (status (fst r)) = 1.
Proof.
  intros r.
  destruct (MoveListenerThreadFunc_outcome scan_float_dec overshooting_rotator (fst r) (snd r)
              (open_port (frames ["12.5A"; "12500A"]) [])
              (open_port (frames ["12500A"]) []) (open_port [] [])
              "12.5A" "12500A" eq_refl eq_refl eq_refl eq_refl)
    as (_ & H & _).
  - apply surjective_pairing.
  - destruct (H (F32.dyadic 25 1) 12500) as (_ & _ & _ & _ & Hov);
      try discriminate; try (vm_compute; reflexivity).
    destruct Hov as (_ & Hacc & _); [reflexivity|].
    destruct (Hacc eq_refl) as (Hr & _ & Hm & Hp). auto.
Defined.

(** X22: when nothing arrives before the first wait of the listener ends,
    it stops without a word: it clears the listener flag, consumes that
    wait and changes nothing else, so a device that was marked as moving
    stays marked. *)
Theorem MoveListenerThreadFunc_timeout (sf : string -> option F32.float)
    (d : Device) (p : SerialPort) (rest : list line_event) :
  port d = Some p -> IsOpen p = true -> line p = Quiet :: rest ->
  MoveListenerThreadFunc sf d =
    (set_listenerRunning false
       (set_port (Some (mkPort (fd p) rest (wr_results p) (tx p))) d), false).
Proof.
  intros Hp Ho Hl. unfold MoveListenerThreadFunc. rewrite Hp, Ho. cbn [negb].
  unfold io_bind, port_Read. rewrite Hp. unfold Read.
  unfold IsOpen in Ho. destruct (fd p <? 0) eqn:E; [lia|].
  rewrite Hl. reflexivity.
Qed.

Lemma MoveListenerThreadFunc_timeout_witness :
  let p := open_port [Quiet] [] in
  let d := set_moving 1 (set_port (Some p) (opened_rotator "Mini" "0" [])) in
  moving (status (fst (MoveListenerThreadFunc scan_float_dec d))) = 1 /\
  listenerRunning (fst (MoveListenerThreadFunc scan_float_dec d)) = false.
Proof.
  intros p d.
  rewrite (MoveListenerThreadFunc_timeout scan_float_dec d p [] eq_refl eq_refl eq_refl).
  split; reflexivity.
Defined.

(** ** The overshoot state *)

Lemma QueryHandshake_shape d ok d' :
  QueryHandshake d = (ok, d') -> exists q, d' = set_port q d.
Proof.
  unfold QueryHandshake. destruct (port d) as [p|] eqn:Hp.
  - destruct (negb (IsOpen p)).
    + intros [= <- <-]. exists (port d). symmetry. apply set_port_same.
    + destruct (handshake_loop 5 p) as [ok' p']. intros [= <- <-]. eauto.
  - intros [= <- <-]. exists (port d). symmetry. apply set_port_same.
Qed.

Ltac keep_step Hg :=
  right; eexists _, _; split; [exact Hg|]; split; [reflexivity|]; cbn; auto.

Lemma keeps_overshoot_Move g id angle :
  keeps_overshoot id g (snd (WRRotatorMove g id angle)).
Proof.
  unfold WRRotatorMove. destruct (g !! id) as [device|] eqn:Hg; [|left; reflexivity].
  destruct (negb (port_open device)); [left; reflexivity|].
  destruct (SendCommand _ _) as [ok d1] eqn:H1.
  apply SendCommand_shape in H1 as (q & -> & _). destruct ok; keep_step Hg.
Qed.

Lemma keeps_overshoot_MoveTo sf g id angle :
  keeps_overshoot id g (snd (WRRotatorMoveTo sf g id angle)).
Proof.
  unfold WRRotatorMoveTo. destruct (g !! id) as [device|] eqn:Hg; [|left; reflexivity].
  destruct (negb (port_open device)); [left; reflexivity|].
  destruct (_ || _); [left; reflexivity|].
  destruct (QueryStatus sf device) as [ok d1] eqn:Hq. cbn zeta.
  apply QueryStatus_frame in Hq as ((Hn & _ & _ & _ & Hov & Hoa & _) & _).
  destruct (negb ok); [keep_step Hg|].
  destruct (F32.eqb _ _); [keep_step Hg|].
  match goal with |- context [WRRotatorMove ?g1 ?i ?a] =>
    destruct (keeps_overshoot_Move g1 i a) as [->|(d0 & d2 & Hl & -> & Hn2 & Hov2 & Hoa2)] end.
  - keep_step Hg.
  - rewrite lookup_insert_eq in Hl. injection Hl as <-. rewrite insert_insert_eq.
    right. exists device, d2. split; [exact Hg|]. split; [reflexivity|].
    repeat split; congruence.
Qed.

Lemma keeps_overshoot_frame id g g' :
  keeps_overshoot id g g' ->
  forall id' d', g' !! id' = Some d' ->
    exists d0, g !! id' = Some d0 /\ portName d' = portName d0 /\
               overshooting d' = overshooting d0 /\ overshootAngle d' = overshootAngle d0.
Proof.
  intros [->|(d0 & d1 & Hg & -> & Hk)] id' d' H; [eauto|].
  destruct (Z.eq_dec id' id) as [->|Hne].
  - rewrite lookup_insert_eq in H. injection H as <-. eauto.
  - rewrite lookup_insert_ne in H by congruence. eauto.
Qed.

(** X23: the overshoot state is out of reach of the eleven entry points
    that take a handle.  None of them changes the overshoot phase, the
    overshoot angle or the port name of any registered device; in
    particular the overshoot fields of a configuration request are ignored
    by [WRRotatorSetConfig].  ([WRRotatorScan] is not among them: it
    replaces the devices of the handles it reports by new ones.) *)
Theorem entry_points_keep_overshoot (g : gmap Z Device) (id : Z)
    (os_open : string -> Z) (os_tcgetattr os_tcsetattr : Z -> bool)
    (line_at : string -> list line_event) (writes_at : string -> list bool)
    (sf : string -> option F32.float)
    (cfg : option WR_ROTATOR_CONFIG.t) (st : option WR_ROTATOR_STATUS.t)
    (ver : option WR_VERSION.t) (angle : F32.float) (g' : gmap Z Device) :
  In g' [snd (WRRotatorOpen os_open os_tcgetattr os_tcsetattr line_at writes_at sf g id);
         snd (WRRotatorClose g id);
         snd (WRRotatorGetConfig g id cfg);
         snd (WRRotatorSetConfig g id cfg);
         snd (WRRotatorGetStatus g id st);
         snd (WRRotatorGetVersion g id ver);
         snd (WRRotatorFindHome sf g id);
         snd (WRRotatorSyncPosition g id angle);
         snd (WRRotatorMove g id angle);
         snd (WRRotatorMoveTo sf g id angle);
         snd (WRRotatorStopMove g id)] ->
  forall id' d', g' !! id' = Some d' ->
    exists d0, g !! id' = Some d0 /\ portName d' = portName d0 /\
               overshooting d' = overshooting d0 /\ overshootAngle d' = overshootAngle d0.
Proof.
  intros Hin. apply keeps_overshoot_frame with (id := id).
  repeat (destruct Hin as [<-|Hin]); [| | | | | | | | | | |destruct Hin].
  - unfold WRRotatorOpen. destruct (g !! id) as [device|] eqn:Hg; [|left; reflexivity].
    destruct (Open _ _ _ _ _) as [[] p]; cbn [negb]; [|keep_step Hg].
    destruct (QueryHandshake _) as [okh d1] eqn:Hh.
    apply QueryHandshake_shape in Hh as (q & ->).
    destruct okh; cbn [negb]; [|keep_step Hg].
    destruct (QueryStatus _ _) as [oks d2] eqn:Hq.
    apply QueryStatus_frame in Hq as ((Hn & _ & _ & _ & Hov & Hoa & _) & _).
    destruct oks; cbn [negb]; keep_step Hg.
  - unfold WRRotatorClose. destruct (g !! id) as [device|] eqn:Hg; [|left; reflexivity].
    destruct (port (StopMoveListener device)); keep_step Hg.
  - unfold WRRotatorGetConfig. destruct cfg; [|left; reflexivity].
    destruct (g !! id); left; reflexivity.
  - unfold WRRotatorSetConfig. destruct cfg as [c|]; [|left; reflexivity].
    destruct (g !! id) as [device|] eqn:Hg; [|left; reflexivity].
    destruct (has_bit _ MASK_ROTATOR_REVERSE_DIRECTION).
    + destruct (SendCommand _ _) as [ok d1] eqn:H1.
      apply SendCommand_shape in H1 as (q1 & -> & _).
      destruct ok; [|keep_step Hg].
      destruct (has_bit _ _); [|keep_step Hg].
      destruct (F32.ltb _ _); [keep_step Hg|].
      destruct (SendCommand _ _) as [ok d2] eqn:H2.
      apply SendCommand_shape in H2 as (q2 & -> & _). destruct ok; keep_step Hg.
    + destruct (has_bit _ _); [|keep_step Hg].
      destruct (F32.ltb _ _); [keep_step Hg|].
      destruct (SendCommand _ _) as [ok d2] eqn:H2.
      apply SendCommand_shape in H2 as (q2 & -> & _). destruct ok; keep_step Hg.
  - unfold WRRotatorGetStatus. destruct st; [|left; reflexivity].
    destruct (g !! id); left; reflexivity.
  - unfold WRRotatorGetVersion. destruct ver; [|left; reflexivity].
    destruct (g !! id); left; reflexivity.
  - apply keeps_overshoot_MoveTo.
  - unfold WRRotatorSyncPosition. destruct (g !! id) as [device|] eqn:Hg; [|left; reflexivity].
    destruct (negb (port_open device)); [left; reflexivity|].
    destruct (negb (F32.eqb _ _)); [left; reflexivity|].
    destruct (_ || _); [left; reflexivity|].
    destruct (SendCommand _ _) as [ok d1] eqn:H1.
    apply SendCommand_shape in H1 as (q & -> & _). destruct ok; keep_step Hg.
  - apply keeps_overshoot_Move.
  - apply keeps_overshoot_MoveTo.
  - unfold WRRotatorStopMove. destruct (g !! id) as [device|] eqn:Hg; [|left; reflexivity].
    destruct (negb (port_open device)); [left; reflexivity|].
    destruct (SendCommand _ _) as [ok d1] eqn:H1.
    apply SendCommand_shape in H1 as (q & -> & _). destruct ok; keep_step Hg.
Qed.

Lemma entry_points_keep_overshoot_witness :
  let d := opened_rotator "Mini" "0" [] in
  let c := WR_ROTATOR_CONFIG.mk 3 1 (F32.dyadic 3 3) 1 (F32.of_int 5) 1 in
  exists d', snd (WRRotatorSetConfig {[ 0 := d ]} 0 (Some c)) !! 0 = Some d' /\
             overshooting d' = 0 /\ overshootAngle d' = F32.zero.
Proof.
  intros d c.
  destruct (snd (WRRotatorSetConfig {[ 0 := d ]} 0 (Some c)) !! 0) as [d'|] eqn:Hl.
  - destruct (entry_points_keep_overshoot {[ 0 := d ]} 0 (fun _ => 3) (fun _ => true)
                (fun _ => true) (fun _ => []) (fun _ => []) scan_float_dec (Some c) None None
                F32.zero (snd (WRRotatorSetConfig {[ 0 := d ]} 0 (Some c)))
                ltac:(cbn [In]; auto) 0 d' Hl) as (d0 & Hd0 & _ & Ho & Ha).
    rewrite lookup_singleton_eq in Hd0. injection Hd0 as <-.
    exists d'. split; [reflexivity|]. rewrite Ho, Ha. split; reflexivity.
  - exfalso. revert Hl. vm_compute. discriminate.
Defined.

(** ** Composite behaviour *)

(** X24: [SerialPort::Open] reports what it leaves behind: the transport
    is open afterwards exactly when the call returned true, also when it
    was open before and the new attempt fails; the descriptor is then the
    one [open] returned. *)
Theorem Open_result_is_IsOpen (os_open : string -> Z) (os_tcgetattr os_tcsetattr : Z -> bool)
    (p : SerialPort) (portName : string) :
  IsOpen (snd (Open os_open os_tcgetattr os_tcsetattr p portName))
  = fst (Open os_open os_tcgetattr os_tcsetattr p portName) /\
  (fst (Open os_open os_tcgetattr os_tcsetattr p portName) = true ->
   fd (snd (Open os_open os_tcgetattr os_tcsetattr p portName)) = os_open portName /\
   os_tcgetattr (os_open portName) = true /\ os_tcsetattr (os_open portName) = true) /\
  tx (snd (Open os_open os_tcgetattr os_tcsetattr p portName)) = tx p.
Proof.
  unfold Open, IsOpen. destruct (os_open portName <? 0) eqn:E; cbn.
  - apply Z.ltb_lt in E. repeat split; try discriminate. apply Z.leb_gt. exact E.
  - apply Z.ltb_ge in E.
    destruct (os_tcgetattr _); cbn; [|repeat split; discriminate].
    destruct (os_tcsetattr _); cbn; [|repeat split; discriminate].
    repeat split. apply Z.leb_le. exact E.
Qed.

(** X25: a configuration request that succeeds has written exactly the
    commands its mask selects, the reverse-direction command before the
    backlash command, and nothing else.  With neither bit in the mask the
    call succeeds and leaves the registry as it was, whatever the state of
    the transport, closed or missing included. *)
Theorem WRRotatorSetConfig_success_writes (g : gmap Z Device) (id : Z) (device : Device)
    (c : WR_ROTATOR_CONFIG.t) :
  g !! id = Some device ->
  (has_bit (WR_ROTATOR_CONFIG.mask c) MASK_ROTATOR_REVERSE_DIRECTION = false ->
   has_bit (WR_ROTATOR_CONFIG.mask c) MASK_ROTATOR_BACKLASH = false ->
   WRRotatorSetConfig g id (Some c) = (WR_SUCCESS, g)) /\
  (forall g',
   WRRotatorSetConfig g id (Some c) = (WR_SUCCESS, g') ->
   exists d', g' = <[id := d']> g /\
    sent d' =
      (sent device ++
       (if has_bit (WR_ROTATOR_CONFIG.mask c) MASK_ROTATOR_REVERSE_DIRECTION
        then [ReverseDirectionToCommand (WR_ROTATOR_CONFIG.reverseDirection c)] else []) ++
       (if has_bit (WR_ROTATOR_CONFIG.mask c) MASK_ROTATOR_BACKLASH
        then [String.append
                (string_of_int (BacklashToCommand (WR_ROTATOR_CONFIG.backlash c))) nl]
        else []))%list /\
    (has_bit (WR_ROTATOR_CONFIG.mask c) MASK_ROTATOR_BACKLASH = true ->
     F32.ltb (WR_ROTATOR_CONFIG.backlash c) F32.zero = false)).
Proof.
  intros Hg. split.
  { intros Hr Hb. unfold WRRotatorSetConfig. rewrite Hg, Hr, Hb.
    rewrite insert_id by exact Hg. reflexivity. }
  intros g'. unfold WRRotatorSetConfig. rewrite Hg.
  assert (Hfit : snprintf 32 (String.append
                   (string_of_int (BacklashToCommand (WR_ROTATOR_CONFIG.backlash c))) nl)
                 = String.append
                     (string_of_int (BacklashToCommand (WR_ROTATOR_CONFIG.backlash c))) nl).
  { apply snprintf_fits. rewrite length_append.
    pose proof (string_of_int_length11 (BacklashToCommand (WR_ROTATOR_CONFIG.backlash c))).
    cbn. lia. }
  assert (Hsend : forall cmd d ok d1, SendCommand cmd d = (ok, d1) -> ok = true ->
            exists q, d1 = set_port q d /\ sent (set_port q d) = (sent d ++ [cmd])%list).
  { intros cmd d ok d1 H ->. apply SendCommand_shape in H as (q & -> & Ho & Hc).
    exists q. split; [reflexivity|]. destruct (port_open d) eqn:E.
    - apply Ho. reflexivity.
    - destruct (Hc eq_refl). discriminate. }
  destruct (has_bit _ MASK_ROTATOR_REVERSE_DIRECTION).
  - destruct (SendCommand _ device) as [ok d1] eqn:H1. destruct ok; [|discriminate].
    destruct (Hsend _ _ _ _ H1 eq_refl) as (q1 & -> & Hs1).
    destruct (has_bit _ MASK_ROTATOR_BACKLASH).
    + destruct (F32.ltb _ _); [discriminate|]. rewrite Hfit.
      match goal with |- context [SendCommand ?cmd ?x] =>
        destruct (SendCommand cmd x) as [ok d2] eqn:H2 end. destruct ok; [|discriminate].
      destruct (Hsend _ _ _ _ H2 eq_refl) as (q2 & -> & Hs2).
      intros [= <-]. eexists. split; [reflexivity|]. split; [|reflexivity].
      revert Hs1 Hs2. unfold sent. cbn. intros Hs1 Hs2. rewrite Hs2, Hs1, <- app_assoc.
      reflexivity.
    + intros [= <-]. eexists. split; [reflexivity|]. split; [|discriminate].
      revert Hs1. unfold sent. cbn. intros ->. reflexivity.
  - destruct (has_bit _ MASK_ROTATOR_BACKLASH).
    + destruct (F32.ltb _ _); [discriminate|]. rewrite Hfit.
      match goal with |- context [SendCommand ?cmd ?x] =>
        destruct (SendCommand cmd x) as [ok d2] eqn:H2 end. destruct ok; [|discriminate].
      destruct (Hsend _ _ _ _ H2 eq_refl) as (q2 & -> & Hs2).
      intros [= <-]. eexists. split; [reflexivity|]. split; [|reflexivity].
      revert Hs2. unfold sent. cbn. intros ->. reflexivity.
    + intros [= <-]. eexists. split; [reflexivity|]. split; [|discriminate].
      cbn. rewrite app_nil_r. reflexivity.
Qed.

Lemma WRRotatorSetConfig_success_writes_witness :
  let d := opened_rotator "Mini" "0" [] in
  let c := WR_ROTATOR_CONFIG.mk 3 1 (F32.dyadic 3 3) 0 F32.zero 0 in
  exists d', snd (WRRotatorSetConfig {[ 0 := d ]} 0 (Some c)) = <[0 := d']> {[ 0 := d ]} /\
             sent d' = [String.append "1700001" nl; String.append "1600003" nl].
Proof.
  intros d c.
  destruct (WRRotatorSetConfig {[ 0 := d ]} 0 (Some c)) as [e g'] eqn:Hr.
  assert (He : e = WR_SUCCESS) by (revert Hr; vm_compute; congruence).
  subst e.
  destruct (WRRotatorSetConfig_success_writes {[ 0 := d ]} 0 d c (lookup_singleton_eq _ _))
    as (_ & Hall).
  destruct (Hall g' Hr) as (d' & Hg' & Hs & _).
  exists d'. split; [exact Hg'|]. rewrite Hs. vm_compute. reflexivity.
Defined.

(** X26: [WRRotatorMoveTo] is a status query followed by a relative move.
    For an angle in range on an open transport it writes the probe first;
    if the query fails it stops there with a communication error; if the
    query succeeds and the shortest way is not zero it behaves as
    [WRRotatorMove] by that difference, so that one move command follows
    the probe and the stored target angle is the difference, not the angle
    that was asked for. *)
Theorem WRRotatorMoveTo_composes (sf : string -> option F32.float)
    (g : gmap Z Device) (id : Z) (device d1 : Device) (angle : F32.float) (ok : bool) :
  g !! id = Some device ->
  port_open device = true ->
  F32.ltb angle F32.zero || F32.leb F32.f360 angle = false ->
  QueryStatus sf device = (ok, d1) ->
  let delta := shortest_delta angle (F32.div (F32.of_int (mechanicalAngle d1)) F32.f1000) in
  (ok = false ->
     WRRotatorMoveTo sf g id angle = (WR_ERROR_COMMUNICATION, <[id := d1]> g) /\
     sent d1 = (sent device ++ [handshake_probe])%list) /\
  (ok = true -> F32.eqb delta F32.zero = false ->
     WRRotatorMoveTo sf g id angle = WRRotatorMove (<[id := d1]> g) id delta /\
     exists d', snd (WRRotatorMoveTo sf g id angle) = <[id := d']> g /\
       targetAngle d' = delta /\
       sent d' = (sent device ++
                  [handshake_probe;
                   snprintf 8 (string_of_int (move_command_value delta (stepsPerDegree d1)))])%list).
Proof.
  intros Hg Ho Hr Hq delta. unfold WRRotatorMoveTo. rewrite Hg, Ho, Hr, Hq. cbn [negb].
  destruct (QueryStatus_frame _ _ _ _ Hq) as (_ & Hs & _).
  destruct (Hs Ho) as (Hsent & Ho1). split.
  - intros ->. split; [reflexivity|exact Hsent].
  - intros -> Hd. cbn [negb]. fold delta. rewrite Hd. split; [reflexivity|].
    unfold WRRotatorMove. rewrite lookup_insert_eq, Ho1. cbn [negb].
    destruct (SendCommand _ _) as [okw d2] eqn:H2.
    apply SendCommand_shape in H2 as (q & -> & Hs2 & _).
    assert (Ho2 : port_open (set_targetAngle delta d1) = true) by exact Ho1.
    destruct (Hs2 Ho2) as (Hsent2 & _ & _).
    assert (Hfinal : sent (set_port q (set_targetAngle delta d1)) =
              (sent device ++ [handshake_probe;
                 snprintf 8 (string_of_int (move_command_value delta (stepsPerDegree d1)))])%list).
    { rewrite Hsent2. change (sent (set_targetAngle delta d1)) with (sent d1).
      rewrite Hsent, <- app_assoc. reflexivity. }
    destruct okw; cbn [snd]; rewrite insert_insert_eq; eexists; (split; [reflexivity|]);
      (split; [reflexivity|]); exact Hfinal.
Qed.

Lemma WRRotatorMoveTo_composes_witness :
  let d := rotator_replying "Mini" "90000" in
  exists d', snd (WRRotatorMoveTo scan_float_dec {[ 0 := d ]} 0 (F32.of_int 100))
               = <[0 := d']> {[ 0 := d ]} /\
             targetAngle d' = F32.of_int 10 /\
             sent d' = [handshake_probe; "1011420"].
Proof.
  intros d.
  destruct (QueryStatus scan_float_dec d) as [ok d1] eqn:Hq.
  assert (Hok : ok = true) by (revert Hq; vm_compute; congruence).
  assert (Hd1 : d1 = snd (QueryStatus scan_float_dec d)) by (rewrite Hq; reflexivity).
  destruct (WRRotatorMoveTo_composes scan_float_dec {[ 0 := d ]} 0 d d1 (F32.of_int 100) ok
              (lookup_singleton_eq _ _) eq_refl eq_refl Hq) as (_ & H).
  destruct (H Hok) as (_ & d' & Hg' & Ht & Hs).
  - rewrite Hd1. vm_compute. reflexivity.
  - exists d'. split; [exact Hg'|]. split.
    + rewrite Ht, Hd1. vm_compute. reflexivity.
    + rewrite Hs, Hd1. vm_compute. reflexivity.
Defined.

Lemma Read_frame p maxlen stop_char frame rest :
  IsOpen p = true ->
  ~ In stop_char (list_ascii_of_string frame) ->
  (String.length frame + 1 < maxlen)%nat ->
  line p = (map Rx (list_ascii_of_string frame) ++ Rx stop_char :: rest)%list ->
  Read p maxlen stop_char
  = (String.append frame (String stop_char EmptyString),
     mkPort (fd p) rest (wr_results p) (tx p)).
Proof.
  intros Ho Hn Hl Hline. unfold Read, IsOpen in *.
  replace (fd p <? 0) with false by (symmetry; apply Z.ltb_ge; lia).
  rewrite Hline, read_loop_frame by (assumption || lia). reflexivity.
Qed.

Lemma port_Read_frame d p frame rest :
  port d = Some p -> IsOpen p = true ->
  ~ In "A"%char (list_ascii_of_string frame) ->
  (String.length frame < 31)%nat ->
  line p = (map Rx (list_ascii_of_string frame) ++ Rx "A"%char :: rest)%list ->
  port_Read 32 "A" d
  = (Some (c_str (String.append frame "A")),
     set_port (Some (mkPort (fd p) rest (wr_results p) (tx p))) d).
Proof.
  intros Hp Ho Hn Hlen Hl. unfold port_Read. rewrite Hp.
  rewrite (Read_frame p 32 "A" frame rest Ho Hn ltac:(lia) Hl).
  change (String "A" EmptyString) with "A"%string.
  destruct frame as [|a frame]; reflexivity.
Qed.

(** X27: the listener completes a move.  When the two completion frames
    arrive whole, the first read by the C library as the number [rotated]
    and the second as the integer [v], and no overshoot is in its outbound
    phase, one run of the listener records both, sets the position to
    [v / 1000], clears the moving flag and the listener flag, ends an
    overshoot that was in its return phase, writes nothing and consumes
    exactly the two frames. *)
Theorem MoveListenerThreadFunc_completes (sf : string -> option F32.float)
    (d : Device) (p : SerialPort) (rotated_frame position_frame : string)
    (rotated : F32.float) (v : Z) (rest : list line_event) :
  port d = Some p -> IsOpen p = true ->
  line p = (map Rx (list_ascii_of_string rotated_frame) ++ Rx "A"%char ::
            map Rx (list_ascii_of_string position_frame) ++ Rx "A"%char :: rest)%list ->
  ~ In "A"%char (list_ascii_of_string rotated_frame) ->
  ~ In "A"%char (list_ascii_of_string position_frame) ->
  (String.length rotated_frame < 31)%nat ->
  (String.length position_frame < 31)%nat ->
  sf (c_str (String.append rotated_frame "A")) = Some rotated ->
  scan_int (c_str (String.append position_frame "A")) = Some v ->
  overshooting d <> 1 ->
  exists d',
  MoveListenerThreadFunc sf d = (d', false) /\
  lastRotated d' = rotated /\ mechanicalAngle d' = v /\
  position (status d') = F32.div (F32.of_int v) F32.f1000 /\
  moving (status d') = 0 /\ listenerRunning d' = false /\
  overshooting d' = (if overshooting d =? 2 then 0 else overshooting d) /\
  port d' = Some (mkPort (fd p) rest (wr_results p) (tx p)).
Proof.
  intros Hp Ho Hl Hn1 Hn2 Hl1 Hl2 Hsf Hsi Hov.
  unfold MoveListenerThreadFunc. rewrite Hp, Ho. cbn [negb].
  unfold io_bind.
  rewrite (port_Read_frame d p rotated_frame _ Hp Ho Hn1 Hl1 Hl).
  unfold io_scan at 1. rewrite Hsf. unfold io_set at 1.
  rewrite (port_Read_frame
             (set_lastRotated rotated
                (set_port (Some (mkPort (fd p)
                   (map Rx (list_ascii_of_string position_frame) ++ Rx "A"%char :: rest)%list
                   (wr_results p) (tx p))) d))
             (mkPort (fd p)
                (map Rx (list_ascii_of_string position_frame) ++ Rx "A"%char :: rest)%list
                (wr_results p) (tx p))
             position_frame rest eq_refl Ho Hn2 Hl2 eq_refl).
  unfold io_scan at 1. rewrite Hsi. unfold io_set.
  unfold listener_phase. cbn [overshooting set_position set_status set_mechanicalAngle
    set_port set_lastRotated].
  destruct (overshooting d =? 1) eqn:E; [apply Z.eqb_eq in E; contradiction|].
  destruct (overshooting d =? 2); eexists; (split; [reflexivity|]); cbn;
    repeat split; reflexivity.
Qed.

Lemma MoveListenerThreadFunc_completes_witness :
  let p := open_port (frames ["10.0A"; "100000A"]) [] in
  let d := set_moving 1 (set_port (Some p) (opened_rotator "Mini" "90000" [])) in
  exists d', MoveListenerThreadFunc scan_float_dec d = (d', false) /\
    moving (status d') = 0 /\ mechanicalAngle d' = 100000 /\ listenerRunning d' = false.
Proof.
  intros p d.
  destruct (MoveListenerThreadFunc_completes scan_float_dec d p "10.0" "100000"
              (F32.of_int 10) 100000 [] eq_refl eq_refl eq_refl)
    as (d' & Hrun & _ & Hm & _ & Hmov & Hl & _).
  - cbn. intuition discriminate.
  - cbn. intuition discriminate.
  - cbn. lia.
  - cbn. lia.
  - vm_compute. reflexivity.
  - vm_compute. reflexivity.
  - vm_compute. discriminate.
  - exists d'. split; [exact Hrun|]. split; [exact Hmov|]. split; [exact Hm|exact Hl].
Defined.
